(** * Beam search of [model.py] (class [Model], method [beam_search])

    A shallow embedding of the in-graph beam search and of the part of
    [build_test_model] that calls it, and of the graph construction around
    them: the partition of the embeddings, the variable getter and the device
    setter of [build_train_model], the masked sums of [train_output] and
    [test_loss], the cached decoder of [Transformer], and [make_vocab] of
    [vocab.py].  Tensors are lists (rank 1) and lists
    of rows (rank 2); [tf.float32] values are IEEE-754 binary32 numbers, taken
    from the standard library's [SpecFloat] at precision 24 and exponent
    bound 128; token ids and the step counter are integers. *)

From Stdlib Require Import ZArith List Bool Lia PeanoNat.
From Stdlib Require Import Floats.SpecFloat.
From Stdlib Require String.
From Stdlib Require Import Sorting.Permutation Sorting.Sorted.
Import ListNotations.
Import String.StringSyntax.
Delimit Scope string_scope with string.

Set Implicit Arguments.

(** ** binary32 arithmetic *)

Module F32.

Definition prec : Z := 24.
Definition emax : Z := 128.

Definition t : Type := spec_float.

Definition add : t -> t -> t := SFadd prec emax.
Definition sub : t -> t -> t := SFsub prec emax.
Definition mul : t -> t -> t := SFmul prec emax.
Definition div : t -> t -> t := SFdiv prec emax.
Definition ltb : t -> t -> bool := SFltb.
Definition leb : t -> t -> bool := SFleb.

(** Conversion of an integer constant ([tf.constant], [tf.to_float]). *)
Definition of_Z (z : Z) : t := binary_normalize prec emax z 0 false.

Definition zero : t := S754_zero false.
Definition one : t := of_Z 1.
Definition nan : t := S754_nan.

Definition of_bool (b : bool) : t := if b then one else zero.

Definition valid (x : t) : bool := valid_binary prec emax x.

Definition is_nan (x : t) : bool :=
  match x with S754_nan => true | _ => false end.

(** Zero or a finite non-zero number: neither NaN nor an infinity. *)
Definition is_finite (x : t) : bool :=
  match x with S754_zero _ | S754_finite _ _ _ => true | _ => false end.

(** The sign bit is clear (NaN counts as such: it is never [-0]). *)
Definition sign_clear (x : t) : bool :=
  match x with
  | S754_zero s | S754_infinity s | S754_finite s _ _ => negb s
  | S754_nan => true
  end.

End F32.

(** ** Tensor helpers *)

Section Tensors.
Context {A B C : Type}.

  (** Element-wise combination of two tensors of the same shape. *)
Fixpoint map2 (f : A -> B -> C) (xs : list A) (ys : list B) : list C :=
    match xs, ys with
    | x :: xs', y :: ys' => f x y :: map2 f xs' ys'
    | _, _ => []
    end.

  (** [tf.reshape(x, [rows, cols])] of a flat tensor. *)
Fixpoint reshape (rows cols : nat) (flat : list A) : list (list A) :=
    match rows with
    | O => []
    | S r => firstn cols flat :: reshape r cols (skipn cols flat)
    end.

  (** [tf.gather(params, indices)]; [d] stands for an index out of range,
      which no call of [step] produces on well-shaped input. *)
Definition gather (d : A) (params : list A) (indices : list nat) : list A :=
    map (fun k => nth k params d) indices.
End Tensors.

(** Number of columns of a rank-2 tensor kept as a list of rows. *)
Definition shape1 {A : Type} (x : list (list A)) : nat :=
  match x with
  | [] => 0
  | r :: _ => length r
  end.

(** A rank-2 tensor of shape [[n, w]]. *)
Definition rows_of_width {A : Type} (n w : nat) (x : list (list A)) : Prop :=
  length x = n /\ Forall (fun r => length r = w) x.

(** ** [tf.nn.top_k] and [tf.argmax]

    [tf.nn.top_k(row, k)] returns the indices of the [k] largest entries of
    a row, the largest first and, of two equal entries, the one with the lower
    index first.  This is what [top_k] computes on a row without NaN, by
    taking the first largest entry [k] times.  On a row that holds NaN the
    comparisons of TensorFlow are not an order, and which indices it returns
    is left to its heap; there [top_k] still returns [k] distinct indices of
    the row, but not necessarily those of TensorFlow, and the statements about
    the order of the survivors are made for rows without NaN. *)

Fixpoint best_of (b : nat * F32.t) (l : list (nat * F32.t)) : nat * F32.t :=
  match l with
  | [] => b
  | x :: l' => if F32.ltb (snd b) (snd x) then best_of x l' else best_of b l'
  end.

Definition drop_index (k : nat) (l : list (nat * F32.t)) : list (nat * F32.t) :=
  filter (fun p => negb (Nat.eqb (fst p) k)) l.

Fixpoint top_k_from (k : nat) (cands : list (nat * F32.t)) : list nat :=
  match k, cands with
  | S k', c :: rest =>
      let b := best_of c rest in
      fst b :: top_k_from k' (drop_index (fst b) cands)
  | _, _ => []
  end.

Definition indexed (row : list F32.t) : list (nat * F32.t) :=
  combine (seq 0 (length row)) row.

(** Indices returned by [tf.nn.top_k(row, k)]. *)
Definition top_k (k : nat) (row : list F32.t) : list nat :=
  top_k_from k (indexed row).

(** [NumTraits<float>::lowest()], the least finite number
    [-(2 ^ 24 - 1) * 2 ^ 104]. *)
Definition lowest : F32.t := S754_finite true 16777215 104.

(** [tf.argmax(row)]: the reduction of Eigen goes through the row from the
    left, starts from the index 0 with the least finite number, and takes an
    entry when it is greater than the one it holds.  So it passes over NaN,
    and of two equal entries it keeps the first. *)
Definition argmax (row : list F32.t) : nat :=
  fst (fold_left (fun accum t => if F32.ltb (snd accum) (snd t) then t else accum)
                 (indexed row) (0, lowest)).

(** ** The decoder's configuration and tensors *)

(** [config.test]: [beam_size] counts hypotheses and is a multiple of
    [tf.tile], hence a natural number; [max_target_length] is any integer. *)
Record test_config := {
  beam_size : nat;
  max_target_length : Z;
  lp_alpha : F32.t
}.

(** [encoder_output], of shape [[batch_size, src_length, hidden_units]]:
    one entry of type [E] per batch item, and the second dimension. *)
Record encoder_tensor (E : Type) := {
  enc_rows : list E;
  enc_len : nat
}.

(** The loop variables of [tf.while_loop]. *)
Record loop_vars (K : Type) := {
  lv_i : Z;
  lv_bias : list bool;
  lv_preds : list (list Z);
  lv_scores : list F32.t;
  lv_lengths : list F32.t;
  lv_cache : list K
}.

Definition PAD : Z := 0.
Definition UNK : Z := 1.
Definition BOS : Z := 2.
Definition EOS : Z := 3.

(** [inf = 1e10]; the code writes the sentinel as [-inf]. *)
Definition inf : F32.t := F32.of_Z 10000000000.
Definition neg_inf : F32.t := F32.of_Z (-10000000000).

(** What [beam_search] calls on [self]: the two decoders and [test_output]
    without its first result, which [step] discards ([next_preds] and
    [next_scores], both of shape [[batch_size * beam_size, beam_size]]).
    [E] is one batch item's encoder output, [D] the decoder's output tensor,
    [K] one hypothesis' slice of the cache and [cache_zeros] such a slice of
    [tf.zeros([batch_size * beam_size, 0, num_blocks, hidden_units])]. *)
Record model (E D K : Type) := {
  decoder : list (list Z) -> list E -> D;
  decoder_with_caching : list (list Z) -> list K -> list E -> D * list K;
  test_output : D -> list (list Z) * list (list F32.t);
  cache_zeros : K
}.


(** ** [build_test_model]

    For every device the source placeholder [X] and the target placeholder
    [Y], both of shape [[batch, length]], go through [tf.cond] on
    [tf.shape(X)[0]]. *)

Section BuildTestModel.
Variables E D K : Type.
Variable self : model E D K.
(** [self.beam_search] at the configuration of the model and
    [self._use_cache], from the encoder output to the predictions;
    [self.encoder], [self.test_loss] and [utils.shift_right]. *)
Variable beam_search : encoder_tensor E -> list (list Z).
Variable encoder : list (list Z) -> encoder_tensor E.
Variable test_loss : D -> list (list Z) -> F32.t.
Variable shift_right : list (list Z) -> list (list Z).

Definition true_fn (X Y : list (list Z)) : list (list Z) * F32.t :=
  let dec_input := shift_right Y in
  let enc_output := encoder X in
  let prediction := beam_search enc_output in
  let dec_output := decoder self dec_input (enc_rows enc_output) in
  let loss := test_loss dec_output Y in
  (prediction, loss).

(** [tf.zeros([0, 0], dtype=tf.int32), 0.0] *)
Definition false_fn : list (list Z) * F32.t := ([], F32.zero).

(** [tf.cond(tf.greater(tf.shape(X)[0], 0), true_fn, false_fn)] *)
Definition device_output (X Y : list (list Z)) : list (list Z) * F32.t :=
  if 0 <? length X then true_fn X Y else false_fn.

Definition pad_to_max_length (input : list (list Z)) (length : nat) : list (list Z) :=
  map (fun row => row ++ repeat 3%Z (length - shape1 input)) input.

(** The feeds of all devices in, [(self.prediction, self.loss_sum)] out. *)
Definition build_test_model (feeds : list (list (list Z) * list (list Z)))
  : list (list Z) * F32.t :=
  let outputs := map (fun XY => device_output (fst XY) (snd XY)) feeds in
  let loss_sum := fold_left F32.add (map snd outputs) F32.zero in
  let prediction_list := map fst outputs in
  let max_length := fold_right Nat.max 0 (map (@shape1 Z) prediction_list) in
  let prediction_list := map (fun pred => pad_to_max_length pred max_length) prediction_list in
  (concat prediction_list, loss_sum).

End BuildTestModel.

(** ** Models for the examples

    A scoring function given by a table from prefixes to candidates.  The
    decoder without cache hands the prefixes on; the decoder with cache keeps
    the tokens seen so far in the cache and builds each prefix from its cache
    slice and the last token. *)

Definition scorer : Type := list Z -> list Z * list F32.t.

Definition table_model (f : scorer) : model unit (list (list Z)) (list Z) := {|
  decoder := fun preds _ => preds;
  decoder_with_caching := fun preds cache _ =>
    let full := map2 (fun c p => c ++ [last p 0%Z]) cache preds in (full, full);
  test_output := fun d => (map (fun p => fst (f p)) d, map (fun p => snd (f p)) d);
  cache_zeros := []
|}.

(** [tf.pow] at the two exponents the examples use, 0 and 1. *)
Definition pow_example (x a : F32.t) : F32.t :=
  match a with
  | S754_zero _ => F32.one
  | _ => x
  end.

(** One source sentence of one token. *)
Definition one_item : encoder_tensor unit := {| enc_rows := [tt]; enc_len := 1 |}.

(** The scoring function of the specification's example: ["a"] (4) first
    for two steps, then [EOS] first. *)
Definition a_a_eos : scorer := fun p =>
  if length p <=? 2
  then ([4; 5]%Z, [F32.of_Z (-1); F32.of_Z (-2)])
  else ([EOS; 4%Z], [F32.of_Z (-1); F32.of_Z (-2)]).

Definition config_beam_2 : test_config :=
  {| beam_size := 2; max_target_length := 5; lp_alpha := F32.zero |}.

(** A scoring function that never proposes [EOS], for a beam of one. *)
Definition always_a : scorer := fun _ => ([4%Z], [F32.of_Z (-1)]).

Definition config_beam_1 : test_config :=
  {| beam_size := 1; max_target_length := 2; lp_alpha := F32.zero |}.

(** A scoring function whose first step finishes the second hypothesis of
    the beam and which then gives the other hypothesis next to no
    probability: log-probabilities of [-2e10] and [-3e10]. *)
Definition eos_then_unlikely : scorer := fun p =>
  if length p <=? 1
  then ([4; EOS]%Z, [F32.of_Z (-1); F32.of_Z (-2)])
  else ([5; 6]%Z, [F32.of_Z (-20000000000); F32.of_Z (-30000000000)]).

(** A scoring function that returns [-infinity], the logarithm of the
    probability 0, for every candidate after the first step. *)
Definition eos_then_impossible : scorer := fun p =>
  if length p <=? 1
  then ([4; EOS]%Z, [F32.of_Z (-1); F32.of_Z (-2)])
  else ([5; 6]%Z, [S754_infinity true; S754_infinity true]).

(** A scoring function that returns NaN for its second candidate. *)
Definition nan_second : scorer := fun _ => ([4; 5]%Z, [F32.of_Z (-1); F32.nan]).

(** A configuration whose [max_target_length] is 0. *)
Definition config_length_0 : test_config :=
  {| beam_size := 1; max_target_length := 0; lp_alpha := F32.zero |}.

(** An encoder, a loss and a [shift_right] for the examples of
    [build_test_model]: one encoder output per source sentence. *)
Definition unit_encoder (X : list (list Z)) : encoder_tensor unit :=
  {| enc_rows := map (fun _ => tt) X; enc_len := shape1 X |}.

Definition count_loss (d : list (list Z)) (Y : list (list Z)) : F32.t :=
  F32.of_Z (Z.of_nat (length d)).

Definition shift_right_example (Y : list (list Z)) : list (list Z) :=
  map (fun y => BOS :: removelast y) Y.




(** ** [prepare_shared_weights]: the partition of an embedding

    [get_weights] is only called with its default [partitions=16].
    [np.linspace(0, vocab_size, 17, dtype=np.int)] computes the points
    [i * (vocab_size / 16)] in double precision and truncates them.  For
    [0 <= vocab_size < 2 ** 49] the division by 16 and the products are exact,
    and the points are the integer quotients [i * vocab_size / 16] of
    [inter_points]; this is the range in which [inter_points] stands for the
    program, and for which the statement about [get_weights] is made.  Beyond
    it the double precision numbers are rounded, and [inter_points] is not what
    the program computes. *)

Definition partitions : nat := 16.

Definition inter_points (vocab_size : Z) : list Z :=
  map (fun i => Z.of_nat i * vocab_size / Z.of_nat partitions)%Z (seq 0 (partitions + 1)).

(** The loop over [inter_points[1:]]: the number of rows [p - pre_point] of
    every part, in the order of the parts. *)
Fixpoint part_rows (pre_point : Z) (points : list Z) : list Z :=
  match points with
  | [] => []
  | p :: points' => (p - pre_point)%Z :: part_rows p points'
  end.

Definition get_weights (vocab_size : Z) : list Z :=
  part_rows 0 (tl (inter_points vocab_size)).

(** ** [build_train_model]: [daisy_chain_getter]

    A tensor is the reference of a variable ([var._ref()]) or
    [tf.identity] of a tensor.  The keys of the dictionary [cache] are pairs
    of a device and a name, and names. *)

Inductive tensor : Type :=
| Ref (name : String.string)
| Identity (input : tensor).

Inductive cache_key : Type :=
| DeviceVar (device name : String.string)
| Name (name : String.string).

Definition cache_key_eqb (a b : cache_key) : bool :=
  match a, b with
  | DeviceVar d n, DeviceVar d' n' => String.eqb d d' && String.eqb n n'
  | Name n, Name n' => String.eqb n n'
  | _, _ => false
  end.

(** The dictionary [cache], the latest binding of a key first, and the
    names that the wrapped [getter] has been called with, in the order of the
    calls. *)
Record getter_state := {
  gs_cache : list (cache_key * tensor);
  gs_getter_calls : list String.string
}.

Fixpoint cache_get (k : cache_key) (cache : list (cache_key * tensor)) : option tensor :=
  match cache with
  | [] => None
  | (k', v) :: cache' => if cache_key_eqb k k' then Some v else cache_get k cache'
  end.

(** [daisy_chain_getter(getter, name)] while the model of [device] is built. *)
Definition daisy_chain_getter (device name : String.string) (st : getter_state)
  : tensor * getter_state :=
  let device_var_key := DeviceVar device name in
  match cache_get device_var_key (gs_cache st) with
  | Some v => (v, st)
  | None =>
      let '(v, calls) :=
        match cache_get (Name name) (gs_cache st) with
        | Some c => (Identity c, gs_getter_calls st)
        | None => (Identity (Ref name), gs_getter_calls st ++ [name])
        end in
      (v, {| gs_cache := (device_var_key, v) :: (Name name, v) :: gs_cache st;
             gs_getter_calls := calls |})
  end.

(** The variables asked for while the graph is built, each with the device
    whose model is being built, and the tensors they get. *)
Fixpoint daisy_chain_run (asks : list (String.string * String.string)) (st : getter_state)
  : list tensor * getter_state :=
  match asks with
  | [] => ([], st)
  | (device, name) :: asks' =>
      let '(v, st') := daisy_chain_getter device name st in
      let '(vs, st'') := daisy_chain_run asks' st' in
      (v :: vs, st'')
  end.

(** [cache = {}] *)
Definition empty_getter_state : getter_state := {| gs_cache := []; gs_getter_calls := [] |}.

(** The devices that ask for [name], one entry per ask. *)
Definition asking (name : String.string) (asks : list (String.string * String.string))
  : list String.string :=
  map fst (filter (fun a => String.eqb (snd a) name) asks).

(** [tf.identity] applied [k] times to the reference of the variable [name]. *)
Definition chain (k : nat) (name : String.string) : tensor := Nat.iter k Identity (Ref name).

(** The state that the asks [asks] lead to: [cache] holds for a name the
    chain of identities as long as the number of devices that have asked for
    it, and an entry for exactly the pairs that have asked; [getter] has been
    called once for every name asked for. *)
Definition follows_asks (asks : list (String.string * String.string)) (st : getter_state)
  : Prop :=
  (forall n, cache_get (Name n) (gs_cache st)
             = match asking n asks with
               | [] => None
               | _ => Some (chain (length (nodup String.string_dec (asking n asks))) n)
               end) /\
  (forall d n, cache_get (DeviceVar d n) (gs_cache st) = None <-> ~ In d (asking n asks)) /\
  NoDup (gs_getter_calls st) /\
  (forall n, In n (gs_getter_calls st) <-> asking n asks <> []).

(** ** [build_train_model]: [balanced_device_setter]

    An operation with its type and [op.outputs[0].get_shape().num_elements()],
    which is [None] for a shape that is not fully known.  The dictionary [load]
    is the list of the devices with their loads.  [random.choice] takes the
    entry at a random index, here [pick] modulo the number of entries.  An
    exception is [None]. *)

Record operation := {
  op_type : String.string;
  op_num_elements : option nat
}.

Definition is_variable (op : operation) : bool :=
  existsb (String.eqb (op_type op)) ["Variable"; "VariableV2"; "VarHandleOp"]%string.

(** [min(load.values())], which raises on an empty dictionary. *)
Definition min_load (load : list (String.string * nat)) : option nat :=
  match map snd load with
  | [] => None
  | x :: xs => Some (fold_right Nat.min x xs)
  end.

Definition add_load (chosen : String.string) (n : nat) (load : list (String.string * nat))
  : list (String.string * nat) :=
  map (fun dl => if String.eqb (fst dl) chosen then (fst dl, snd dl + n) else dl) load.

Definition balanced_device_setter (device : String.string) (pick : nat) (op : operation)
           (load : list (String.string * nat))
  : option (String.string * list (String.string * nat)) :=
  if is_variable op then
    match min_load load with
    | None => None
    | Some m =>
        let min_load_devices := map fst (filter (fun dl => Nat.eqb (snd dl) m) load) in
        let chosen_device :=
          nth (pick mod length min_load_devices) min_load_devices device in
        match op_num_elements op with
        | None => None
        | Some n => Some (chosen_device, add_load chosen_device n load)
        end
    end
  else Some (device, load).

(** The operations of a graph placed one after the other, each with the
    device being built and the random index. *)
Fixpoint place_all (ops : list (String.string * nat * operation))
         (load : list (String.string * nat))
  : option (list String.string * list (String.string * nat)) :=
  match ops with
  | [] => Some ([], load)
  | (device, pick, op) :: ops' =>
      match balanced_device_setter device pick op load with
      | None => None
      | Some (d, load') =>
          match place_all ops' load' with
          | None => None
          | Some (ds, load'') => Some (d :: ds, load'')
          end
      end
  end.

(** The elements of the variable operations among [ops]. *)
Definition variable_elements (ops : list (String.string * nat * operation)) : nat :=
  fold_right Nat.add 0
    (map (fun dpo => if is_variable (snd dpo)
                     then match op_num_elements (snd dpo) with Some n => n | None => 0 end
                     else 0) ops).

(** [load = dict([(d, 0) for d in self._devices])]: one entry per device. *)
Definition initial_load (devices : list String.string) : list (String.string * nat) :=
  map (fun d => (d, 0)) (nodup String.string_dec devices).

(** ** [train_output] and [test_loss]: the masked sums

    [preds] stands for the argmax of the logits and [loss] for the cross
    entropy of every position.  [tf.reduce_sum] adds up all entries of a
    tensor and leaves the order of the additions open; they are made from left
    to right here. *)

Definition reduce_sum (x : list (list F32.t)) : F32.t :=
  fold_left F32.add (concat x) F32.zero.

(** [mask = tf.to_float(tf.not_equal(Y, 0))] *)
Definition pad_mask (Y : list (list Z)) : list (list F32.t) :=
  map (map (fun y => F32.of_bool (negb (Z.eqb y 0)))) Y.

(** [acc] of [train_output]. *)
Definition accuracy (preds Y : list (list Z)) : F32.t :=
  let mask := pad_mask Y in
  let equal := map2 (map2 (fun p y => F32.of_bool (Z.eqb p y))) preds Y in
  F32.div (reduce_sum (map2 (map2 F32.mul) equal mask)) (reduce_sum mask).

(** [loss] of [train_output], from the cross entropy of every position on. *)
Definition train_loss (loss : list (list F32.t)) (Y : list (list Z)) : F32.t :=
  let mask := pad_mask Y in
  F32.div (reduce_sum (map2 (map2 F32.mul) loss mask)) (reduce_sum mask).

(** [loss_sum] of [test_loss], from the cross entropy of every position on. *)
Definition test_loss_sum (loss : list (list F32.t)) (Y : list (list Z)) : F32.t :=
  reduce_sum (map2 (map2 F32.mul) loss (pad_mask Y)).

(** The predictions with every position blanked whose target is [PAD]. *)
Definition off_padding (preds Y : list (list Z)) : list (list Z) :=
  map2 (map2 (fun p y => if Z.eqb y 0 then 0%Z else p)) preds Y.

(** A zero of either sign, or NaN. *)
Definition zero_or_nan (x : F32.t) : bool :=
  match x with S754_zero _ | S754_nan => true | _ => false end.

(** ** [make_vocab] of [vocab.py]

    From [words = text.split()] on.  [Counter(words)] is the list of the
    distinct words with their counts; [most_common] sorts it by decreasing
    count (the order of words with the same count is that of the dictionary,
    which Python leaves open; insertion keeps the order of the first
    occurrences here).  A line [word TAB count] of the file is a pair. *)







(** ** Examples of the graph construction *)

(** Three devices that build the same model, with one variable. *)
Definition three_devices : list (String.string * String.string) :=
  [("/gpu:0", "w"); ("/gpu:1", "w"); ("/gpu:0", "w"); ("/gpu:2", "w")]%string.

(** A variable of four elements and an operation that is no variable. *)
Definition variable_of_4 : operation :=
  {| op_type := "VariableV2"%string; op_num_elements := Some 4 |}.

Definition matmul_op : operation :=
  {| op_type := "MatMul"%string; op_num_elements := None |}.

Definition two_loads : list (String.string * nat) := [("/gpu:0", 5); ("/gpu:1", 3)]%string.

Definition three_ops : list (String.string * nat * operation) :=
  [("/gpu:0", 0, variable_of_4); ("/gpu:0", 1, matmul_op); ("/gpu:1", 2, variable_of_4)]%string.


(** ** [Transformer] and [RNNSearch]: the decoders with and without cache

    Both decoders are called with [is_training=False], where
    [tf.layers.dropout] is the identity.  The layers of [utils] stand for
    themselves, on one batch item: its prefix [decoder_input], its slice of
    [decoder_cache] and its encoder output.  A tensor of shape
    [[length, hidden_units]] is the list of its vectors. *)

(** [decoder_output[:, -1:, :]], and [decoder_output[:, -1]] as a slice. *)
Definition last_slice {V : Type} (x : list V) : list V := skipn (length x - 1) x.

Section TransformerDecoder.
Variables E V : Type.
(** [self._config.num_blocks] *)
Variable num_blocks : nat.
(** [embedding], the timing signal and the dropout. *)
Variable embed : list Z -> list V.
(** [multihead_attention] of block [i] on the decoder's own positions, with
    the lower-triangle bias, and with [reserve_last=True] and no bias. *)
Variable self_attention : nat -> list V -> list V.
Variable self_attention_last : nat -> list V -> list V.
(** [multihead_attention] of block [i] on the encoder output, [ff_hidden]
    and [residual] (of block [i] and sub-layer [j]), which act on every
    position by itself. *)
Variable vanilla_attention : nat -> E -> V -> V.
Variable ff_hidden : nat -> V -> V.
Variable residual : nat -> nat -> V -> V -> V.
(** [dense] and [tf.nn.top_k] of [test_output], on [decoder_output[:, -1]]. *)
Variable output_layer : list (list V) -> list (list Z) * list (list F32.t).

(** The second and the third sub-layer of block [i]. *)
Definition vanilla_and_ff (i : nat) (e : E) (x : list V) : list V :=
  let x := map (fun q => residual i 1 q (vanilla_attention i e q)) x in
  map (fun q => residual i 2 q (ff_hidden i q)) x.

(** Block [i] of [decoder_impl]. *)
Definition decoder_block (i : nat) (e : E) (x : list V) : list V :=
  vanilla_and_ff i e (map2 (residual i 0) x (self_attention i x)).

Definition transformer_decoder_impl (decoder_input : list Z) (e : E) : list V :=
  fold_left (fun decoder_output i => decoder_block i e decoder_output)
            (seq 0 num_blocks) (embed decoder_input).

(** Block [i] of [decoder_with_caching_impl], up to the concatenation
    with the cache. *)
Definition cached_block (i : nat) (e : E) (x : list V) : list V :=
  vanilla_and_ff i e (map2 (residual i 0) (last_slice x) (self_attention_last i x)).

(** A slice of [decoder_cache], of shape [[n_step, num_blocks, hidden_units]],
    is the list of its [num_blocks] sequences [decoder_cache[:, :, i, :]]. *)
Definition transformer_decoder_with_caching_impl
           (decoder_input : list Z) (decoder_cache : list (list V)) (e : E)
  : list V * list (list V) :=
  fold_left (fun '(decoder_output, new_cache) i =>
               let decoder_output :=
                 nth i decoder_cache [] ++ cached_block i e decoder_output in
               (decoder_output, new_cache ++ [decoder_output]))
            (seq 0 num_blocks) (embed decoder_input, []).

(** The output of every block of [decoder_impl], first block first. *)
Fixpoint block_outputs (blocks : list nat) (e : E) (x : list V) : list (list V) :=
  match blocks with
  | [] => []
  | i :: blocks' => decoder_block i e x :: block_outputs blocks' e (decoder_block i e x)
  end.

Definition transformer_cache_of (e : E) (prefix : list Z) : list (list V) :=
  block_outputs (seq 0 num_blocks) e (embed prefix).

(** The model on a batch. *)
Definition Transformer : model E (list (list V)) (list (list V)) := {|
  decoder := fun preds encoder_output =>
    map2 (fun p e => transformer_decoder_impl p e) preds encoder_output;
  decoder_with_caching := fun preds cache encoder_output =>
    let r := map2 (fun pc e => transformer_decoder_with_caching_impl (fst pc) (snd pc) e)
                  (combine preds cache) encoder_output in
    (map fst r, map snd r);
  test_output := fun decoder_output => output_layer (map last_slice decoder_output);
  cache_zeros := repeat [] num_blocks
|}.

End TransformerDecoder.

Section RNNSearchDecoder.
Variables E V : Type.
(** [embedding] of one token. *)
Variable embed : Z -> V.
(** [AttentionGRUCell] on the encoder output [e]: from an input and a
    state to an output and a state. *)
Variable cell : E -> V -> V -> V * V.
(** [tf.zeros([hidden_units])], the state that [tf.nn.dynamic_rnn] starts from. *)
Variable zeros : V.
Variable output_layer : list (list V) -> list (list Z) * list (list F32.t).

(** [tf.nn.dynamic_rnn(cell=cell, inputs=decoder_output)]: the outputs. *)
Fixpoint dynamic_rnn (e : E) (inputs : list V) (state : V) : list V :=
  match inputs with
  | [] => []
  | x :: inputs' =>
      let '(output, state') := cell e x state in
      output :: dynamic_rnn e inputs' state'
  end.

Definition rnnsearch_decoder_impl (decoder_input : list Z) (e : E) : list V :=
  dynamic_rnn e (map embed decoder_input) zeros.

(** A slice of [decoder_cache] is the list of its steps, each the list of
    its blocks.  [decoder_input[:, -1]] and [decoder_cache[:, -1, -1, :]] do
    not exist for an empty prefix and a step without blocks, where TensorFlow
    raises an error; they are [PAD] and [zeros] here. *)
Definition rnnsearch_decoder_with_caching_impl
           (decoder_input : list Z) (decoder_cache : list (list V)) (e : E)
  : list V * list (list V) :=
  let decoder_input := last decoder_input 0%Z in
  let decoder_output := embed decoder_input in
  let decoder_cache :=
    if Nat.eqb (length decoder_cache) 0 then [[zeros]] else decoder_cache in
  let '(decoder_output, _) := cell e decoder_output (last (last decoder_cache []) zeros) in
  ([decoder_output], [[decoder_output]]).

Definition rnnsearch_cache_of (e : E) (prefix : list Z) : list (list V) :=
  map (fun output => [output]) (last_slice (rnnsearch_decoder_impl prefix e)).

Definition RNNSearch : model E (list (list V)) (list (list V)) := {|
  decoder := fun preds encoder_output =>
    map2 (fun p e => rnnsearch_decoder_impl p e) preds encoder_output;
  decoder_with_caching := fun preds cache encoder_output =>
    let r := map2 (fun pc e => rnnsearch_decoder_with_caching_impl (fst pc) (snd pc) e)
                  (combine preds cache) encoder_output in
    (map fst r, map snd r);
  test_output := fun decoder_output => output_layer (map last_slice decoder_output);
  cache_zeros := []
|}.

End RNNSearchDecoder.

(** ** The padding of the source, from the encoders to the decoders

    One batch item: [encoder_input] of shape [[src_length]] and
    [encoder_output] of shape [[src_length, hidden_units]].  The last lines of
    the two [encoder_impl] multiply the padded positions by zero; the decoders
    take the positions whose absolute values add up to zero for the padded
    ones ([tf.reduce_sum] adds from left to right here). *)

(** [Transformer.encoder_impl]:
    [encoder_output *= tf.expand_dims(1.0 - tf.to_float(encoder_padding), axis=-1)] *)
Definition transformer_mask_padding (encoder_input : list Z)
           (encoder_output : list (list F32.t)) : list (list F32.t) :=
  let encoder_padding := map (fun t => Z.eqb t 0) encoder_input in
  map2 (fun vec padding =>
          map (fun x => F32.mul x (F32.sub F32.one (F32.of_bool padding))) vec)
       encoder_output encoder_padding.

(** [RNNSearch.encoder_impl]:
    [encoder_output *= tf.expand_dims(tf.to_float(encoder_mask), axis=-1)] *)
Definition rnnsearch_mask_padding (encoder_input : list Z)
           (encoder_output : list (list F32.t)) : list (list F32.t) :=
  let encoder_mask := map (fun t => negb (Z.eqb t 0)) encoder_input in
  map2 (fun vec mask => map (fun x => F32.mul x (F32.of_bool mask)) vec)
       encoder_output encoder_mask.

(** [tf.equal(tf.reduce_sum(tf.abs(encoder_output), axis=-1), 0.0)] of the
    [decoder_impl] and [decoder_with_caching_impl] of both models. *)
Definition encoder_padding (encoder_output : list (list F32.t)) : list bool :=
  map (fun vec => SFeqb (fold_left F32.add (map SFabs vec) F32.zero) F32.zero)
      encoder_output.

(** ** [get_train_op]: the gradients of all losses

    The branch without [name].  [per_loss] holds, for every name of
    [self.losses] in the order of the loop, the pairs of a gradient and a
    variable that [average_gradients] returns; a variable is its name, and
    [add] is the addition of two gradient tensors.  The dictionary
    [summed_grads_and_vars] is the list of its entries, a new variable last. *)

Section TrainOp.
Variable G : Type.
Variable add : G -> G -> G.

(** [if v in summed_grads_and_vars: summed_grads_and_vars[v] += g]
    [else: summed_grads_and_vars[v] = g] *)
Fixpoint sum_gradient (g : G) (v : String.string) (summed : list (String.string * G))
  : list (String.string * G) :=
  match summed with
  | [] => [(v, g)]
  | (v', g') :: rest =>
      if String.eqb v v' then (v', add g' g) :: rest else (v', g') :: sum_gradient g v rest
  end.

Definition summed_grads_and_vars (per_loss : list (list (G * String.string)))
  : list (G * String.string) :=
  let summed :=
    fold_left (fun summed grads_and_vars =>
                 fold_left (fun summed gv => sum_gradient (fst gv) (snd gv) summed)
                           grads_and_vars summed)
              per_loss [] in
  map (fun vg => (snd vg, fst vg)) summed.

(** The gradients of [v] under the losses, in the order of the loops. *)
Definition gradients_of (v : String.string) (grads_and_vars : list (G * String.string))
  : list G :=
  map fst (filter (fun gv => String.eqb (snd gv) v) grads_and_vars).

Fixpoint gradient_in (v : String.string) (summed : list (String.string * G)) : option G :=
  match summed with
  | [] => None
  | (v', g) :: rest => if String.eqb v v' then Some g else gradient_in v rest
  end.

End TrainOp.

(** ** Layers for the examples of the decoders

    Vectors are integers.  The self-attention at a position is the sum of
    the positions up to it; the other layers are arithmetic on one position. *)

Definition running_sums (x : list Z) : list Z :=
  map (fun k => fold_right Z.add 0%Z (firstn (S k) x)) (seq 0 (length x)).

Definition sum_at_last (x : list Z) : list Z :=
  match x with
  | [] => []
  | _ => [fold_right Z.add 0%Z x]
  end.

Definition first_candidate (decoder_output : list (list Z))
  : list (list Z) * list (list F32.t) :=
  (map (fun row => [4 + last row 0 mod 2]%Z) decoder_output,
   map (fun _ => [F32.of_Z (-1)]) decoder_output).

Definition small_transformer : model unit (list (list Z)) (list (list Z)) :=
  Transformer 2 (fun p => p) (fun _ => running_sums) (fun _ => sum_at_last)
              (fun i _ q => 2 * q + Z.of_nat i)%Z (fun _ q => q + 1)%Z
              (fun i j a b => a + b + Z.of_nat (i + j))%Z first_candidate.

Definition small_rnnsearch : model unit (list (list Z)) (list (list Z)) :=
  RNNSearch (fun t => t) (fun _ x s => (x + 2 * s, x + 2 * s)%Z) 0%Z first_candidate.
(** ** [beam_search] *)

Section BeamSearch.
Variables E D K : Type.
Variable self : model E D K.
(** [tf.pow] on [tf.float32]. *)
Variable pow : F32.t -> F32.t -> F32.t.

Variable config : test_config.
Variable use_cache : bool.
Variable encoder_output0 : encoder_tensor E.

Local Abbreviation bs := (beam_size config).
Definition batch_size : nat := length (enc_rows encoder_output0).

  (** [b = tf.constant([0.0] + [-inf] * (beam_size - 1))] *)
Definition bias_row : list F32.t := F32.zero :: repeat neg_inf (bs - 1).

Definition get_bias_scores (scores : list (list F32.t)) (bias : list bool)
    : list (list F32.t) :=
    let bias := map F32.of_bool bias in
    let b := repeat bias_row (batch_size * bs) in
    map2 (fun sb bi =>
            map2 (fun s b0 => F32.add (F32.mul s (F32.sub F32.one bi)) (F32.mul b0 bi))
                 (fst sb) (snd sb))
         (combine scores b) bias.

Definition get_bias_preds (preds : list (list Z)) (bias : list bool)
    : list (list Z) :=
    let bias := map (fun b : bool => if b then 1 else 0)%Z bias in
    map2 (fun row bi => map (fun p => p * (1 - bi) + bi * 3)%Z row) preds bias.

  (** [encoder_output] after [tf.tile] and [tf.reshape]:
      [[batch_size * beam_size, src_length, hidden_units]]. *)
Definition encoder_output : list E :=
    concat (map (fun e => repeat e bs) (enc_rows encoder_output0)).

Definition init_vars : loop_vars K := {|
    lv_i := 0;
    lv_bias := map (fun _ => false) (concat (repeat bias_row batch_size));
    lv_preds := repeat [BOS] (batch_size * bs);
    lv_scores := concat (repeat bias_row batch_size);
    lv_lengths := repeat F32.zero (batch_size * bs);
    lv_cache := if use_cache then repeat (cache_zeros self) (batch_size * bs) else []
  |}.

  (** The body of [step] in three parts.  First the candidates, before
      pruning ("Update scores" and "LP scores"): the biased tokens, the
      cumulative scores, the lengths and the length-penalised scores, the
      last three of shape [[batch_size, beam_size ** 2]]. *)
Record candidates := {
    c_next_preds : list (list Z);
    c_scores : list (list F32.t);
    c_lengths : list (list F32.t);
    c_lp_scores : list (list F32.t)
  }.

Definition expand (bias : list bool) (scores lengths : list F32.t)
             (next_preds : list (list Z)) (next_scores : list (list F32.t))
    : candidates :=
    let next_preds := get_bias_preds next_preds bias in
    let next_scores := get_bias_scores next_scores bias in
    let scores := map2 (fun s row => map (F32.add s) row) scores next_scores in
    let scores := reshape batch_size (bs * bs) (concat scores) in
    let lengths :=
      map2 (fun l row => map (fun p => F32.add l (F32.of_bool (negb (Z.eqb p EOS)))) row)
           lengths next_preds in
    let lengths := reshape batch_size (bs * bs) (concat lengths) in
    let lp := map (map (fun l => pow (F32.div (F32.add (F32.of_Z 5) l) (F32.of_Z (5 + 1)))
                                     (lp_alpha config))) lengths in
    let lp_scores := map2 (map2 F32.div) scores lp in
    {| c_next_preds := next_preds; c_scores := scores;
       c_lengths := lengths; c_lp_scores := lp_scores |}.

  (** Then "Pruning": [k_indices] after [base_indices] has been added. *)
Definition prune (lp_scores : list (list F32.t)) : list nat :=
    let k_indices := map (top_k bs) lp_scores in
    let base_indices := concat (map (fun b => repeat b bs) (seq 0 batch_size)) in
    let base_indices := map (fun b => b * (bs * bs)) base_indices in
    map2 Nat.add base_indices (concat k_indices).

(** And the call of the decoder at the head of [step], with or without cache. *)
Definition decode (preds : list (list Z)) (cache : list K) : D * list K :=
    if use_cache
    then decoder_with_caching self preds cache encoder_output
    else (decoder self preds encoder_output, cache).

Definition step (v : loop_vars K) : loop_vars K :=
    let i := (lv_i v + 1)%Z in
    let '(decoder_output, cache) := decode (lv_preds v) (lv_cache v) in
    let '(next_preds, next_scores) := test_output self decoder_output in
    let c := expand (lv_bias v) (lv_scores v) (lv_lengths v) next_preds next_scores in
    let k_indices := prune (c_lp_scores c) in
    let lengths := gather F32.zero (concat (c_lengths c)) k_indices in
    let scores := gather F32.zero (concat (c_scores c)) k_indices in
    let next_preds := gather 0%Z (concat (c_next_preds c)) k_indices in
    let parents := map (fun k => k / bs) k_indices in
    let preds := gather [] (lv_preds v) parents in
    let cache := if use_cache then gather (cache_zeros self) cache parents else cache in
    let preds := map2 (fun p t => p ++ [t]) preds next_preds in
    let bias := map (fun p => Z.eqb (last p 0%Z) EOS) preds in
    {| lv_i := i; lv_bias := bias; lv_preds := preds; lv_scores := scores;
       lv_lengths := lengths; lv_cache := cache |}.

  (** [tf.reduce_min([tf.shape(encoder_output)[1] + 50, max_target_length])] *)
Definition step_limit : Z :=
    Z.min (Z.of_nat (enc_len encoder_output0) + 50) (max_target_length config).

Definition not_finished (v : loop_vars K) : bool :=
    existsb negb (lv_bias v) && Z.leb (lv_i v) step_limit.

  (** [tf.while_loop(cond=not_finished, body=step, ...)]: the loop as a
      relation between its first and its last state ... *)
Inductive while_loop : loop_vars K -> loop_vars K -> Prop :=
  | while_exit v : not_finished v = false -> while_loop v v
  | while_body v v' : not_finished v = true -> while_loop (step v) v' -> while_loop v v'.

  (** ... and as a function that runs at most [fuel] iterations. *)
Fixpoint run_loop (fuel : nat) (v : loop_vars K) : loop_vars K :=
    match fuel with
    | O => v
    | S fuel' => if not_finished v then run_loop fuel' (step v) else v
    end.

  (** Iterations the loop can still make from a state whose counter is [i]. *)
Definition fuel_for (i : Z) : nat := Z.to_nat (step_limit + 1 - i).

Definition final_vars : loop_vars K := run_loop (fuel_for 0) init_vars.

(** The states the loop goes through. *)
Inductive reachable : loop_vars K -> Prop :=
| reachable_init : reachable init_vars
| reachable_step v : reachable v -> not_finished v = true -> reachable (step v).

(** Names for what [step] computes on the way: the candidates of the step
    taken from [v], and the flattened indices of the survivors. *)
Definition next_preds_of (v : loop_vars K) : list (list Z) :=
    fst (test_output self (fst (decode (lv_preds v) (lv_cache v)))).

Definition next_scores_of (v : loop_vars K) : list (list F32.t) :=
    snd (test_output self (fst (decode (lv_preds v) (lv_cache v)))).

Definition candidates_of (v : loop_vars K) : candidates :=
    expand (lv_bias v) (lv_scores v) (lv_lengths v) (next_preds_of v) (next_scores_of v).

Definition k_indices_of (v : loop_vars K) : list nat :=
    prune (c_lp_scores (candidates_of v)).

Definition beam_search : list (list Z) :=
    let v := final_vars in
    let scores := reshape batch_size bs (lv_scores v) in
    let max_indices := map argmax scores in
    let max_indices := map2 Nat.add max_indices (map (fun b => b * bs) (seq 0 batch_size)) in
    let final_preds := gather [] (lv_preds v) max_indices in
    map (@tl Z) final_preds.


(** ** Predicates and names used in the statements *)

(** What [test_output] promises about the networks: for a batch of
    [batch_size * beam_size] prefixes (and as many cache slices, when there
    is a cache) it returns [beam_size] candidate tokens and [beam_size]
    log-probabilities per prefix. *)
Definition networks_well_shaped : Prop :=
  forall preds cache, length preds = batch_size * bs ->
    (use_cache = true -> length cache = batch_size * bs) ->
    rows_of_width (batch_size * bs) bs (fst (test_output self (fst (decode preds cache)))) /\
    rows_of_width (batch_size * bs) bs (snd (test_output self (fst (decode preds cache)))).

(** The loop variables have [batch_size * beam_size] entries each. *)
Definition well_shaped (v : loop_vars K) : Prop :=
  length (lv_bias v) = batch_size * bs /\
  length (lv_preds v) = batch_size * bs /\
  length (lv_scores v) = batch_size * bs /\
  length (lv_lengths v) = batch_size * bs /\
  (use_cache = true -> length (lv_cache v) = batch_size * bs).

(** A decoder that never proposes [EOS]. *)
Definition never_emits_EOS : Prop :=
  forall preds cache,
    Forall (Forall (fun p => p <> EOS)) (fst (test_output self (fst (decode preds cache)))).

(** Candidate [c] of hypothesis [r] sits at the flattened index
    [r * beam_size + c].  Its token after [get_bias_preds]: *)
Definition candidate_token (v : loop_vars K) (r c : nat) : Z :=
  nth (r * bs + c) (concat (c_next_preds (candidates_of v))) 0%Z.

(** Its log-probability as the decoder gave it, and after [get_bias_scores]. *)
Definition raw_log_prob (v : loop_vars K) (r c : nat) : F32.t :=
  nth c (nth r (next_scores_of v) []) F32.zero.

Definition candidate_log_prob (v : loop_vars K) (r c : nat) : F32.t :=
  nth c (nth r (get_bias_scores (next_scores_of v) (lv_bias v)) []) F32.zero.

(** Its cumulative score, its length and its length-penalised score. *)
Definition candidate_score (v : loop_vars K) (r c : nat) : F32.t :=
  nth (r * bs + c) (concat (c_scores (candidates_of v))) F32.zero.

Definition candidate_length (v : loop_vars K) (r c : nat) : F32.t :=
  nth (r * bs + c) (concat (c_lengths (candidates_of v))) F32.zero.

Definition candidate_lp_score (v : loop_vars K) (r c : nat) : F32.t :=
  nth (r * bs + c) (concat (c_lp_scores (candidates_of v))) F32.zero.

(** Survivor [n] of a step continues hypothesis [parent_of v n] with that
    hypothesis' candidate [choice_of v n]. *)
Definition parent_of (v : loop_vars K) (n : nat) : nat := nth n (k_indices_of v) 0 / bs.
Definition choice_of (v : loop_vars K) (n : nat) : nat := nth n (k_indices_of v) 0 mod bs.

(** After its first [EOS] a sequence holds nothing but [EOS]. *)
Definition eos_closed (p : list Z) : Prop :=
  forall a b, a <= b < length p -> nth a p 0%Z = EOS -> nth b p 0%Z = EOS.

(** What the loop keeps true of hypothesis [n]: its sequence starts with
    [BOS], has one token per step made besides, is closed under [EOS], and
    its flag tells whether the last token is [EOS]. *)
Definition hypothesis_ok (v : loop_vars K) (n : nat) : Prop :=
  let p := nth n (lv_preds v) [] in
  hd 0%Z p = BOS /\
  length p = S (Z.to_nat (lv_i v)) /\
  eos_closed p /\
  nth n (lv_bias v) false = Z.eqb (last p 0%Z) EOS.

(** The beam index that [tf.argmax] picks for batch item [b]. *)
Definition selected (b : nat) : nat :=
  argmax (nth b (reshape batch_size bs (lv_scores final_vars)) []).

(** The scoring function is a function of the whole prefix: the cache is
    what the prefix before its last token determines ([cache_of], empty for the
    empty prefix), and from such a cache [decoder_with_caching] comes to the
    scores that [decoder] computes from the whole prefix, and to the cache of
    the whole prefix. *)
Definition prefix_caches (cache_of : E -> list Z -> K) (preds : list (list Z)) : list K :=
  map2 (fun e p => cache_of e (removelast p)) encoder_output preds.

Definition cache_follows_prefix (cache_of : E -> list Z -> K) : Prop :=
  (forall e, cache_of e [] = cache_zeros self) /\
  forall preds, length preds = batch_size * bs -> Forall (fun p => p <> []) preds ->
    let r := decoder_with_caching self preds (prefix_caches cache_of preds) encoder_output in
    test_output self (fst r) = test_output self (decoder self preds encoder_output) /\
    snd r = map2 cache_of encoder_output preds.

(** Two states of the loop that differ in the cache at most. *)
Definition same_but_cache (v1 v2 : loop_vars K) : Prop :=
  lv_i v1 = lv_i v2 /\ lv_bias v1 = lv_bias v2 /\ lv_preds v1 = lv_preds v2 /\
  lv_scores v1 = lv_scores v2 /\ lv_lengths v1 = lv_lengths v2.
(** ** Facts about the tensor helpers *)

Section TensorFacts.
Context {A B C : Type}.

Lemma map2_length (f : A -> B -> C) xs ys :
  length (map2 f xs ys) = Nat.min (length xs) (length ys).
Proof.
  revert ys; induction xs as [|x xs IH]; intros [|y ys]; simpl; auto.
Qed.

Lemma nth_map2 (f : A -> B -> C) xs ys n da db dc :
  n < length xs -> n < length ys ->
  nth n (map2 f xs ys) dc = f (nth n xs da) (nth n ys db).
Proof.
  revert ys n; induction xs as [|x xs IH]; intros [|y ys] [|n]; simpl; try lia; auto.
  intros; apply IH; lia.
Qed.

Lemma map2_map_l {A'} (f : A -> B -> C) (g : A' -> A) xs ys :
  map2 f (map g xs) ys = map2 (fun x y => f (g x) y) xs ys.
Proof.
  revert ys; induction xs as [|x xs IH]; intros [|y ys]; simpl; auto.
  now rewrite IH.
Qed.

Lemma Forall_map2 (P : C -> Prop) (f : A -> B -> C) xs ys :
  (forall n, n < length xs -> n < length ys ->
             forall da db, P (f (nth n xs da) (nth n ys db))) ->
  Forall P (map2 f xs ys).
Proof.
  revert ys; induction xs as [|x xs IH]; intros [|y ys] H; simpl; auto.
  constructor.
  - apply (H 0 ltac:(simpl; lia) ltac:(simpl; lia) x y).
  - apply IH. intros n Hx Hy da db.
    apply (H (S n) ltac:(simpl; lia) ltac:(simpl; lia) da db).
Qed.

Lemma reshape_length rows cols (l : list A) :
  length (reshape rows cols l) = rows.
Proof.
  revert l; induction rows; simpl; auto.
Qed.

Lemma reshape_width rows cols (l : list A) :
  length l = rows * cols ->
  Forall (fun r => length r = cols) (reshape rows cols l).
Proof.
  revert l; induction rows as [|r IH]; intros l H; simpl; constructor.
  - rewrite firstn_length_le; lia.
  - apply IH. rewrite length_skipn. lia.
Qed.

Lemma concat_reshape rows cols (l : list A) :
  length l = rows * cols -> concat (reshape rows cols l) = l.
Proof.
  revert l; induction rows as [|r IH]; intros l H; simpl.
  - destruct l; simpl in *; [reflexivity | discriminate].
  - rewrite IH.
    + apply firstn_skipn.
    + rewrite length_skipn. lia.
Qed.

Lemma concat_length_uniform w (l : list (list A)) :
  Forall (fun r => length r = w) l -> length (concat l) = length l * w.
Proof.
  induction 1 as [|r l Hr _ IH]; simpl; auto.
  rewrite length_app, IH, Hr. reflexivity.
Qed.

Lemma nth_concat_uniform w (l : list (list A)) r c d :
  Forall (fun x => length x = w) l -> r < length l -> c < w ->
  nth (r * w + c) (concat l) d = nth c (nth r l []) d.
Proof.
  intros H; revert r; induction H as [|x l Hx _ IH]; intros r Hr Hc; simpl in *.
  - lia.
  - destruct r as [|r]; simpl.
    + rewrite app_nth1; [reflexivity | lia].
    + rewrite app_nth2 by lia.
      replace (w + r * w + c - length x) with (r * w + c) by lia.
      apply IH; lia.
Qed.


Lemma gather_length (d : A) params idx : length (gather d params idx) = length idx.
Proof. apply length_map. Qed.

Lemma nth_gather (d : A) params idx n :
  n < length idx -> nth n (gather d params idx) d = nth (nth n idx 0) params d.
Proof.
  intros H. unfold gather.
  rewrite (nth_indep _ d (nth 0 params d)) by (rewrite length_map; lia).
  apply (map_nth (fun k => nth k params d) idx 0 n).
Qed.

End TensorFacts.

Lemma Forall_nth_iff {A} (P : A -> Prop) (l : list A) d :
  Forall P l <-> (forall n, n < length l -> P (nth n l d)).
Proof.
  split.
  - intros H n Hn. now apply Forall_nth.
  - intros H. apply Forall_forall. intros x Hx.
    destruct (In_nth _ _ d Hx) as (n & Hn & <-). now apply H.
Qed.

Lemma nth_repeat_lt {A} (x d : A) n k : k < n -> nth k (repeat x n) d = x.
Proof.
  revert k; induction n; intros [|k] H; simpl; try lia; auto.
  apply IHn; lia.
Qed.

(** Broadcasting a vector along the rows of a matrix. *)
Lemma nth_broadcast {X Y R} (f : X -> Y -> R) xs rows r c dx dy dr :
  r < length xs -> r < length rows -> c < length (nth r rows []) ->
  nth c (nth r (map2 (fun x row => map (f x) row) xs rows) []) dr
  = f (nth r xs dx) (nth c (nth r rows []) dy).
Proof.
  intros Hr1 Hr2 Hc.
  rewrite (nth_map2 _ _ _ dx []) by assumption.
  rewrite (nth_indep _ dr (f (nth r xs dx) dy)) by (rewrite length_map; lia).
  apply map_nth.
Qed.

Lemma broadcast_shape {X Y R} (f : X -> Y -> R) xs rows n w :
  length xs = n -> rows_of_width n w rows ->
  rows_of_width n w (map2 (fun x row => map (f x) row) xs rows).
Proof.
  intros Hx [H1 H2]. split.
  - rewrite map2_length. lia.
  - apply Forall_map2. intros k _ Hk da db. rewrite length_map.
    rewrite Forall_nth_iff in H2. now apply H2.
Qed.

Lemma rows_of_width_nth {X} n w (rows : list (list X)) r :
  rows_of_width n w rows -> r < n -> length (nth r rows []) = w.
Proof.
  intros [H1 H2] Hr. rewrite Forall_nth_iff in H2. apply H2. lia.
Qed.

Lemma last_nth {X} (p : list X) d : last p d = nth (length p - 1) p d.
Proof.
  induction p as [|x [|y p] IH]; simpl in *; auto.
  rewrite IH. now rewrite Nat.sub_0_r.
Qed.

Lemma map2_app {X Y R} (f : X -> Y -> R) a a' b b' :
  length a = length b -> map2 f (a ++ a') (b ++ b') = map2 f a b ++ map2 f a' b'.
Proof.
  revert b; induction a as [|x a IH]; intros [|y b] H; simpl in *; try discriminate; auto.
  f_equal. apply IH. lia.
Qed.

(** Element-wise operations commute with flattening. *)
Lemma concat_map2 {X Y R} (f : X -> Y -> R) n w xs ys :
  rows_of_width n w xs -> rows_of_width n w ys ->
  concat (map2 (map2 f) xs ys) = map2 f (concat xs) (concat ys).
Proof.
  intros [Hx1 Hx2] [Hy1 Hy2]. subst n. revert ys Hy1 Hy2.
  induction Hx2 as [|x xs Hx _ IH]; intros [|y ys] Hy1 Hy2; simpl in *;
    try discriminate; auto.
  inversion Hy2; subst. rewrite map2_app by lia. f_equal. apply IH; auto.
Qed.

Lemma nth_map_const {X Y} (y : Y) (l : list X) n : nth n (map (fun _ => y) l) y = y.
Proof.
  revert n; induction l as [|x l IH]; intros [|n]; simpl; auto.
Qed.

(** ** Facts about binary32 arithmetic *)

Lemma F32_one_eq : F32.one = S754_finite false 8388608 (-23).
Proof. reflexivity. Qed.

Lemma F32_one_minus_one : F32.sub F32.one F32.one = F32.zero.
Proof. vm_compute. reflexivity. Qed.

Lemma F32_one_minus_zero : F32.sub F32.one F32.zero = F32.one.
Proof. vm_compute. reflexivity. Qed.

(** NaN is absorbing. *)
Lemma F32_mul_nan_l y : F32.mul F32.nan y = F32.nan.
Proof. reflexivity. Qed.

Lemma F32_add_nan_l y : F32.add F32.nan y = F32.nan.
Proof. reflexivity. Qed.

Lemma F32_add_nan_r x : F32.add x F32.nan = F32.nan.
Proof. destruct x; reflexivity. Qed.

Lemma F32_div_nan_l y : F32.div F32.nan y = F32.nan.
Proof. reflexivity. Qed.

(** A finite number times zero is a zero; an infinity times zero is NaN. *)
Lemma F32_mul_zero_r x :
  F32.is_finite x = true -> exists s, F32.mul x F32.zero = S754_zero s.
Proof. destruct x as [s|s| |s m e]; simpl; try discriminate; eauto. Qed.

Lemma F32_mul_zero_r_not_finite x :
  F32.is_finite x = false -> F32.mul x F32.zero = F32.nan.
Proof. destruct x as [s|s| |s m e]; simpl; try discriminate; auto. Qed.

(** The two rows of [bias_row] survive [b * 1], and a zero added to them
    leaves them as they are. *)
Lemma F32_bias_zero s : F32.add (S754_zero s) (F32.mul F32.zero F32.one) = F32.zero.
Proof. destruct s; reflexivity. Qed.

Lemma F32_bias_neg_inf s :
  F32.add (S754_zero s) (F32.mul (F32.of_Z (-10000000000)) F32.one)
  = F32.of_Z (-10000000000).
Proof. destruct s; vm_compute; reflexivity. Qed.

(** [x + 0 = x] but for [x = -0]. *)
Lemma F32_add_zero_r x : x <> S754_zero true -> F32.add x F32.zero = x.
Proof. destruct x as [[|]|s| |s m e]; simpl; auto; congruence. Qed.

Lemma F32_sign_clear_not_neg_zero x : F32.sign_clear x = true -> x <> S754_zero true.
Proof. destruct x as [[|]|s| |s m e]; simpl; congruence. Qed.

(** Rounding keeps the sign it is given. *)
Lemma F32_binary_round_aux_sign_clear m e l :
  F32.sign_clear (binary_round_aux F32.prec F32.emax false m e l) = true.
Proof.
  unfold binary_round_aux.
  destruct (shr_fexp F32.prec F32.emax m e l) as [mrs e'].
  destruct (shr_fexp F32.prec F32.emax _ e' loc_Exact) as [mrs' e''].
  destruct (shr_m mrs'); simpl; auto.
  destruct (Z.leb e'' _); reflexivity.
Qed.

Lemma F32_add_sign_clear x y :
  F32.sign_clear x = true -> F32.sign_clear y = true ->
  F32.sign_clear (F32.add x y) = true.
Proof.
  destruct x as [[|]|[|]| |[|] mx ex], y as [[|]|[|]| |[|] my ey];
    simpl; try discriminate; auto.
  intros _ _. unfold F32.add, SFadd, cond_Zopp, binary_normalize, binary_round.
  simpl Z.add.
  match goal with
  | |- context [shl_align ?a ?b ?c] => destruct (shl_align a b c) as [mz ez]
  end.
  apply F32_binary_round_aux_sign_clear.
Qed.

Lemma F32_of_bool_sign_clear b : F32.sign_clear (F32.of_bool b) = true.
Proof. destruct b; reflexivity. Qed.

Lemma F32_div_eucl_eq a b : Z.div_eucl a b = (a / b, a mod b)%Z.
Proof. unfold Z.div, Z.modulo. destruct (Z.div_eucl a b); reflexivity. Qed.

(** A well-formed finite number is normal, with 24 digits, or has the
    least exponent. *)
Lemma F32_canonical_cases m e :
  bounded F32.prec F32.emax m e = true ->
  (e <= 104 /\ ((Zpos (digits2_pos m) = 24 /\ -149 < e) \/ (e = -149 /\ Zpos (digits2_pos m) <= 24)))%Z.
Proof.
  unfold bounded, canonical_mantissa, fexp, emin, F32.prec, F32.emax.
  intros H. apply andb_prop in H. destruct H as [H1 H2].
  apply Z.eqb_eq in H1. apply Z.leb_le in H2. lia.
Qed.

(** Division by one is exact. *)
Lemma F32_div_one_finite s m e :
  bounded F32.prec F32.emax m e = true ->
  F32.div (S754_finite s m e) F32.one = S754_finite s m e.
Proof.
  intros Hb. destruct (F32_canonical_cases m e Hb) as [Hmax [[Hd He]|[He Hd]]].
  - rewrite F32_one_eq. unfold F32.div, SFdiv, SFdiv_core_binary.
    change (Zdigits2 (Zpos m)) with (Zpos (digits2_pos m)).
    change (Zdigits2 8388608) with 24%Z.
    rewrite Hd.
    replace (Z.min (fexp F32.prec F32.emax (24 + e - (24 + -23))) (e - -23)) with (e - 1)%Z
      by (unfold fexp, emin, F32.prec, F32.emax; lia).
    replace (e - -23 - (e - 1))%Z with 24%Z by lia.
    rewrite F32_div_eucl_eq.
    rewrite Z.shiftl_mul_pow2 by lia.
    change (2 ^ 24)%Z with (2 * 8388608)%Z.
    rewrite Z.mul_assoc, Z.div_mul, Z.mod_mul by lia.
    change (new_location 8388608 0) with loc_Exact.
    unfold binary_round_aux, shr_fexp.
    replace (Z.pos m * 2)%Z with (Zpos m~0) by lia.
    cbn [shr_record_of_loc Zdigits2 digits2_pos].
    rewrite Pos2Z.inj_succ, Hd.
    replace (fexp F32.prec F32.emax (Z.succ 24 + (e - 1)) - (e - 1))%Z with 1%Z
      by (unfold fexp, emin, F32.prec, F32.emax; lia).
    cbn [shr iter_pos shr_1 shr_m loc_of_shr_record orb round_nearest_even Zdigits2].
    rewrite Hd.
    replace (fexp F32.prec F32.emax (24 + (e - 1 + 1)) - (e - 1 + 1))%Z with 0%Z
      by (unfold fexp, emin, F32.prec, F32.emax; lia).
    cbn [shr shr_m].
    replace (e - 1 + 1)%Z with e by lia.
    replace (e <=? F32.emax - F32.prec)%Z with true
      by (symmetry; apply Z.leb_le; unfold F32.emax, F32.prec; lia).
    now rewrite Bool.xorb_false_r.
  - subst e. rewrite F32_one_eq. unfold F32.div, SFdiv, SFdiv_core_binary.
    change (Zdigits2 (Zpos m)) with (Zpos (digits2_pos m)).
    change (Zdigits2 8388608) with 24%Z.
    replace (Z.min (fexp F32.prec F32.emax (Zpos (digits2_pos m) + -149 - (24 + -23))) (-149 - -23))
      with (-149)%Z by (unfold fexp, emin, F32.prec, F32.emax; lia).
    change (-149 - -23 - -149)%Z with 23%Z.
    rewrite F32_div_eucl_eq.
    rewrite Z.shiftl_mul_pow2 by lia.
    change (2 ^ 23)%Z with 8388608%Z.
    rewrite Z.div_mul, Z.mod_mul by lia.
    change (new_location 8388608 0) with loc_Exact.
    unfold binary_round_aux, shr_fexp.
    cbn [shr_record_of_loc Zdigits2].
    replace (fexp F32.prec F32.emax (Zpos (digits2_pos m) + -149) - -149)%Z with 0%Z
      by (unfold fexp, emin, F32.prec, F32.emax; lia).
    cbn [shr iter_pos shr_1 shr_m loc_of_shr_record orb round_nearest_even Zdigits2].
    replace (fexp F32.prec F32.emax (Zpos (digits2_pos m) + -149) - -149)%Z with 0%Z
      by (unfold fexp, emin, F32.prec, F32.emax; lia).
    cbn [shr shr_m].
    change (-149 <=? F32.emax - F32.prec)%Z with true. cbv iota.
    now rewrite Bool.xorb_false_r.
Qed.

Lemma F32_div_one x : F32.valid x = true -> F32.div x F32.one = x.
Proof.
  destruct x as [s|s| |s m e]; intros H.
  - simpl. now rewrite Bool.xorb_false_r.
  - simpl. now rewrite Bool.xorb_false_r.
  - reflexivity.
  - now apply F32_div_one_finite.
Qed.

(** The order of [SFcompare], by cases on the operands. *)
Ltac cmp_cases :=
  repeat match goal with
  | H : context [Z.compare ?x ?y] |- _ => destruct (Z.compare_spec x y)
  | |- context [Z.compare ?x ?y] => destruct (Z.compare_spec x y)
  | H : context [Pos.compare_cont Eq ?x ?y] |- _ =>
      change (Pos.compare_cont Eq x y) with (Pos.compare x y) in H;
      destruct (Pos.compare_spec x y)
  | |- context [Pos.compare_cont Eq ?x ?y] =>
      change (Pos.compare_cont Eq x y) with (Pos.compare x y);
      destruct (Pos.compare_spec x y)
  end.

Ltac order_by_cases :=
  unfold F32.ltb, F32.leb, SFltb, SFleb, SFcompare;
  repeat match goal with
         | x : F32.t |- _ => destruct x as [[|]|[|]| |[|] ? ?]
         end;
  intros; try discriminate; try reflexivity;
  cmp_cases; simpl in *; try discriminate; try reflexivity; try lia.

Lemma F32_ltb_irrefl (x : F32.t) : F32.ltb x x = false.
Proof. order_by_cases. Qed.

Lemma F32_ltb_trans (a b c : F32.t) :
  F32.ltb a b = true -> F32.ltb b c = true -> F32.ltb a c = true.
Proof. order_by_cases. Qed.

(** From [a < x] and not [a < b] (so [b <= a], or [b] is NaN): not [x <= b]. *)
Lemma F32_ltb_not_ltb_leb (a x b : F32.t) :
  F32.ltb a x = true -> F32.ltb a b = false -> F32.leb x b = false.
Proof. order_by_cases. Qed.

Lemma F32_ltb_leb_false (a x : F32.t) : F32.ltb a x = true -> F32.leb x a = false.
Proof. intros H. apply (F32_ltb_not_ltb_leb a x a H), F32_ltb_irrefl. Qed.

(** Without NaN, not [x <= y] is [y < x]. *)
Lemma F32_leb_false_ltb (x y : F32.t) :
  F32.is_nan x = false -> F32.is_nan y = false ->
  F32.leb x y = false -> F32.ltb y x = true.
Proof. order_by_cases. Qed.

(** What [a < x] and [x <= a] say of numbers, and of NaN. *)
Lemma F32_ltb_not_nan (a x : F32.t) :
  F32.ltb a x = true -> F32.is_nan a = false /\ F32.is_nan x = false.
Proof. order_by_cases; split; reflexivity. Qed.

Lemma F32_ltb_leb (a x : F32.t) : F32.ltb a x = true -> F32.leb a x = true.
Proof. order_by_cases. Qed.

Lemma F32_leb_refl (x : F32.t) : F32.is_nan x = false -> F32.leb x x = true.
Proof. order_by_cases. Qed.

Lemma F32_not_ltb_leb (a x : F32.t) :
  F32.is_nan a = false -> F32.is_nan x = false -> F32.ltb a x = false -> F32.leb x a = true.
Proof. order_by_cases. Qed.

Lemma F32_leb_trans (a b c : F32.t) :
  F32.leb a b = true -> F32.leb b c = true -> F32.leb a c = true.
Proof. order_by_cases. Qed.

Lemma F32_leb_ltb_trans (a b c : F32.t) :
  F32.leb a b = true -> F32.ltb b c = true -> F32.ltb a c = true.
Proof. order_by_cases. Qed.

(** ** Facts about [top_k] and [argmax] that do not depend on the order *)

Lemma best_of_in b l : In (best_of b l) (b :: l).
Proof.
  revert b; induction l as [|x l IH]; intros b; simpl.
  - now left.
  - destruct (F32.ltb (snd b) (snd x)).
    + right. apply IH.
    + destruct (IH b) as [H|H]; [now left | now right; right].
Qed.

Lemma drop_index_in k l p :
  In p (drop_index k l) <-> In p l /\ fst p <> k.
Proof.
  unfold drop_index. rewrite filter_In.
  rewrite Bool.negb_true_iff, Nat.eqb_neq. reflexivity.
Qed.

Lemma drop_index_keys_nodup k l :
  NoDup (map fst l) -> NoDup (map fst (drop_index k l)).
Proof.
  induction l as [|p l IH]; simpl; intros H; auto.
  inversion H as [|? ? Hn Hd]; subst.
  destruct (negb (fst p =? k)); simpl; auto.
  constructor; auto.
  intros Hin. apply Hn.
  apply in_map_iff in Hin. destruct Hin as (q & Hq & Hin).
  apply drop_index_in in Hin. apply in_map_iff. exists q. tauto.
Qed.

Lemma drop_index_length k l :
  NoDup (map fst l) -> In k (map fst l) ->
  S (length (drop_index k l)) = length l.
Proof.
  induction l as [|[j x] l IH]; simpl; intros Hd Hin; [contradiction|].
  inversion Hd as [|? ? Hn Hd']; subst.
  destruct (Nat.eqb_spec j k) as [->|Hne]; simpl.
  - f_equal. unfold drop_index.
    assert (Hall : forall q, In q l -> negb (fst q =? k) = true).
    { intros q Hq. rewrite Bool.negb_true_iff, Nat.eqb_neq.
      intros <-. apply Hn. now apply in_map. }
    clear -Hall. induction l as [|q l IH]; simpl; auto.
    rewrite (Hall q (or_introl eq_refl)). simpl. f_equal.
    apply IH. intros; apply Hall; now right.
  - f_equal. apply IH; auto. destruct Hin; [contradiction | assumption].
Qed.

#[local] Arguments drop_index : simpl never.

Lemma top_k_from_in k cands i :
  In i (top_k_from k cands) -> In i (map fst cands).
Proof.
  revert cands; induction k as [|k IH]; intros [|c rest]; simpl;
    try (now intros []).
  intros [<-|H].
  - apply (in_map fst (c :: rest)), best_of_in.
  - apply IH in H. apply in_map_iff in H. destruct H as (q & <- & Hq).
    apply drop_index_in in Hq. apply (in_map fst (c :: rest)). tauto.
Qed.

Lemma top_k_from_nodup k cands : NoDup (top_k_from k cands).
Proof.
  revert cands; induction k as [|k IH]; intros [|c rest]; simpl; try constructor.
  - intros H. apply top_k_from_in in H.
    apply in_map_iff in H. destruct H as (q & Hq & Hin).
    apply drop_index_in in Hin. tauto.
  - apply IH.
Qed.

Lemma top_k_from_length k cands :
  NoDup (map fst cands) -> k <= length cands ->
  length (top_k_from k cands) = k.
Proof.
  revert cands; induction k as [|k IH]; intros [|c rest] Hd Hk; simpl in *;
    try reflexivity; try lia.
  f_equal. apply IH.
  - apply (drop_index_keys_nodup _ (c :: rest)), Hd.
  - pose proof (@drop_index_length (fst (best_of c rest)) (c :: rest) Hd
                  (in_map fst (c :: rest) _ (best_of_in c rest))) as H.
    simpl in H. lia.
Qed.

Lemma indexed_keys row : map fst (indexed row) = seq 0 (length row).
Proof.
  unfold indexed. generalize 0.
  induction row as [|x row IH]; intros n; simpl; auto.
  now rewrite IH.
Qed.

Lemma indexed_length row : length (indexed row) = length row.
Proof.
  rewrite <- (length_map fst), indexed_keys. apply length_seq.
Qed.

Lemma top_k_length k row : k <= length row -> length (top_k k row) = k.
Proof.
  intros H. apply top_k_from_length.
  - rewrite indexed_keys. apply seq_NoDup.
  - now rewrite indexed_length.
Qed.

Lemma top_k_bound k row i : In i (top_k k row) -> i < length row.
Proof.
  intros H. apply top_k_from_in in H.
  rewrite indexed_keys in H. apply in_seq in H. lia.
Qed.

Lemma top_k_nodup k row : NoDup (top_k k row).
Proof. apply top_k_from_nodup. Qed.

(** The reduction of [argmax], from any entry that is not NaN: it ends
    with an entry that is not NaN and not below the one it starts from, nor
    below any entry of the row that is not NaN; and it ends with the one it
    starts from, or with an entry of the row that is above it and above every
    entry before it that is not NaN. *)
Lemma argmax_scan (accum : nat * F32.t) (l : list (nat * F32.t)) :
  F32.is_nan (snd accum) = false ->
  let r := fold_left (fun accum t => if F32.ltb (snd accum) (snd t) then t else accum)
                     l accum in
  F32.is_nan (snd r) = false /\
  F32.leb (snd accum) (snd r) = true /\
  (forall y, In y l -> F32.is_nan (snd y) = true \/ F32.leb (snd y) (snd r) = true) /\
  (r = accum \/
   (F32.ltb (snd accum) (snd r) = true /\
    exists l1 l2, l = l1 ++ r :: l2 /\
                  forall y, In y l1 ->
                            F32.is_nan (snd y) = true \/ F32.ltb (snd y) (snd r) = true)).
Proof.
  revert accum; induction l as [|x l IH]; intros accum Hacc; cbn [fold_left].
  - split; [exact Hacc|]. split; [now apply F32_leb_refl|].
    split; [intros y []|]. now left.
  - destruct (F32.ltb (snd accum) (snd x)) eqn:Hlt.
    + destruct (F32_ltb_not_nan _ _ Hlt) as [_ Hx].
      destruct (IH x Hx) as (H1 & H2 & H3 & H4).
      set (r := fold_left _ l x) in *.
      split; [exact H1|]. split.
      { apply (F32_leb_trans _ (snd x)); [now apply F32_ltb_leb | exact H2]. }
      split.
      { intros y [<-|Hy]; [right; exact H2 | now apply H3]. }
      right. destruct H4 as [Hr|(Hxr & l1 & l2 & Hl & Hbefore)].
      * rewrite Hr. split; [exact Hlt|]. exists [], l. split; [reflexivity|]. intros y [].
      * split; [now apply (F32_ltb_trans _ (snd x))|].
        exists (x :: l1), l2. split; [now rewrite Hl|].
        intros y [<-|Hy]; [right; exact Hxr | now apply Hbefore].
    + destruct (IH accum Hacc) as (H1 & H2 & H3 & H4).
      set (r := fold_left _ l accum) in *.
      assert (Hx : F32.is_nan (snd x) = true \/ F32.leb (snd x) (snd accum) = true).
      { destruct (F32.is_nan (snd x)) eqn:Hn; [now left | right].
        now apply F32_not_ltb_leb. }
      split; [exact H1|]. split; [exact H2|]. split.
      { intros y [<-|Hy]; [|now apply H3].
        destruct Hx as [Hx|Hx]; [now left | right].
        now apply (F32_leb_trans _ (snd accum)). }
      destruct H4 as [Hr|(Har & l1 & l2 & Hl & Hbefore)]; [now left | right].
      split; [exact Har|].
      exists (x :: l1), l2. split; [now rewrite Hl|].
      intros y [<-|Hy]; [|now apply Hbefore].
      destruct Hx as [Hx|Hx]; [now left | right].
      now apply (F32_leb_ltb_trans _ (snd accum)).
Qed.

Lemma argmax_bound row : row <> [] -> argmax row < length row.
Proof.
  intros Hne. unfold argmax.
  destruct (argmax_scan (0, lowest) (indexed row) eq_refl) as (_ & _ & _ & H4).
  destruct H4 as [->|(_ & l1 & l2 & Hl & _)].
  - simpl. destruct row; [congruence | simpl; lia].
  - set (r := fold_left _ (indexed row) (0, lowest)) in *.
    assert (Hin : In (fst r) (map fst (indexed row))).
    { apply in_map. rewrite Hl. apply in_or_app. right. now left. }
    rewrite indexed_keys in Hin. apply in_seq in Hin. lia.
Qed.

(** ** What [best_of] picks, and what the scan of [argmax] picks *)

(** [best_of b l] is not below [b] nor below any entry of [l]; it is [b],
    or it is strictly above [b] and every entry of [l] before it is not above
    or equal to it. *)
Lemma best_of_spec b l :
  let r := best_of b l in
  F32.ltb (snd r) (snd b) = false /\
  (forall y, In y l -> F32.ltb (snd r) (snd y) = false) /\
  (r = b \/
   (F32.ltb (snd b) (snd r) = true /\
    exists l1 l2, l = l1 ++ r :: l2 /\
                  forall y, In y l1 -> F32.leb (snd r) (snd y) = false)).
Proof.
  revert b; induction l as [|x l IH]; intros b; simpl.
  - split; [apply F32_ltb_irrefl|]. split; [intros y [] | now left].
  - destruct (F32.ltb (snd b) (snd x)) eqn:Hbx.
    + destruct (IH x) as (H1 & H2 & H3). set (r := best_of x l) in *.
      assert (Hbr : F32.ltb (snd b) (snd r) = true).
      { destruct H3 as [->|[H3 _]]; auto. eapply F32_ltb_trans; eauto. }
      split; [|split].
      * destruct (F32.ltb (snd r) (snd b)) eqn:Hrb; auto.
        rewrite (F32_ltb_trans _ _ _ Hrb Hbx) in H1. discriminate.
      * intros y [<-|Hy]; auto.
      * right. split; [exact Hbr|].
        destruct H3 as [Hr|(Hxr & l1 & l2 & Hl & Hbefore)].
        -- exists [], l. rewrite Hr. split; [reflexivity | intros y []].
        -- exists (x :: l1), l2. split; [now rewrite Hl|].
           intros y [<-|Hy]; auto. now apply F32_ltb_leb_false.
    + destruct (IH b) as (H1 & H2 & H3). set (r := best_of b l) in *.
      split; [exact H1|]. split.
      * intros y [<-|Hy]; auto.
        destruct H3 as [->|[Hbr _]]; auto.
        destruct (F32.ltb (snd r) (snd x)) eqn:Hry; auto.
        rewrite (F32_ltb_trans _ _ _ Hbr Hry) in Hbx. discriminate.
      * destruct H3 as [Hr|(Hbr & l1 & l2 & Hl & Hbefore)]; [now left|].
        right. split; [exact Hbr|].
        exists (x :: l1), l2. split; [now rewrite Hl|].
        intros y [<-|Hy]; auto.
        now apply (F32_ltb_not_ltb_leb (snd b)).
Qed.

Lemma indexed_nth row j d :
  j < length row -> nth j (indexed row) (0, d) = (j, nth j row d).
Proof.
  intros Hj. unfold indexed.
  rewrite combine_nth by apply length_seq. now rewrite seq_nth.
Qed.





(** ** [top_k] keeps the largest entries *)

Lemma keys_determine (l : list (nat * F32.t)) p q :
  NoDup (map fst l) -> In p l -> In q l -> fst p = fst q -> p = q.
Proof.
  induction l as [|x l IH]; simpl; intros Hd Hp Hq Heq; [contradiction|].
  inversion Hd as [|? ? Hn Hd']; subst.
  destruct Hp as [<-|Hp], Hq as [<-|Hq]; auto.
  - exfalso. apply Hn. rewrite Heq. now apply in_map.
  - exfalso. apply Hn. rewrite <- Heq. now apply in_map.
Qed.

(** No entry that [top_k_from] leaves out is above an entry it takes, and
    no entry it takes later is above one it takes earlier. *)
Lemma top_k_from_best k cands p q :
  NoDup (map fst cands) -> In q cands -> In p cands ->
  In (fst q) (top_k_from k cands) -> ~ In (fst p) (top_k_from k cands) ->
  F32.ltb (snd q) (snd p) = false.
Proof.
  revert cands; induction k as [|k IH]; intros [|c rest] Hd Hq Hp Hin Hout;
    simpl in *; try contradiction.
  set (b := best_of c rest) in *.
  assert (Hb : In b (c :: rest)) by apply best_of_in.
  destruct (best_of_spec c rest) as (H1 & H2 & _). fold b in H1, H2.
  destruct Hin as [Hqb|Hin].
  - assert (q = b) by (apply (keys_determine (c :: rest)); auto). subst q.
    destruct Hp as [<-|Hp]; auto.
  - assert (Hqd : In q (drop_index (fst b) (c :: rest))).
    { apply drop_index_in. split; [exact Hq|].
      apply top_k_from_in, in_map_iff in Hin. destruct Hin as (x & Hx & Hxin).
      apply drop_index_in in Hxin. destruct Hxin as [_ Hne]. congruence. }
    assert (Hpd : In p (drop_index (fst b) (c :: rest))).
    { apply drop_index_in. split; [exact Hp|]. intros Heq. apply Hout. now left. }
    apply (IH (drop_index (fst b) (c :: rest))); auto.
    now apply drop_index_keys_nodup.
Qed.

Lemma top_k_from_sorted k cands d a b :
  NoDup (map fst cands) -> a < b -> b < length (top_k_from k cands) ->
  forall p q, In p cands -> In q cands ->
    fst p = nth a (top_k_from k cands) d -> fst q = nth b (top_k_from k cands) d ->
    F32.ltb (snd p) (snd q) = false.
Proof.
  revert cands a b; induction k as [|k IH]; intros [|c rest] a b Hd Hab Hb p q Hp Hq Ha Hbq;
    simpl in *; try lia.
  set (m := best_of c rest) in *.
  destruct (best_of_spec c rest) as (H1 & H2 & _). fold m in H1, H2.
  destruct b as [|b]; [lia|].
  assert (Hm : In m (c :: rest)) by apply best_of_in.
  assert (Hqd : In q (drop_index (fst m) (c :: rest))).
  { apply drop_index_in. split; [exact Hq|].
    assert (Hin : In (fst q) (top_k_from k (drop_index (fst m) (c :: rest))))
      by (rewrite Hbq; apply nth_In; lia).
    apply top_k_from_in, in_map_iff in Hin. destruct Hin as (x & Hx & Hxin).
    apply drop_index_in in Hxin. destruct Hxin as [_ Hne]. congruence. }
  destruct a as [|a].
  - assert (p = m) by (apply (keys_determine (c :: rest)); auto).
    subst p. destruct Hq as [<-|Hq]; auto.
  - assert (Hpd : In p (drop_index (fst m) (c :: rest))).
    { apply drop_index_in. split; [exact Hp|].
      assert (Hin : In (fst p) (top_k_from k (drop_index (fst m) (c :: rest))))
        by (rewrite Ha; apply nth_In; lia).
      apply top_k_from_in, in_map_iff in Hin. destruct Hin as (x & Hx & Hxin).
      apply drop_index_in in Hxin. destruct Hxin as [_ Hne]. congruence. }
    apply (IH (drop_index (fst m) (c :: rest)) a b); auto; try lia.
    now apply drop_index_keys_nodup.
Qed.

Lemma indexed_at row d j : j < length row -> In (j, nth j row d) (indexed row).
Proof.
  intros Hj. rewrite <- (indexed_nth row d Hj). apply nth_In.
  now rewrite indexed_length.
Qed.

Lemma top_k_best k row d i j :
  In i (top_k k row) -> j < length row -> ~ In j (top_k k row) ->
  F32.ltb (nth i row d) (nth j row d) = false.
Proof.
  intros Hi Hj Hout.
  pose proof (top_k_bound k row i Hi) as Hil.
  apply (@top_k_from_best k (indexed row) (j, nth j row d) (i, nth i row d)); auto.
  - rewrite indexed_keys. apply seq_NoDup.
  - now apply indexed_at.
  - now apply indexed_at.
Qed.

Lemma top_k_sorted k row d a b :
  a < b -> b < length (top_k k row) ->
  F32.ltb (nth (nth a (top_k k row) 0) row d) (nth (nth b (top_k k row) 0) row d) = false.
Proof.
  intros Hab Hb.
  assert (Ha' : nth a (top_k k row) 0 < length row)
    by (apply (top_k_bound k), nth_In; lia).
  assert (Hb' : nth b (top_k k row) 0 < length row)
    by (apply (top_k_bound k), nth_In; lia).
  assert (Hd : NoDup (map fst (indexed row)))
    by (rewrite indexed_keys; apply seq_NoDup).
  apply (@top_k_from_sorted k (indexed row) 0 a b Hd Hab Hb
           (nth a (top_k k row) 0, nth (nth a (top_k k row) 0) row d)
           (nth b (top_k k row) 0, nth (nth b (top_k k row) 0) row d));
    auto using indexed_at.
Qed.

(** ** Shapes *)

Unset Implicit Arguments.

Lemma bias_row_length : 1 <= bs -> length bias_row = bs.
Proof. unfold bias_row. simpl. rewrite repeat_length. lia. Qed.

Lemma init_scores_length :
  1 <= bs -> length (concat (repeat bias_row batch_size)) = batch_size * bs.
Proof.
  intros Hbs. rewrite (concat_length_uniform (w := bs)).
  - now rewrite repeat_length.
  - apply Forall_forall. intros r Hr. apply repeat_spec in Hr. subst.
    now apply bias_row_length.
Qed.

Lemma init_vars_well_shaped : 1 <= bs -> well_shaped init_vars.
Proof.
  intros Hbs. unfold well_shaped, init_vars; simpl.
  rewrite length_map, !repeat_length, init_scores_length by assumption.
  repeat split; try reflexivity.
  intros ->. apply repeat_length.
Qed.

Lemma get_bias_preds_shape n w preds bias :
  rows_of_width n w preds -> length bias = n ->
  rows_of_width n w (get_bias_preds preds bias).
Proof.
  intros [Hn Hw] Hb. unfold get_bias_preds. split.
  - rewrite map2_length, length_map. lia.
  - apply Forall_map2. intros r Hr _ da db. rewrite length_map.
    rewrite Forall_nth_iff in Hw. now apply Hw.
Qed.

Lemma nth_get_bias_preds preds bias r c :
  r < length preds -> r < length bias -> c < length (nth r preds []) ->
  nth c (nth r (get_bias_preds preds bias) []) 0%Z =
  if nth r bias false then EOS else nth c (nth r preds []) 0%Z.
Proof.
  intros Hr Hb Hc. unfold get_bias_preds.
  rewrite (nth_map2 _ _ _ [] 0%Z) by (rewrite ?length_map; lia).
  rewrite (map_nth (fun b : bool => if b then 1%Z else 0%Z) bias false r).
  set (bi := if nth r bias false then 1%Z else 0%Z).
  rewrite (nth_indep _ 0%Z ((fun p => p * (1 - bi) + bi * 3)%Z 0%Z))
    by (rewrite length_map; lia).
  rewrite (map_nth (fun p => p * (1 - bi) + bi * 3)%Z).
  unfold bi, EOS. destruct (nth r bias false); lia.
Qed.

Lemma get_bias_scores_shape scores bias :
  rows_of_width (batch_size * bs) bs scores -> length bias = batch_size * bs ->
  rows_of_width (batch_size * bs) bs (get_bias_scores scores bias).
Proof.
  intros [Hn Hw] Hb. unfold get_bias_scores. split.
  - rewrite map2_length, length_combine, length_map, repeat_length. lia.
  - apply Forall_map2. intros r Hr _ da db.
    rewrite map2_length.
    rewrite length_combine, repeat_length in Hr.
    destruct da as [da1 da2].
    rewrite (combine_nth scores _ r da1 da2) by (rewrite repeat_length; lia).
    simpl. rewrite nth_repeat_lt by lia.
    rewrite Forall_nth_iff in Hw. rewrite (Hw r) by lia.
    unfold bias_row. simpl. rewrite repeat_length. lia.
Qed.

(** ** Pruning *)

Lemma expand_shape bias scores lengths next_preds next_scores :
  length bias = batch_size * bs ->
  length scores = batch_size * bs ->
  length lengths = batch_size * bs ->
  rows_of_width (batch_size * bs) bs next_preds ->
  rows_of_width (batch_size * bs) bs next_scores ->
  let c := expand bias scores lengths next_preds next_scores in
  rows_of_width (batch_size * bs) bs (c_next_preds c) /\
  rows_of_width batch_size (bs * bs) (c_scores c) /\
  rows_of_width batch_size (bs * bs) (c_lengths c) /\
  rows_of_width batch_size (bs * bs) (c_lp_scores c).
Proof.
  intros Hb Hs Hl Hp Hn. simpl.
  pose proof (get_bias_preds_shape _ _ _ _ Hp Hb) as [Hp1 Hp2].
  pose proof (get_bias_scores_shape _ _ Hn Hb) as [Hn1 Hn2].
  assert (Hflat : forall (X Y R : Type) (f : X -> Y -> R) (xs : list X) (rows : list (list Y)),
             length xs = batch_size * bs -> rows_of_width (batch_size * bs) bs rows ->
             length (concat (map2 (fun x row => map (f x) row) xs rows))
             = batch_size * (bs * bs)).
  { intros X Y R f xs rows Hx [Hr1 Hr2].
    rewrite (concat_length_uniform (w := bs)).
    - rewrite map2_length. lia.
    - apply Forall_map2. intros n _ Hn' da db. rewrite length_map.
      rewrite Forall_nth_iff in Hr2. now apply Hr2. }
  assert (Hsc := Hflat _ _ _ F32.add scores _ Hs (conj Hn1 Hn2)).
  assert (Hle := Hflat _ _ _ (fun l p => F32.add l (F32.of_bool (negb (Z.eqb p EOS))))
                   lengths _ Hl (conj Hp1 Hp2)).
  repeat split; auto using reshape_length, reshape_width.
  - rewrite map2_length, length_map, !reshape_length. lia.
  - apply Forall_map2. intros n Hn' _ da db.
    rewrite reshape_length in Hn'. rewrite map2_length.
    pose proof (reshape_width _ _ _ Hsc) as W1.
    pose proof (reshape_width _ _ _ Hle) as W2.
    rewrite Forall_nth_iff in W1. rewrite (W1 n) by (rewrite reshape_length; lia).
    rewrite (nth_indep _ db (map (fun l => pow (F32.div (F32.add (F32.of_Z 5) l) (F32.of_Z (5 + 1)))
                                   (lp_alpha config)) []))
      by (rewrite length_map, reshape_length; lia).
    rewrite map_nth, length_map.
    rewrite Forall_nth_iff in W2. rewrite (W2 n) by (rewrite reshape_length; lia).
    lia.
Qed.

Lemma base_indices_nth b j :
  b < batch_size -> j < bs ->
  nth (b * bs + j)
      (map (fun b => b * (bs * bs)) (concat (map (fun b => repeat b bs) (seq 0 batch_size)))) 0
  = b * (bs * bs).
Proof.
  intros Hb Hj.
  rewrite (map_nth (fun b => b * (bs * bs)) _ 0).
  rewrite (nth_concat_uniform (w := bs)).
  - rewrite (nth_indep _ [] (repeat 0 bs)) by (rewrite length_map, length_seq; lia).
    rewrite (map_nth (fun b => repeat b bs)), seq_nth by lia.
    now rewrite nth_repeat_lt.
  - apply Forall_forall. intros x Hx. apply in_map_iff in Hx.
    destruct Hx as (y & <- & _). apply repeat_length.
  - rewrite length_map, length_seq. lia.
  - lia.
Qed.

Lemma base_indices_length :
  length (map (fun b => b * (bs * bs)) (concat (map (fun b => repeat b bs) (seq 0 batch_size))))
  = batch_size * bs.
Proof.
  rewrite length_map, (concat_length_uniform (w := bs)).
  - now rewrite length_map, length_seq.
  - apply Forall_forall. intros x Hx. apply in_map_iff in Hx.
    destruct Hx as (y & <- & _). apply repeat_length.
Qed.

Lemma top_k_rows lp_scores :
  rows_of_width batch_size (bs * bs) lp_scores ->
  rows_of_width batch_size bs (map (top_k bs) lp_scores).
Proof.
  intros [H1 H2]. split.
  - now rewrite length_map.
  - apply Forall_map. eapply Forall_impl; [|exact H2].
    intros row Hrow. simpl in Hrow. apply top_k_length. rewrite Hrow.
    destruct bs; simpl; lia.
Qed.

Lemma prune_length lp_scores :
  rows_of_width batch_size (bs * bs) lp_scores ->
  length (prune lp_scores) = batch_size * bs.
Proof.
  intros H. unfold prune.
  destruct (top_k_rows _ H) as [T1 T2].
  rewrite map2_length, base_indices_length, (concat_length_uniform (w := bs)) by exact T2.
  rewrite T1. lia.
Qed.

(** The flattened index that [prune] returns for survivor [j] of batch
    item [b] is the item's offset plus an index that [top_k] found in the
    item's own row. *)
Lemma prune_nth lp_scores b j :
  rows_of_width batch_size (bs * bs) lp_scores ->
  b < batch_size -> j < bs ->
  nth (b * bs + j) (prune lp_scores) 0
  = b * (bs * bs) + nth j (top_k bs (nth b lp_scores [])) 0.
Proof.
  intros H Hb Hj. unfold prune.
  destruct (top_k_rows _ H) as [T1 T2]. destruct H as [H1 H2].
  assert (b * bs + j < batch_size * bs) by nia.
  rewrite (nth_map2 _ _ _ 0 0).
  - rewrite base_indices_nth by assumption. f_equal.
    rewrite (nth_concat_uniform (w := bs)) by (auto; lia).
    f_equal.
    rewrite (nth_indep _ [] (top_k bs [])) by lia.
    apply map_nth.
  - now rewrite base_indices_length.
  - rewrite (concat_length_uniform (w := bs)) by exact T2. now rewrite T1.
Qed.

(** ** One step *)

Lemma step_unfold v :
  step v =
  {| lv_i := lv_i v + 1;
     lv_bias :=
       map (fun p => Z.eqb (last p 0%Z) EOS)
           (map2 (fun p t => p ++ [t])
                 (gather [] (lv_preds v) (map (fun k => k / bs) (k_indices_of v)))
                 (gather 0%Z (concat (c_next_preds (candidates_of v))) (k_indices_of v)));
     lv_preds :=
       map2 (fun p t => p ++ [t])
            (gather [] (lv_preds v) (map (fun k => k / bs) (k_indices_of v)))
            (gather 0%Z (concat (c_next_preds (candidates_of v))) (k_indices_of v));
     lv_scores := gather F32.zero (concat (c_scores (candidates_of v))) (k_indices_of v);
     lv_lengths := gather F32.zero (concat (c_lengths (candidates_of v))) (k_indices_of v);
     lv_cache :=
       if use_cache
       then gather (cache_zeros self) (snd (decode (lv_preds v) (lv_cache v)))
                   (map (fun k => k / bs) (k_indices_of v))
       else snd (decode (lv_preds v) (lv_cache v)) |}.
Proof.
  unfold step, k_indices_of, candidates_of, next_preds_of, next_scores_of.
  destruct (decode (lv_preds v) (lv_cache v)) as [dout cache]; simpl.
  destruct (test_output self dout) as [np ns]; reflexivity.
Qed.

Lemma candidates_of_shape v :
  networks_well_shaped -> well_shaped v ->
  rows_of_width (batch_size * bs) bs (c_next_preds (candidates_of v)) /\
  rows_of_width batch_size (bs * bs) (c_scores (candidates_of v)) /\
  rows_of_width batch_size (bs * bs) (c_lengths (candidates_of v)) /\
  rows_of_width batch_size (bs * bs) (c_lp_scores (candidates_of v)).
Proof.
  intros Hnet (Hb & Hp & Hs & Hl & Hc).
  destruct (Hnet (lv_preds v) (lv_cache v) Hp Hc) as [H1 H2].
  apply expand_shape; assumption.
Qed.

Lemma k_indices_of_length v :
  networks_well_shaped -> well_shaped v ->
  length (k_indices_of v) = batch_size * bs.
Proof.
  intros Hnet Hv. apply prune_length.
  now apply candidates_of_shape.
Qed.

Lemma step_well_shaped v :
  networks_well_shaped -> well_shaped v -> well_shaped (step v).
Proof.
  intros Hnet Hv. pose proof (k_indices_of_length v Hnet Hv) as Hk.
  rewrite step_unfold. unfold well_shaped; simpl.
  rewrite !length_map, !map2_length, !gather_length, !length_map, Hk.
  repeat split; try lia.
  intros ->. now rewrite gather_length, length_map.
Qed.

Lemma reachable_well_shaped v :
  1 <= bs -> networks_well_shaped -> reachable v -> well_shaped v.
Proof.
  intros Hbs Hnet. induction 1 as [|v Hv IH Hnf].
  - now apply init_vars_well_shaped.
  - now apply step_well_shaped.
Qed.

(** Position [b * beam_size + j] of the survivors' indices, split into the
    batch item's offset and the index from the item's own [top_k]. *)
Lemma k_indices_of_nth v b j :
  networks_well_shaped -> well_shaped v -> b < batch_size -> j < bs ->
  nth (b * bs + j) (k_indices_of v) 0
  = b * (bs * bs) + nth j (top_k bs (nth b (c_lp_scores (candidates_of v)) [])) 0
  /\ nth j (top_k bs (nth b (c_lp_scores (candidates_of v)) [])) 0 < bs * bs.
Proof.
  intros Hnet Hv Hb Hj.
  destruct (candidates_of_shape v Hnet Hv) as (_ & _ & _ & Hlp).
  split.
  - now apply prune_nth.
  - destruct Hlp as [L1 L2].
    rewrite Forall_nth_iff in L2. specialize (L2 b ltac:(lia)).
    rewrite <- L2. apply top_k_bound with (k := bs).
    apply nth_In. rewrite top_k_length; [lia|].
    rewrite L2. destruct bs; simpl; lia.
Qed.

(** C3: in every state of the loop the pruning is a top-k per batch item.
    [k_indices] has one entry per surviving hypothesis, [beam_size] for each
    batch item; the entries of item [b] lie in the item's own range of
    flattened candidates, [b * beam_size ** 2] up to [(b + 1) * beam_size ** 2],
    no two of them are the same candidate, and the parent hypothesis
    gathered for each is one of item [b]. *)
Theorem C3_pruning_is_per_batch_item v :
  1 <= bs -> networks_well_shaped -> reachable v ->
  length (k_indices_of v) = batch_size * bs /\
  forall b j, b < batch_size -> j < bs ->
    let k := nth (b * bs + j) (k_indices_of v) 0 in
    (b * (bs * bs) <= k < (b + 1) * (bs * bs)) /\
    (b * bs <= k / bs < (b + 1) * bs) /\
    (forall b' j', b' < batch_size -> j' < bs ->
       nth (b' * bs + j') (k_indices_of v) 0 = k -> b' = b /\ j' = j).
Proof.
  intros Hbs Hnet Hr.
  pose proof (reachable_well_shaped v Hbs Hnet Hr) as Hv.
  split; [now apply k_indices_of_length|].
  intros b j Hb Hj k.
  destruct (k_indices_of_nth v b j Hnet Hv Hb Hj) as [Hk Hlt].
  fold k in Hk.
  assert (Hrange : b * (bs * bs) <= k < (b + 1) * (bs * bs)) by lia.
  split; [exact Hrange|]. split.
  - split.
    + apply Nat.div_le_lower_bound; lia.
    + apply Nat.Div0.div_lt_upper_bound. lia.
  - intros b' j' Hb' Hj' Heq.
    destruct (k_indices_of_nth v b' j' Hnet Hv Hb' Hj') as [Hk' Hlt'].
    rewrite Heq in Hk'.
    assert (b' = b) by nia. subst b'. split; [reflexivity|].
    assert (Hsame : nth j' (top_k bs (nth b (c_lp_scores (candidates_of v)) [])) 0
                    = nth j (top_k bs (nth b (c_lp_scores (candidates_of v)) [])) 0) by lia.
    destruct (candidates_of_shape v Hnet Hv) as (_ & _ & _ & [L1 L2]).
    rewrite Forall_nth_iff in L2. specialize (L2 b ltac:(lia)).
    assert (Hlen : length (top_k bs (nth b (c_lp_scores (candidates_of v)) [])) = bs).
    { apply top_k_length. rewrite L2. destruct bs; simpl; lia. }
    eapply (proj1 (NoDup_nth _ 0) (top_k_nodup bs _)); rewrite ?Hlen; eauto.
Qed.

(** ** The loop *)

Lemma step_counter v : lv_i (step v) = (lv_i v + 1)%Z.
Proof. now rewrite step_unfold. Qed.

Lemma not_finished_iff v :
  not_finished v = true <->
  (exists r, r < length (lv_bias v) /\ nth r (lv_bias v) true = false) /\
  (lv_i v <= step_limit)%Z.
Proof.
  unfold not_finished. rewrite Bool.andb_true_iff, Z.leb_le, existsb_exists.
  split; intros [H1 H2]; split; auto.
  - destruct H1 as (x & Hin & Hx). destruct (In_nth _ _ true Hin) as (r & Hr & Hnth).
    exists r. split; auto. rewrite Hnth. now destruct x.
  - destruct H1 as (r & Hr & Hnth). exists false. split; auto.
    rewrite <- Hnth. now apply nth_In.
Qed.

Lemma while_loop_deterministic v v1 v2 :
  while_loop v v1 -> while_loop v v2 -> v1 = v2.
Proof.
  intros H1; revert v2; induction H1 as [v Hv|v v1 Hv _ IH]; intros v2 H2;
    inversion H2; subst; auto; congruence.
Qed.

(** [fuel_for] is enough: the function stops because the condition fails,
    and it computes the state the loop ends in. *)
Lemma run_loop_while_loop fuel v :
  fuel_for (lv_i v) <= fuel -> while_loop v (run_loop fuel v).
Proof.
  revert v; induction fuel as [|fuel IH]; intros v Hf; simpl.
  - apply while_exit. unfold not_finished.
    apply Bool.andb_false_iff; right. apply Z.leb_gt.
    unfold fuel_for in Hf. lia.
  - destruct (not_finished v) eqn:Hnf.
    + apply while_body; auto. apply IH.
      rewrite step_counter. unfold fuel_for in *. lia.
    + now apply while_exit.
Qed.

Lemma while_loop_exit v v' : while_loop v v' -> not_finished v' = false.
Proof. induction 1; auto. Qed.

Lemma final_vars_while_loop : while_loop init_vars final_vars.
Proof. apply run_loop_while_loop. simpl. lia. Qed.

Lemma while_loop_reachable v v' : reachable v -> while_loop v v' -> reachable v'.
Proof.
  intros Hr H; induction H as [|v v' Hnf _ IH]; auto.
  apply IH. now apply reachable_step.
Qed.

Lemma final_vars_reachable : reachable final_vars.
Proof.
  apply (while_loop_reachable init_vars); [constructor | apply final_vars_while_loop].
Qed.

(** The counter is the number of steps made, never more than one past the limit. *)
Lemma reachable_counter v :
  reachable v -> (0 <= lv_i v <= Z.max 0 (step_limit + 1))%Z.
Proof.
  induction 1 as [|v Hv IH Hnf]; simpl; [lia|].
  rewrite step_counter. apply not_finished_iff in Hnf. lia.
Qed.

Lemma k_indices_of_bound v n :
  networks_well_shaped -> well_shaped v -> n < batch_size * bs ->
  nth n (k_indices_of v) 0 < batch_size * bs * bs /\
  nth n (k_indices_of v) 0 / bs < batch_size * bs /\
  n / bs * bs <= nth n (k_indices_of v) 0 / bs < (n / bs + 1) * bs.
Proof.
  intros Hnet Hv Hn.
  assert (Hbs : bs <> 0) by (intros Hz; rewrite Hz in Hn; lia).
  assert (Hb : n / bs < batch_size) by (apply Nat.Div0.div_lt_upper_bound; lia).
  assert (Hj : n mod bs < bs) by (now apply Nat.mod_upper_bound).
  destruct (k_indices_of_nth v (n / bs) (n mod bs) Hnet Hv Hb Hj) as [Hk Hlt].
  replace (n / bs * bs + n mod bs) with n in Hk
    by (rewrite (Nat.div_mod_eq n bs) at 1; lia).
  set (k := nth n (k_indices_of v) 0) in *.
  assert (H1 : n / bs * bs <= k / bs).
  { apply Nat.div_le_lower_bound; auto. lia. }
  assert (H2 : k / bs < (n / bs + 1) * bs).
  { apply Nat.Div0.div_lt_upper_bound. lia. }
  repeat split; auto; nia.
Qed.

(** ** The candidates of a step, entry by entry

    Candidate [c] of hypothesis [r] sits at the flattened index
    [r * beam_size + c]. *)

Section Candidates.
Variable v : loop_vars K.
Hypothesis Hnet : networks_well_shaped.
Hypothesis Hv : well_shaped v.
Variables r c : nat.
Hypothesis Hr : r < batch_size * bs.
Hypothesis Hc : c < bs.

Lemma next_preds_of_shape : rows_of_width (batch_size * bs) bs (next_preds_of v).
Proof. destruct Hv as (_ & Hp & _ & _ & Hk). apply (Hnet _ (lv_cache v) Hp Hk). Qed.

Lemma next_scores_of_shape : rows_of_width (batch_size * bs) bs (next_scores_of v).
Proof. destruct Hv as (_ & Hp & _ & _ & Hk). apply (Hnet _ (lv_cache v) Hp Hk). Qed.

Lemma candidate_token_eq :
  candidate_token v r c =
  if nth r (lv_bias v) false then EOS else nth c (nth r (next_preds_of v) []) 0%Z.
Proof.
  unfold candidate_token. simpl.
  pose proof next_preds_of_shape as Hs.
  destruct Hv as (Hb & _).
  rewrite (nth_concat_uniform (w := bs)).
  - apply nth_get_bias_preds; try (destruct Hs; lia).
    now rewrite (@rows_of_width_nth _ _ _ _ _ Hs).
  - apply (get_bias_preds_shape _ _ _ _ Hs Hb).
  - destruct (get_bias_preds_shape _ _ _ _ Hs Hb). lia.
  - assumption.
Qed.

Lemma candidate_score_eq :
  candidate_score v r c = F32.add (nth r (lv_scores v) F32.zero) (candidate_log_prob v r c).
Proof.
  unfold candidate_score, candidate_log_prob. simpl.
  pose proof next_scores_of_shape as Hs.
  destruct Hv as (Hb & _ & Hsc & _).
  pose proof (get_bias_scores_shape _ _ Hs Hb) as Hg.
  pose proof (@broadcast_shape _ _ _ F32.add _ _ _ _ Hsc Hg) as Hbr.
  rewrite concat_reshape.
  - rewrite (nth_concat_uniform (w := bs)); [| apply Hbr | destruct Hbr; lia | assumption].
    apply nth_broadcast; try (destruct Hg; lia).
    now rewrite (@rows_of_width_nth _ _ _ _ _ Hg).
  - rewrite (concat_length_uniform (w := bs)) by apply Hbr.
    destruct Hbr as [-> _]. lia.
Qed.

Lemma candidate_length_eq :
  candidate_length v r c =
  F32.add (nth r (lv_lengths v) F32.zero)
          (F32.of_bool (negb (Z.eqb (candidate_token v r c) EOS))).
Proof.
  unfold candidate_length, candidate_token. simpl.
  pose proof next_preds_of_shape as Hs.
  destruct Hv as (Hb & _ & _ & Hl & _).
  pose proof (get_bias_preds_shape _ _ _ _ Hs Hb) as Hg.
  pose proof (@broadcast_shape _ _ _
                (fun l p => F32.add l (F32.of_bool (negb (Z.eqb p EOS))))
                _ _ _ _ Hl Hg) as Hbr.
  rewrite concat_reshape.
  - rewrite !(nth_concat_uniform (w := bs));
      try apply Hbr; try apply Hg; try assumption;
      try (destruct Hbr; lia); try (destruct Hg; lia).
    apply (nth_broadcast (fun l p => F32.add l (F32.of_bool (negb (Z.eqb p EOS)))));
      try (destruct Hg; lia).
    now rewrite (@rows_of_width_nth _ _ _ _ _ Hg).
  - rewrite (concat_length_uniform (w := bs)) by apply Hbr.
    destruct Hbr as [-> _]. lia.
Qed.

End Candidates.

Lemma bias_row_nth c :
  c < bs -> nth c bias_row F32.zero = if Nat.eqb c 0 then F32.zero else neg_inf.
Proof.
  intros Hc. unfold bias_row. destruct c as [|c']; simpl; auto.
  apply nth_repeat_lt. lia.
Qed.

Section CandidateScores.
Variable v : loop_vars K.
Hypothesis Hnet : networks_well_shaped.
Hypothesis Hv : well_shaped v.
Variables r c : nat.
Hypothesis Hr : r < batch_size * bs.
Hypothesis Hc : c < bs.

Lemma candidate_log_prob_eq :
  candidate_log_prob v r c =
  F32.add (F32.mul (raw_log_prob v r c) (F32.sub F32.one (F32.of_bool (nth r (lv_bias v) false))))
          (F32.mul (nth c bias_row F32.zero) (F32.of_bool (nth r (lv_bias v) false))).
Proof.
  unfold candidate_log_prob, raw_log_prob, get_bias_scores.
  pose proof (next_scores_of_shape v Hnet Hv) as Hs.
  destruct Hv as (Hb & _).
  rewrite (nth_map2 _ _ _ ([], []) F32.zero)
    by (rewrite ?length_combine, ?length_map, ?repeat_length; destruct Hs; lia).
  rewrite combine_nth by (rewrite repeat_length; destruct Hs; lia).
  rewrite nth_repeat_lt by assumption. cbn [fst snd].
  rewrite (nth_indep (map F32.of_bool _) F32.zero (F32.of_bool false))
    by (rewrite length_map; lia).
  rewrite (map_nth F32.of_bool).
  rewrite (nth_map2 _ _ _ F32.zero F32.zero); [reflexivity| |].
  - now rewrite (@rows_of_width_nth _ _ _ _ _ Hs).
  - unfold bias_row. simpl. rewrite repeat_length. lia.
Qed.

Lemma candidate_lp_score_eq :
  candidate_lp_score v r c =
  F32.div (candidate_score v r c)
          (pow (F32.div (F32.add (F32.of_Z 5) (candidate_length v r c)) (F32.of_Z (5 + 1)))
               (lp_alpha config)).
Proof.
  unfold candidate_lp_score, candidate_score, candidate_length.
  destruct (candidates_of_shape v Hnet Hv) as (_ & Hsc & Hle & _).
  unfold candidates_of, expand in *. cbn [c_lp_scores c_scores c_lengths] in *.
  set (S := reshape batch_size (bs * bs)
              (concat (map2 (fun s row => map (F32.add s) row) _ _))) in *.
  set (L := reshape batch_size (bs * bs)
              (concat (map2 (fun l row => map (fun p => F32.add l (F32.of_bool _)) row) _ _))) in *.
  set (g := fun l => pow (F32.div (F32.add (F32.of_Z 5) l) (F32.of_Z (5 + 1))) (lp_alpha config)).
  assert (HgL : rows_of_width batch_size (bs * bs) (map (map g) L)).
  { destruct Hle as [H1 H2]. split; [now rewrite length_map|].
    apply Forall_map. eapply Forall_impl; [|exact H2].
    intros row Hrow. simpl in *. now rewrite length_map. }
  rewrite (concat_map2 F32.div Hsc HgL), <- concat_map.
  assert (Hk : r * bs + c < batch_size * (bs * bs)) by nia.
  rewrite (nth_map2 _ _ _ F32.zero (g F32.zero)).
  - f_equal. now rewrite (map_nth g).
  - rewrite (concat_length_uniform (w := bs * bs)) by apply Hsc.
    destruct Hsc as [-> _]. exact Hk.
  - rewrite length_map, (concat_length_uniform (w := bs * bs)) by apply Hle.
    destruct Hle as [-> _]. exact Hk.
Qed.

End CandidateScores.

(** ** The survivors of a step

    Survivor [n] continues hypothesis [parent_of v n] with that
    hypothesis' candidate [choice_of v n]. *)

Section Survivors.
Variable v : loop_vars K.
Hypothesis Hnet : networks_well_shaped.
Hypothesis Hv : well_shaped v.
Variable n : nat.
Hypothesis Hn : n < batch_size * bs.

Lemma bs_nonzero : bs <> 0.
Proof. intros Hz. rewrite Hz in Hn. lia. Qed.

Lemma parent_of_bound : parent_of v n < batch_size * bs.
Proof. apply k_indices_of_bound; assumption. Qed.

(** The parent is a hypothesis of the survivor's own batch item. *)
Lemma parent_of_same_item : parent_of v n / bs = n / bs.
Proof.
  destruct (k_indices_of_bound v n Hnet Hv Hn) as (_ & _ & H1 & H2).
  fold (parent_of v n) in H1, H2.
  pose proof bs_nonzero.
  set (q := n / bs) in *.
  symmetry. apply Nat.div_unique with (r := parent_of v n - q * bs); nia.
Qed.

Lemma choice_of_bound : choice_of v n < bs.
Proof. apply Nat.mod_upper_bound, bs_nonzero. Qed.

Lemma k_index_split : nth n (k_indices_of v) 0 = parent_of v n * bs + choice_of v n.
Proof.
  unfold parent_of, choice_of.
  rewrite (Nat.div_mod_eq (nth n (k_indices_of v) 0) bs) at 1. lia.
Qed.

Lemma step_preds_nth :
  nth n (lv_preds (step v)) [] =
  nth (parent_of v n) (lv_preds v) [] ++ [candidate_token v (parent_of v n) (choice_of v n)].
Proof.
  rewrite step_unfold; simpl.
  pose proof (k_indices_of_length v Hnet Hv) as Hk.
  rewrite (nth_map2 _ _ _ [] 0%Z) by (rewrite gather_length, ?length_map; lia).
  rewrite !nth_gather by (rewrite ?length_map; lia).
  rewrite (nth_indep (map _ _) 0 ((fun k => k / bs) 0)) by (rewrite length_map; lia).
  rewrite (map_nth (fun k => k / bs) _ 0).
  unfold candidate_token. rewrite <- k_index_split. reflexivity.
Qed.

Lemma step_scores_nth :
  nth n (lv_scores (step v)) F32.zero = candidate_score v (parent_of v n) (choice_of v n).
Proof.
  rewrite step_unfold; simpl.
  pose proof (k_indices_of_length v Hnet Hv) as Hk.
  rewrite nth_gather by lia.
  unfold candidate_score. rewrite <- k_index_split. reflexivity.
Qed.

Lemma step_lengths_nth :
  nth n (lv_lengths (step v)) F32.zero = candidate_length v (parent_of v n) (choice_of v n).
Proof.
  rewrite step_unfold; simpl.
  pose proof (k_indices_of_length v Hnet Hv) as Hk.
  rewrite nth_gather by lia.
  unfold candidate_length. rewrite <- k_index_split. reflexivity.
Qed.

Lemma step_bias_nth :
  nth n (lv_bias (step v)) false =
  Z.eqb (candidate_token v (parent_of v n) (choice_of v n)) EOS.
Proof.
  pose proof step_preds_nth as Hp.
  rewrite step_unfold in *; simpl in *.
  pose proof (k_indices_of_length v Hnet Hv) as Hk.
  rewrite (nth_indep _ false ((fun p => Z.eqb (last p 0%Z) EOS) []))
    by (rewrite length_map, map2_length, !gather_length, length_map; lia).
  rewrite (map_nth (fun p => Z.eqb (last p 0%Z) EOS)), Hp.
  now rewrite last_last.
Qed.

End Survivors.

(** ** The token sequences *)

Lemma eos_closed_snoc p t :
  p <> [] -> eos_closed p -> (last p 0%Z = EOS -> t = EOS) -> eos_closed (p ++ [t]).
Proof.
  intros Hne Hp Ht a b Hab Ha.
  rewrite length_app in Hab; simpl in Hab.
  pose proof (last_nth p 0%Z) as Hlast.
  assert (length p <> 0) by (destruct p; simpl; congruence).
  destruct (Nat.lt_ge_cases b (length p)) as [Hb|Hb].
  - rewrite app_nth1 in * by lia. apply (Hp a b); auto; lia.
  - rewrite (app_nth2 _ _ _ Hb). replace (b - length p) with 0 by lia. simpl.
    destruct (Nat.lt_ge_cases a (length p)) as [Ha'|Ha'].
    + rewrite app_nth1 in Ha by lia. apply Ht. rewrite Hlast.
      apply (Hp a (length p - 1)); auto; lia.
    + rewrite (app_nth2 _ _ _ Ha') in Ha. replace (a - length p) with 0 in Ha by lia.
      exact Ha.
Qed.

Lemma init_vars_hypothesis_ok n : n < batch_size * bs -> hypothesis_ok init_vars n.
Proof.
  intros Hn. unfold hypothesis_ok, init_vars; simpl.
  rewrite nth_map_const, nth_repeat_lt by assumption. simpl.
  repeat split; auto.
  intros a b Hab. simpl in Hab. assert (a = 0) by lia. assert (b = 0) by lia.
  subst. auto.
Qed.

Lemma step_hypothesis_ok v n :
  networks_well_shaped -> well_shaped v -> (0 <= lv_i v)%Z ->
  (forall m, m < batch_size * bs -> hypothesis_ok v m) ->
  n < batch_size * bs -> hypothesis_ok (step v) n.
Proof.
  intros Hnet Hv Hi Hall Hn.
  pose proof (parent_of_bound v Hnet Hv n Hn) as Hp.
  pose proof (choice_of_bound v n Hn) as Hc.
  destruct (Hall _ Hp) as (Hhd & Hlen & Hcl & Hb).
  unfold hypothesis_ok.
  rewrite (step_preds_nth v Hnet Hv n Hn), (step_bias_nth v Hnet Hv n Hn), step_counter.
  set (p := nth (parent_of v n) (lv_preds v) []) in *.
  assert (Hne : p <> []) by (destruct p; simpl in *; congruence).
  repeat split.
  - destruct p; simpl in *; congruence.
  - rewrite length_app, Hlen. simpl. lia.
  - apply eos_closed_snoc; auto.
    intros Hlast. rewrite (candidate_token_eq v Hnet Hv _ _ Hp Hc), Hb, Hlast.
    reflexivity.
  - now rewrite last_last.
Qed.

Lemma reachable_hypothesis_ok v n :
  1 <= bs -> networks_well_shaped -> reachable v ->
  n < batch_size * bs -> hypothesis_ok v n.
Proof.
  intros Hbs Hnet Hr; revert n. induction Hr as [|v Hr IH Hnf]; intros n Hn.
  - now apply init_vars_hypothesis_ok.
  - apply step_hypothesis_ok; auto.
    + now apply reachable_well_shaped.
    + now apply reachable_counter.
Qed.

(** ** The final selection *)

Lemma final_vars_well_shaped :
  1 <= bs -> networks_well_shaped -> well_shaped final_vars.
Proof. intros. apply reachable_well_shaped; auto using final_vars_reachable. Qed.

Lemma selected_bound b :
  1 <= bs -> networks_well_shaped -> b < batch_size -> selected b < bs.
Proof.
  intros Hbs Hnet Hb. unfold selected.
  destruct (final_vars_well_shaped Hbs Hnet) as (_ & _ & Hs & _).
  pose proof (reshape_width batch_size bs _ Hs) as Hw.
  rewrite Forall_nth_iff in Hw.
  specialize (Hw b ltac:(rewrite reshape_length; lia)).
  rewrite <- Hw at 2. apply argmax_bound.
  intros Hnil. rewrite Hnil in Hw. simpl in Hw. lia.
Qed.

Lemma beam_search_length : length beam_search = batch_size.
Proof.
  unfold beam_search.
  rewrite length_map, gather_length, map2_length, !length_map, reshape_length, length_seq.
  lia.
Qed.

Lemma beam_search_nth b :
  b < batch_size ->
  nth b beam_search [] = tl (nth (selected b + b * bs) (lv_preds final_vars) []).
Proof.
  intros Hb. unfold beam_search.
  etransitivity; [apply (map_nth (@tl Z) _ [] b)|]. f_equal.
  rewrite nth_gather
    by (rewrite map2_length, !length_map, reshape_length, length_seq; lia).
  f_equal.
  rewrite (nth_map2 _ _ _ 0 0)
    by (rewrite ?length_map, ?reshape_length, ?length_seq; lia).
  f_equal.
  - rewrite (nth_indep _ 0 (argmax [])) by (rewrite length_map, reshape_length; lia).
    apply map_nth.
  - rewrite (map_nth (fun b => b * bs) _ 0). now rewrite seq_nth.
Qed.

Lemma eos_closed_tl p : eos_closed p -> eos_closed (tl p).
Proof.
  intros Hp a b Hab Ha. destruct p as [|x p]; simpl in *; [lia|].
  apply (Hp (S a) (S b)); simpl; auto; lia.
Qed.

(** The loop's result is its first state after as many steps as the counter says. *)
Lemma run_loop_iter fuel v :
  exists n, run_loop fuel v = Nat.iter n step v /\
            lv_i (run_loop fuel v) = (lv_i v + Z.of_nat n)%Z.
Proof.
  revert v; induction fuel as [|fuel IH]; intros v; simpl.
  - exists 0. simpl. split; [reflexivity | lia].
  - destruct (not_finished v).
    + destruct (IH (step v)) as (n & H1 & H2). exists (S n). split.
      * rewrite H1. now rewrite Nat.iter_succ_r.
      * rewrite H2, step_counter. lia.
    + exists 0. simpl. split; [reflexivity | lia].
Qed.

Lemma final_vars_iter :
  final_vars = Nat.iter (Z.to_nat (lv_i final_vars)) step init_vars.
Proof.
  unfold final_vars.
  destruct (run_loop_iter (fuel_for 0) init_vars) as (n & H1 & H2).
  rewrite H2. simpl. now rewrite Nat2Z.id.
Qed.

Lemma final_hypothesis_shape n :
  1 <= bs -> networks_well_shaped -> n < batch_size * bs ->
  length (nth n (lv_preds final_vars) []) = S (Z.to_nat (lv_i final_vars)) /\
  eos_closed (nth n (lv_preds final_vars) []).
Proof.
  intros Hbs Hnet Hn.
  destruct (reachable_hypothesis_ok final_vars n Hbs Hnet final_vars_reachable Hn)
    as (_ & Hlen & Hcl & _).
  split; assumption.
Qed.

Lemma beam_search_row_shape b :
  1 <= bs -> networks_well_shaped -> b < batch_size ->
  length (nth b beam_search []) = Z.to_nat (lv_i final_vars) /\
  eos_closed (nth b beam_search []).
Proof.
  intros Hbs Hnet Hb. rewrite (beam_search_nth b Hb).
  pose proof (selected_bound b Hbs Hnet Hb) as Hsel.
  assert (Hn : selected b + b * bs < batch_size * bs) by nia.
  destruct (final_hypothesis_shape _ Hbs Hnet Hn) as [Hlen Hcl]. split.
  - destruct (nth _ (lv_preds final_vars) []); simpl in *; lia.
  - now apply eos_closed_tl.
Qed.

(** C10: the output is rectangular.  Every step appends one token to every
    hypothesis, and [EOS] to a finished one; so after the loop every
    hypothesis has one token per step made besides its [BOS], a hypothesis
    that finished early holds [EOS] in every later position, and the rows
    that [beam_search] returns, one per batch item, all have as many tokens
    as steps were made, the trailing [EOS] tokens included. *)
Theorem C10_output_is_rectangular :
  1 <= bs -> networks_well_shaped ->
  let steps := Z.to_nat (lv_i final_vars) in
  final_vars = Nat.iter steps step init_vars /\
  (forall v n, reachable v -> n < batch_size * bs ->
     exists parent tok,
       parent < batch_size * bs /\
       nth n (lv_preds (step v)) [] = nth parent (lv_preds v) [] ++ [tok] /\
       (nth parent (lv_bias v) false = true -> tok = EOS)) /\
  (forall n, n < batch_size * bs ->
     length (nth n (lv_preds final_vars) []) = S steps /\
     eos_closed (nth n (lv_preds final_vars) [])) /\
  length beam_search = batch_size /\
  (forall b, b < batch_size ->
     length (nth b beam_search []) = steps /\ eos_closed (nth b beam_search [])).
Proof.
  intros Hbs Hnet steps.
  split; [apply final_vars_iter|]. split; [|split; [|split]].
  - intros v n Hr Hn.
    pose proof (reachable_well_shaped v Hbs Hnet Hr) as Hv.
    pose proof (parent_of_bound v Hnet Hv n Hn) as Hp.
    exists (parent_of v n), (candidate_token v (parent_of v n) (choice_of v n)).
    split; [exact Hp|]. split.
    + now apply step_preds_nth.
    + intros Hb.
      rewrite (candidate_token_eq v Hnet Hv _ _ Hp (choice_of_bound v n Hn)), Hb.
      reflexivity.
  - intros n Hn. now apply final_hypothesis_shape.
  - apply beam_search_length.
  - intros b Hb. now apply beam_search_row_shape.
Qed.


(** ** The number of steps *)

Lemma never_emits_EOS_unfinished v n :
  1 <= bs -> networks_well_shaped -> never_emits_EOS ->
  reachable v -> n < batch_size * bs -> nth n (lv_bias v) false = false.
Proof.
  intros Hbs Hnet Hnever Hr; revert n.
  induction Hr as [|v Hr IH Hnf]; intros n Hn.
  - simpl. apply nth_map_const.
  - pose proof (reachable_well_shaped v Hbs Hnet Hr) as Hv.
    pose proof (parent_of_bound v Hnet Hv n Hn) as Hp.
    pose proof (choice_of_bound v n Hn) as Hc.
    rewrite (step_bias_nth v Hnet Hv n Hn).
    rewrite (candidate_token_eq v Hnet Hv _ _ Hp Hc), (IH _ Hp).
    apply Z.eqb_neq.
    pose proof (next_preds_of_shape v Hnet Hv) as Hs.
    specialize (Hnever (lv_preds v) (lv_cache v)). fold (next_preds_of v) in Hnever.
    rewrite (Forall_nth_iff _ _ []) in Hnever.
    specialize (Hnever (parent_of v n) ltac:(destruct Hs; lia)).
    rewrite (Forall_nth_iff _ _ 0%Z) in Hnever. apply Hnever.
    now rewrite (@rows_of_width_nth _ _ _ _ _ Hs).
Qed.

Lemma never_emits_EOS_not_finished v :
  1 <= bs -> networks_well_shaped -> never_emits_EOS -> 0 < batch_size ->
  reachable v -> not_finished v = Z.leb (lv_i v) step_limit.
Proof.
  intros Hbs Hnet Hnever Hbatch Hr. unfold not_finished.
  replace (existsb negb (lv_bias v)) with true; [reflexivity|].
  symmetry. apply existsb_exists. exists false. split; [|reflexivity].
  pose proof (reachable_well_shaped v Hbs Hnet Hr) as (Hb & _).
  rewrite <- (never_emits_EOS_unfinished v 0 Hbs Hnet Hnever Hr) by nia.
  apply nth_In. nia.
Qed.

Lemma never_emits_EOS_run_loop fuel v :
  1 <= bs -> networks_well_shaped -> never_emits_EOS -> 0 < batch_size ->
  reachable v -> fuel_for (lv_i v) <= fuel ->
  lv_i (run_loop fuel v) = Z.max (lv_i v) (step_limit + 1).
Proof.
  intros Hbs Hnet Hnever Hbatch. revert v.
  induction fuel as [|fuel IH]; intros v Hr Hf; simpl.
  - unfold fuel_for in Hf. lia.
  - rewrite (never_emits_EOS_not_finished v Hbs Hnet Hnever Hbatch Hr).
    destruct (Z.leb_spec (lv_i v) step_limit) as [Hle|Hgt]; [|lia].
    rewrite IH.
    + rewrite step_counter. lia.
    + apply reachable_step; auto.
      rewrite (never_emits_EOS_not_finished v Hbs Hnet Hnever Hbatch Hr).
      now apply Z.leb_le.
    + rewrite step_counter. unfold fuel_for in *. lia.
Qed.

(** C2, as the code has it: the loop goes on exactly while some
    hypothesis is unfinished and the counter, which is the number of steps made
    so far, is at most [min(source_length + 50, max_target_length)].  The
    counter is tested before the step, so the loop makes at most one step more
    than that limit; with a decoder that never proposes [EOS] and a batch that
    is not empty it makes exactly [limit + 1] steps (none when the limit is
    negative) and stops. *)
Theorem C2_loop_makes_limit_plus_one_steps :
  1 <= bs -> networks_well_shaped ->
  (forall v, not_finished v = true <->
             (exists r, r < length (lv_bias v) /\ nth r (lv_bias v) true = false) /\
             (lv_i v <= step_limit)%Z) /\
  while_loop init_vars final_vars /\
  not_finished final_vars = false /\
  final_vars = Nat.iter (Z.to_nat (lv_i final_vars)) step init_vars /\
  (0 <= lv_i final_vars <= Z.max 0 (step_limit + 1))%Z /\
  (never_emits_EOS -> 0 < batch_size ->
   lv_i final_vars = Z.max 0 (step_limit + 1)).
Proof.
  intros Hbs Hnet.
  split; [exact not_finished_iff|].
  split; [exact final_vars_while_loop|].
  split; [exact (while_loop_exit _ _ final_vars_while_loop)|].
  split; [exact final_vars_iter|].
  split; [exact (reachable_counter _ final_vars_reachable)|].
  intros Hnever Hbatch. unfold final_vars.
  rewrite never_emits_EOS_run_loop; auto using reachable_init.
Qed.

(** ** Scores and lengths *)

Lemma reachable_lengths_sign_clear v n :
  1 <= bs -> networks_well_shaped -> reachable v -> n < batch_size * bs ->
  F32.sign_clear (nth n (lv_lengths v) F32.zero) = true.
Proof.
  intros Hbs Hnet Hr; revert n. induction Hr as [|v Hr IH Hnf]; intros n Hn.
  - simpl. now rewrite nth_repeat_lt.
  - pose proof (reachable_well_shaped v Hbs Hnet Hr) as Hv.
    pose proof (parent_of_bound v Hnet Hv n Hn) as Hp.
    pose proof (choice_of_bound v n Hn) as Hc.
    rewrite (step_lengths_nth v Hnet Hv n Hn).
    rewrite (candidate_length_eq v Hnet Hv _ _ Hp Hc).
    apply F32_add_sign_clear; auto using F32_of_bool_sign_clear.
Qed.

(** C4, as the code has it.  For a finished hypothesis [r] all candidate
    tokens are [EOS]; when the log-probability that the decoder returned for
    candidate [c] is finite, the candidate's log-probability is overridden to
    0 for [c = 0] and to the sentinel otherwise, and its cumulative score is
    the hypothesis' score plus that: the score itself at [c = 0] (for a score
    that is not the negative zero), the score plus the sentinel elsewhere.
    Every survivor that continues [r] appends [EOS] and is finished, and the
    one that continues it with candidate 0 keeps its score. *)
Theorem C4_finished_hypothesis_is_overridden v r c :
  networks_well_shaped -> well_shaped v ->
  r < batch_size * bs -> c < bs ->
  nth r (lv_bias v) false = true ->
  candidate_token v r c = EOS /\
  (F32.is_finite (raw_log_prob v r c) = true ->
   candidate_log_prob v r c = (if Nat.eqb c 0 then F32.zero else neg_inf) /\
   candidate_score v r c
   = F32.add (nth r (lv_scores v) F32.zero) (if Nat.eqb c 0 then F32.zero else neg_inf) /\
   (c = 0 -> nth r (lv_scores v) F32.zero <> S754_zero true ->
    candidate_score v r c = nth r (lv_scores v) F32.zero)) /\
  (forall n, n < batch_size * bs -> parent_of v n = r ->
     nth n (lv_preds (step v)) [] = nth r (lv_preds v) [] ++ [EOS] /\
     nth n (lv_bias (step v)) false = true /\
     (choice_of v n = c -> nth n (lv_scores (step v)) F32.zero = candidate_score v r c)).
Proof.
  intros Hnet Hv Hr Hc Hfin.
  assert (Htok : forall c', c' < bs -> candidate_token v r c' = EOS).
  { intros c' Hc'. now rewrite (candidate_token_eq v Hnet Hv r c' Hr Hc'), Hfin. }
  split; [now apply Htok|]. split.
  - intros Hraw.
    assert (Hlp : candidate_log_prob v r c = if Nat.eqb c 0 then F32.zero else neg_inf).
    { rewrite (candidate_log_prob_eq v Hnet Hv r c Hr Hc), Hfin.
      rewrite bias_row_nth by assumption. cbn [F32.of_bool].
      rewrite F32_one_minus_one.
      destruct (F32_mul_zero_r _ Hraw) as [s ->].
      destruct (Nat.eqb c 0).
      - apply F32_bias_zero.
      - apply F32_bias_neg_inf. }
    split; [exact Hlp|].
    rewrite (candidate_score_eq v Hnet Hv r c Hr Hc), Hlp.
    split; [reflexivity|].
    intros -> Hnz. simpl. now apply F32_add_zero_r.
  - intros n Hn Hpar.
    pose proof (choice_of_bound v n Hn) as Hch.
    rewrite (step_preds_nth v Hnet Hv n Hn), (step_bias_nth v Hnet Hv n Hn),
            (step_scores_nth v Hnet Hv n Hn), Hpar.
    rewrite (Htok _ Hch). repeat split; auto; now intros ->.
Qed.

(** C5: the length of a candidate is its parent's length plus one, in
    binary32, when its token is not [EOS], and its parent's length when the
    token is [EOS]; the score that [top_k] ranks is the cumulative score
    divided by [((5 + length) / (5 + 1)) ** lp_alpha]; for [lp_alpha = 0],
    where [tf.pow] gives 1, it is the cumulative score itself. *)
Theorem C5_length_and_ranking_score v r c :
  1 <= bs -> networks_well_shaped -> reachable v ->
  r < batch_size * bs -> c < bs ->
  (candidate_token v r c <> EOS ->
   candidate_length v r c = F32.add (nth r (lv_lengths v) F32.zero) F32.one) /\
  (candidate_token v r c = EOS ->
   candidate_length v r c = nth r (lv_lengths v) F32.zero) /\
  candidate_lp_score v r c
  = F32.div (candidate_score v r c)
            (pow (F32.div (F32.add (F32.of_Z 5) (candidate_length v r c)) (F32.of_Z (5 + 1)))
                 (lp_alpha config)) /\
  (lp_alpha config = F32.zero -> (forall x, pow x F32.zero = F32.one) ->
   F32.valid (candidate_score v r c) = true ->
   candidate_lp_score v r c = candidate_score v r c).
Proof.
  intros Hbs Hnet Hreach Hr Hc.
  pose proof (reachable_well_shaped v Hbs Hnet Hreach) as Hv.
  pose proof (candidate_length_eq v Hnet Hv r c Hr Hc) as Hlen.
  pose proof (candidate_lp_score_eq v Hnet Hv r c Hr Hc) as Hlp.
  repeat split.
  - intros Hne. rewrite Hlen. apply Z.eqb_neq in Hne. now rewrite Hne.
  - intros He. rewrite Hlen, He, Z.eqb_refl. simpl.
    apply F32_add_zero_r, F32_sign_clear_not_neg_zero.
    now apply reachable_lengths_sign_clear.
  - exact Hlp.
  - intros Ha Hpow Hvalid. rewrite Hlp, Ha, Hpow.
    now apply F32_div_one.
Qed.

(** C7, as the code has it: nothing replaces a NaN.  When the decoder
    returns NaN as the log-probability of a candidate, whether its hypothesis
    is finished or not, the candidate's log-probability stays NaN after
    [get_bias_scores], its cumulative score is NaN and the score handed to
    [tf.nn.top_k] is NaN. *)
Theorem C7_nan_reaches_the_ranking v r c :
  networks_well_shaped -> well_shaped v ->
  r < batch_size * bs -> c < bs ->
  raw_log_prob v r c = F32.nan ->
  candidate_log_prob v r c = F32.nan /\
  candidate_score v r c = F32.nan /\
  candidate_lp_score v r c = F32.nan.
Proof.
  intros Hnet Hv Hr Hc Hnan.
  assert (H1 : candidate_log_prob v r c = F32.nan).
  { rewrite (candidate_log_prob_eq v Hnet Hv r c Hr Hc), Hnan.
    now rewrite F32_mul_nan_l, F32_add_nan_l. }
  assert (H2 : candidate_score v r c = F32.nan).
  { rewrite (candidate_score_eq v Hnet Hv r c Hr Hc), H1. apply F32_add_nan_r. }
  repeat split; auto.
  rewrite (candidate_lp_score_eq v Hnet Hv r c Hr Hc), H2. apply F32_div_nan_l.
Qed.

(** ** Configurations that are not rejected *)

Lemma init_vars_not_finished :
  1 <= bs -> 0 < batch_size -> not_finished init_vars = Z.leb 0 step_limit.
Proof.
  intros Hbs Hbatch. unfold not_finished.
  replace (existsb negb (lv_bias init_vars)) with true; [reflexivity|].
  symmetry. apply existsb_exists. exists false. split; [|reflexivity].
  simpl. rewrite <- (nth_map_const false (concat (repeat bias_row batch_size)) 0) at 1.
  apply nth_In. rewrite length_map, init_scores_length by assumption. nia.
Qed.

(** C9, as the code has it: [beam_search] checks nothing.  With a beam
    of at least one hypothesis it returns a prediction for every batch item
    whatever [max_target_length] and [lp_alpha] are: with a negative
    [max_target_length] the loop makes no step and every prediction is empty,
    with [max_target_length = 0] it makes one step. *)
Theorem C9_no_configuration_is_rejected :
  1 <= bs -> networks_well_shaped ->
  length beam_search = batch_size /\
  ((max_target_length config < 0)%Z ->
   lv_i final_vars = 0%Z /\ forall b, b < batch_size -> nth b beam_search [] = []) /\
  (max_target_length config = 0%Z -> 0 < batch_size ->
   lv_i final_vars = 1%Z /\ final_vars = step init_vars /\
   forall b, b < batch_size -> length (nth b beam_search []) = 1).
Proof.
  intros Hbs Hnet. split; [apply beam_search_length|]. split.
  - intros Hneg.
    assert (Hfin : final_vars = init_vars).
    { unfold final_vars, fuel_for, step_limit.
      replace (Z.to_nat _) with 0 by lia. reflexivity. }
    split; [now rewrite Hfin|].
    intros b Hb. rewrite (beam_search_nth b Hb), Hfin.
    pose proof (selected_bound b Hbs Hnet Hb) as Hsel.
    simpl. rewrite nth_repeat_lt by nia. reflexivity.
  - intros Hzero Hbatch.
    assert (Hlim : step_limit = 0%Z) by (unfold step_limit; lia).
    assert (Hfin : final_vars = step init_vars).
    { unfold final_vars, fuel_for. rewrite Hlim. simpl.
      now rewrite (init_vars_not_finished Hbs Hbatch), Hlim. }
    split; [now rewrite Hfin, step_counter|]. split; [exact Hfin|].
    intros b Hb.
    destruct (beam_search_row_shape b Hbs Hnet Hb) as [Hlen _].
    rewrite Hlen, Hfin, step_counter. reflexivity.
Qed.

(** ** More about the step and the result *)

(** X1: with a beam of one the search is greedy: every step continues each
    hypothesis by the one candidate that [test_output] returns for it ([EOS]
    once the hypothesis is finished) and adds the candidate's log-probability
    to its score. *)
Theorem X1_beam_of_one_is_greedy v n :
  bs = 1 -> networks_well_shaped -> well_shaped v -> n < batch_size ->
  nth n (lv_preds (step v)) []
  = nth n (lv_preds v) []
    ++ [if nth n (lv_bias v) false then EOS else nth 0 (nth n (next_preds_of v) []) 0%Z] /\
  nth n (lv_scores (step v)) F32.zero
  = F32.add (nth n (lv_scores v) F32.zero) (candidate_log_prob v n 0).
Proof.
  intros Hone Hnet Hv Hn.
  assert (HN : n < batch_size * bs) by (rewrite Hone; lia).
  assert (Hj : 0 < bs) by (rewrite Hone; lia).
  destruct (k_indices_of_nth v n 0 Hnet Hv Hn Hj) as [Hk Hlt].
  rewrite Hone in Hk, Hlt.
  replace (n * 1 + 0) with n in Hk by lia.
  assert (Hidx : nth n (k_indices_of v) 0 = n) by lia.
  assert (Hp : parent_of v n = n)
    by (unfold parent_of; rewrite Hidx, Hone; apply Nat.div_1_r).
  assert (Hc : choice_of v n = 0)
    by (unfold choice_of; rewrite Hidx, Hone; apply Nat.mod_1_r).
  rewrite (step_preds_nth v Hnet Hv n HN), (step_scores_nth v Hnet Hv n HN), Hp, Hc.
  rewrite (candidate_token_eq v Hnet Hv n 0 HN Hj).
  rewrite (candidate_score_eq v Hnet Hv n 0 HN Hj).
  split; reflexivity.
Qed.

(** X2: no prediction is longer than one token more than
    [min(source_length + 50, max_target_length)], and so than
    [max_target_length + 1]. *)
Theorem X2_prediction_length_is_bounded b :
  1 <= bs -> networks_well_shaped -> b < batch_size ->
  (Z.of_nat (length (nth b beam_search [])) <= Z.max 0 (step_limit + 1))%Z /\
  (Z.of_nat (length (nth b beam_search [])) <= Z.max 0 (max_target_length config + 1))%Z.
Proof.
  intros Hbs Hnet Hb.
  destruct (beam_search_row_shape b Hbs Hnet Hb) as [Hlen _].
  pose proof (reachable_counter _ final_vars_reachable) as Hc.
  rewrite Hlen. unfold step_limit in *. lia.
Qed.

(** X3: pruning keeps the best.  [tf.nn.top_k] returns the largest entries
    of a row in descending order; so, for a batch item none of whose candidates
    has NaN for its length-penalised score, every candidate that is pruned has
    a score that is not above that of any survivor, and the survivors stand
    in the order of their scores, the best first. *)
Theorem X3_survivors_are_the_best_candidates v b j :
  networks_well_shaped -> well_shaped v -> b < batch_size -> j < bs ->
  let lp := fun k => nth k (concat (c_lp_scores (candidates_of v))) F32.zero in
  (forall c, c < bs * bs -> F32.is_nan (lp (b * (bs * bs) + c)) = false) ->
  (forall c, c < bs * bs ->
     (forall j', j' < bs -> nth (b * bs + j') (k_indices_of v) 0 <> b * (bs * bs) + c) ->
     F32.leb (lp (b * (bs * bs) + c)) (lp (nth (b * bs + j) (k_indices_of v) 0)) = true) /\
  (forall j', j < j' -> j' < bs ->
     F32.leb (lp (nth (b * bs + j') (k_indices_of v) 0))
             (lp (nth (b * bs + j) (k_indices_of v) 0)) = true).
Proof.
  intros Hnet Hv Hb Hj lp Hnan.
  destruct (candidates_of_shape v Hnet Hv) as (_ & _ & _ & Hlp).
  set (row := nth b (c_lp_scores (candidates_of v)) []).
  assert (Hrow : length row = bs * bs) by (apply (rows_of_width_nth Hlp Hb)).
  assert (Hflat : forall x, x < bs * bs -> lp (b * (bs * bs) + x) = nth x row F32.zero).
  { intros x Hx. unfold lp. apply nth_concat_uniform; [apply Hlp | | exact Hx].
    destruct Hlp as [-> _]. exact Hb. }
  assert (Hnum : forall x, x < bs * bs -> F32.is_nan (nth x row F32.zero) = false).
  { intros x Hx. rewrite <- (Hflat x Hx). now apply Hnan. }
  assert (Htop : length (top_k bs row) = bs).
  { apply top_k_length. rewrite Hrow. destruct bs; simpl; lia. }
  assert (Hk : forall j', j' < bs ->
             nth (b * bs + j') (k_indices_of v) 0 = b * (bs * bs) + nth j' (top_k bs row) 0 /\
             nth j' (top_k bs row) 0 < bs * bs).
  { intros j' Hj'. apply (k_indices_of_nth v b j' Hnet Hv Hb Hj'). }
  destruct (Hk j Hj) as [Hkj Hlt]. rewrite Hkj, (Hflat _ Hlt).
  split.
  - intros c Hc Hout. rewrite (Hflat c Hc).
    apply F32_not_ltb_leb; [now apply Hnum | now apply Hnum |].
    apply (top_k_best bs row).
    + apply nth_In. now rewrite Htop.
    + now rewrite Hrow.
    + intros Hin. destruct (In_nth _ _ 0 Hin) as (j' & Hj' & Heq).
      rewrite Htop in Hj'. apply (Hout j' Hj').
      destruct (Hk j' Hj') as [-> _]. now rewrite Heq.
  - intros j' Hjj' Hj'. destruct (Hk j' Hj') as [Hkj' Hlt'].
    rewrite Hkj', (Hflat _ Hlt').
    apply F32_not_ltb_leb; [now apply Hnum | now apply Hnum |].
    apply top_k_sorted; [exact Hjj' | now rewrite Htop].
Qed.

(** When the loop stops before the limit, it stops because every
    hypothesis is finished. *)
Lemma final_vars_all_finished n :
  1 <= bs -> networks_well_shaped -> (lv_i final_vars <= step_limit)%Z ->
  n < batch_size * bs -> nth n (lv_bias final_vars) false = true.
Proof.
  intros Hbs Hnet Hi Hn.
  pose proof (while_loop_exit _ _ final_vars_while_loop) as Hexit.
  unfold not_finished in Hexit. apply Bool.andb_false_iff in Hexit.
  destruct Hexit as [Hex|Hle]; [|apply Z.leb_gt in Hle; lia].
  destruct (final_vars_well_shaped Hbs Hnet) as (Hlen & _).
  destruct (nth n (lv_bias final_vars) false) eqn:Hb; [reflexivity|].
  exfalso. rewrite <- Bool.not_true_iff_false in Hex. apply Hex.
  apply existsb_exists. exists false. split; [|reflexivity].
  rewrite <- Hb. apply nth_In. lia.
Qed.

(** X17: a prediction that is no longer than the limit ends with [EOS]: only
    when the loop has run into the limit, and the prediction has
    [min(source_length + 50, max_target_length) + 1] tokens, can it be a
    sequence that is not finished. *)
Theorem X17_prediction_below_the_limit_ends_with_EOS b :
  1 <= bs -> networks_well_shaped -> b < batch_size ->
  (Z.of_nat (length (nth b beam_search [])) <= step_limit)%Z ->
  nth b beam_search [] <> [] /\ last (nth b beam_search []) 0%Z = EOS.
Proof.
  intros Hbs Hnet Hb Hshort.
  destruct (beam_search_row_shape b Hbs Hnet Hb) as [Hlen _].
  pose proof (reachable_counter _ final_vars_reachable) as Hc.
  assert (Hi : (lv_i final_vars <= step_limit)%Z) by lia.
  pose proof (selected_bound b Hbs Hnet Hb) as Hsel.
  assert (Hn : selected b + b * bs < batch_size * bs) by nia.
  destruct (reachable_hypothesis_ok final_vars _ Hbs Hnet final_vars_reachable Hn)
    as (_ & Hplen & _ & Hbias).
  rewrite (final_vars_all_finished _ Hbs Hnet Hi Hn) in Hbias.
  symmetry in Hbias. apply Z.eqb_eq in Hbias.
  (* the loop has made a step: at the start no hypothesis is finished *)
  assert (Hpos : (0 < lv_i final_vars)%Z).
  { destruct (Z.eq_dec (lv_i final_vars) 0) as [Hz|]; [|lia]. exfalso.
    assert (Hinit : final_vars = init_vars)
      by (rewrite final_vars_iter, Hz; reflexivity).
    pose proof (final_vars_all_finished _ Hbs Hnet Hi Hn) as Hfin.
    rewrite Hinit in Hfin. unfold init_vars in Hfin. cbn [lv_bias] in Hfin.
    rewrite nth_map_const in Hfin. discriminate. }
  rewrite (beam_search_nth b Hb) in *.
  destruct (nth (selected b + b * bs) (lv_preds final_vars) []) as [|x [|y p]];
    simpl in *; try lia.
  split; [discriminate | exact Hbias].
Qed.

End BeamSearch.

(** ** Decoding with and without the cache *)

Section CacheEquivalence.
Variables E D K : Type.
Variable self : model E D K.
Variable pow : F32.t -> F32.t -> F32.t.
Variable config : test_config.
Variable enc : encoder_tensor E.
Variable cache_of : E -> list Z -> K.

Let bs : nat := beam_size config.
Let rows : nat := batch_size enc * beam_size config.

Hypothesis Hbs : 1 <= beam_size config.
Hypothesis Hnet : networks_well_shaped self config false enc.
Hypothesis Hcache : cache_follows_prefix self config enc cache_of.

Lemma encoder_output_length : length (encoder_output config enc) = rows.
Proof.
  unfold encoder_output. rewrite (concat_length_uniform (w := beam_size config)).
  - now rewrite length_map.
  - apply Forall_forall. intros x Hx. apply in_map_iff in Hx.
    destruct Hx as (y & <- & _). apply repeat_length.
Qed.

(** Hypothesis [n] reads the encoder output of batch item [n / beam_size]. *)
Lemma encoder_output_nth n d :
  n < rows ->
  nth n (encoder_output config enc) d = nth (n / beam_size config) (enc_rows enc) d.
Proof.
  intros Hn. unfold rows, batch_size in Hn.
  assert (Hb : n / beam_size config < length (enc_rows enc))
    by (apply Nat.Div0.div_lt_upper_bound; lia).
  assert (Hj : n mod beam_size config < beam_size config)
    by (apply Nat.mod_upper_bound; lia).
  rewrite (Nat.div_mod_eq n (beam_size config)) at 1.
  rewrite (Nat.mul_comm (beam_size config)).
  unfold encoder_output. rewrite (nth_concat_uniform (w := beam_size config)).
  - rewrite (nth_indep _ [] (repeat d (beam_size config))) by (rewrite length_map; lia).
    rewrite (map_nth (fun e => repeat e (beam_size config))).
    now apply nth_repeat_lt.
  - apply Forall_forall. intros x Hx. apply in_map_iff in Hx.
    destruct Hx as (y & <- & _). apply repeat_length.
  - now rewrite length_map.
  - assumption.
Qed.

Lemma prefix_caches_length preds :
  length preds = rows -> length (prefix_caches config enc cache_of preds) = rows.
Proof.
  intros H. unfold prefix_caches. rewrite map2_length, encoder_output_length. lia.
Qed.

(** The two decoders give [step] the same candidates. *)
Lemma same_candidates v1 v2 :
  same_but_cache v1 v2 -> well_shaped config false enc v2 ->
  Forall (fun p => p <> []) (lv_preds v2) ->
  lv_cache v1 = prefix_caches config enc cache_of (lv_preds v1) ->
  candidates_of self pow config true enc v1 = candidates_of self pow config false enc v2
  /\ snd (decode self config true enc (lv_preds v1) (lv_cache v1))
     = map2 cache_of (encoder_output config enc) (lv_preds v2).
Proof.
  intros (Hi & Hb & Hp & Hs & Hl) (_ & Hlen & _) Hne Hc.
  destruct Hcache as [_ Hdec].
  specialize (Hdec (lv_preds v2) Hlen Hne). simpl in Hdec. destruct Hdec as [Hout Hnew].
  unfold candidates_of, next_preds_of, next_scores_of, decode.
  rewrite Hc, Hp, Hb, Hs, Hl, Hout. simpl. split; [reflexivity | exact Hnew].
Qed.

Lemma same_but_cache_step v1 v2 :
  same_but_cache v1 v2 -> well_shaped config false enc v2 ->
  Forall (fun p => p <> []) (lv_preds v2) ->
  lv_cache v1 = prefix_caches config enc cache_of (lv_preds v1) ->
  same_but_cache (step self pow config true enc v1) (step self pow config false enc v2) /\
  lv_cache (step self pow config true enc v1)
  = prefix_caches config enc cache_of (lv_preds (step self pow config true enc v1)).
Proof.
  intros Hsame Hv Hne Hc.
  destruct (same_candidates v1 v2 Hsame Hv Hne Hc) as [Hcand Hnew].
  assert (Hk : k_indices_of self pow config true enc v1
               = k_indices_of self pow config false enc v2)
    by (unfold k_indices_of; now rewrite Hcand).
  destruct Hsame as (Hi & Hb & Hp & Hs & Hl).
  assert (Hstep : same_but_cache (step self pow config true enc v1)
                                 (step self pow config false enc v2)).
  { rewrite !step_unfold, Hcand, Hk, Hi, Hp.
    unfold same_but_cache; simpl. repeat split; reflexivity. }
  split; [exact Hstep|].
  destruct Hstep as (_ & _ & Hp' & _). rewrite Hp'.
  rewrite (step_unfold _ _ _ self pow config true enc v1). cbn [lv_cache].
  rewrite Hnew, Hk. clear Hp'.
  pose proof (k_indices_of_length _ _ _ self pow config false enc v2 Hnet Hv) as Hklen.
  pose proof (step_well_shaped _ _ _ self pow config false enc v2 Hnet Hv) as (_ & Hlen' & _).
  assert (Hv' := Hv). destruct Hv as (Hv1 & Hlen & Hv3 & Hv4 & _).
  apply (nth_ext _ _ (cache_zeros self) (cache_zeros self)).
  - rewrite gather_length, length_map, prefix_caches_length; auto.
  - intros n Hn. rewrite gather_length, length_map, Hklen in Hn. fold rows in Hn.
    destruct (enc_rows enc) as [|e0 erows] eqn:Henc.
    { unfold rows, batch_size in Hn. rewrite Henc in Hn. simpl in Hn. lia. }
    rewrite nth_gather by (rewrite length_map; lia).
    rewrite (nth_indep (map _ _) 0 ((fun k => k / beam_size config) 0))
      by (rewrite length_map; lia).
    rewrite (map_nth (fun k => k / beam_size config) _ 0).
    fold (parent_of self pow config false enc v2 n).
    pose proof (parent_of_bound _ _ _ self pow config false enc v2 Hnet Hv' n Hn) as Hpar.
    pose proof (parent_of_same_item _ _ _ self pow config false enc v2 Hnet Hv' n Hn) as Hitem.
    fold rows in Hpar.
    rewrite (nth_map2 _ _ _ e0 [])
      by (rewrite ?encoder_output_length; unfold rows; lia).
    unfold prefix_caches.
    rewrite (nth_map2 _ _ _ e0 [])
      by (rewrite ?encoder_output_length; unfold rows; lia).
    rewrite (step_preds_nth _ _ _ self pow config false enc v2 Hnet Hv' n Hn).
    rewrite removelast_last.
    rewrite !encoder_output_nth by assumption.
    now rewrite Hitem.
Qed.

Lemma same_but_cache_init :
  same_but_cache (init_vars self config true enc) (init_vars self config false enc) /\
  lv_cache (init_vars self config true enc)
  = prefix_caches config enc cache_of (lv_preds (init_vars self config true enc)).
Proof.
  split; [repeat split|]. simpl.
  apply (nth_ext _ _ (cache_zeros self) (cache_zeros self)).
  - rewrite prefix_caches_length; rewrite repeat_length; reflexivity.
  - intros n Hn. rewrite repeat_length in Hn. fold rows in Hn.
    destruct (enc_rows enc) as [|e0 erows] eqn:Henc.
    { unfold rows, batch_size in Hn. rewrite Henc in Hn. simpl in Hn. lia. }
    rewrite nth_repeat_lt by assumption.
    unfold prefix_caches.
    rewrite (nth_map2 _ _ _ e0 [])
      by (rewrite ?encoder_output_length, ?repeat_length; unfold rows; lia).
    rewrite nth_repeat_lt by assumption. simpl.
    symmetry. apply Hcache.
Qed.

Lemma same_but_cache_run_loop fuel v1 v2 :
  same_but_cache v1 v2 -> reachable self pow config false enc v2 ->
  lv_cache v1 = prefix_caches config enc cache_of (lv_preds v1) ->
  same_but_cache (run_loop self pow config true enc fuel v1)
                 (run_loop self pow config false enc fuel v2).
Proof.
  revert v1 v2; induction fuel as [|fuel IH]; intros v1 v2 Hsame Hr Hc; simpl; auto.
  assert (Hnf : not_finished config enc v1 = not_finished config enc v2).
  { destruct Hsame as (Hi & Hb & _). unfold not_finished. now rewrite Hi, Hb. }
  rewrite Hnf. destruct (not_finished config enc v2) eqn:Hcont; auto.
  pose proof (reachable_well_shaped _ _ _ self pow config false enc v2 Hbs Hnet Hr) as Hv.
  assert (Hne : Forall (fun p => p <> []) (lv_preds v2)).
  { apply (Forall_nth_iff _ _ []). intros n Hn.
    destruct Hv as (_ & Hlen & _). rewrite Hlen in Hn.
    destruct (reachable_hypothesis_ok _ _ _ self pow config false enc v2 n Hbs Hnet Hr Hn)
      as (_ & Hl & _).
    intros Hnil. rewrite Hnil in Hl. discriminate. }
  destruct (same_but_cache_step v1 v2 Hsame Hv Hne Hc) as [Hs' Hc'].
  apply IH; auto. now apply reachable_step.
Qed.

(** C1: when the scoring function is a function of the whole prefix,
    decoding with the cache and decoding without it go through the same
    counters, flags, token sequences, cumulative scores and lengths, and
    [beam_search] returns the same predictions. *)
Theorem C1_cache_changes_no_output :
  same_but_cache (final_vars self pow config true enc) (final_vars self pow config false enc) /\
  lv_preds (final_vars self pow config true enc) = lv_preds (final_vars self pow config false enc) /\
  lv_scores (final_vars self pow config true enc) = lv_scores (final_vars self pow config false enc) /\
  beam_search self pow config true enc = beam_search self pow config false enc.
Proof.
  assert (H : same_but_cache (final_vars self pow config true enc)
                             (final_vars self pow config false enc)).
  { unfold final_vars. destruct same_but_cache_init as [Hi Hc].
    apply same_but_cache_run_loop; auto. constructor. }
  split; [exact H|].
  destruct H as (_ & _ & Hp & Hs & _).
  repeat split; auto.
  unfold beam_search. now rewrite Hp, Hs.
Qed.

End CacheEquivalence.

(** ** [build_test_model] with [beam_search] *)

Section BuildTestModelFacts.
Variables E D K : Type.
Variable self : model E D K.
Variable pow : F32.t -> F32.t -> F32.t.
Variable config : test_config.
Variable use_cache : bool.
Variable encoder : list (list Z) -> encoder_tensor E.
Variable test_loss : D -> list (list Z) -> F32.t.
Variable shift_right : list (list Z) -> list (list Z).

(** C8, as the code has it: the guard is on the number of rows of [X],
    the batch items of the device, not on the length of a source sequence.  A
    device without batch items is bypassed: whatever the networks are, its
    prediction has no rows and its loss is 0.  A device with at least one item
    runs [true_fn], and [beam_search] with it, whatever the length of the
    source sequences. *)
Theorem C8_device_without_items_is_bypassed X Y :
  (length X = 0 ->
   device_output self (beam_search self pow config use_cache) encoder test_loss shift_right X Y = ([], F32.zero) /\
   forall n, pad_to_max_length (fst (device_output self (beam_search self pow config use_cache) encoder test_loss shift_right X Y)) n = []) /\
  (0 < length X ->
   device_output self (beam_search self pow config use_cache) encoder test_loss shift_right X Y
   = (beam_search self pow config use_cache (encoder X),
      test_loss (decoder self (shift_right Y) (enc_rows (encoder X))) Y)).
Proof.
  unfold device_output. split; intros H.
  - rewrite H. split; reflexivity.
  - destruct (Nat.ltb_spec 0 (length X)); [reflexivity | lia].
Qed.


End BuildTestModelFacts.

(** ** The prediction of [build_test_model] *)

Lemma fold_max_ge (l : list nat) x : In x l -> x <= fold_right Nat.max 0 l.
Proof.
  induction l as [|y l IH]; simpl; intros H; [contradiction|].
  destruct H as [->|H]; [lia | specialize (IH H); lia].
Qed.

Lemma pad_to_max_length_shape (input : list (list Z)) n :
  Forall (fun row => length row = shape1 input) input -> shape1 input <= n ->
  length (pad_to_max_length input n) = length input /\
  Forall (fun row => length row = n) (pad_to_max_length input n).
Proof.
  intros Hrect Hle. unfold pad_to_max_length. split; [apply length_map|].
  apply Forall_map. eapply Forall_impl; [|exact Hrect].
  intros row Hrow. simpl in *. rewrite length_app, repeat_length, Hrow. lia.
Qed.

Section BuildTestModelShape.
Variables E D K : Type.
Variable self : model E D K.
Variable pow : F32.t -> F32.t -> F32.t.
Variable config : test_config.
Variable use_cache : bool.
Variable encoder : list (list Z) -> encoder_tensor E.
Variable test_loss : D -> list (list Z) -> F32.t.
Variable shift_right : list (list Z) -> list (list Z).

Local Abbreviation device X Y :=
  (device_output self (beam_search self pow config use_cache) encoder test_loss shift_right X Y).
Local Abbreviation whole feeds :=
  (build_test_model self (beam_search self pow config use_cache) encoder test_loss shift_right
                    feeds).

(** What the encoder and the networks promise: the encoder keeps the
    batch dimension, and [test_output] returns [beam_size] candidates. *)
Hypothesis Hbs : 1 <= beam_size config.
Hypothesis Henc : forall X, batch_size (encoder X) = length X.
Hypothesis Hnet : forall X, networks_well_shaped self config use_cache (encoder X).

Lemma device_output_rectangular X Y :
  length (fst (device X Y)) = length X /\
  Forall (fun row => length row = shape1 (fst (device X Y))) (fst (device X Y)).
Proof.
  unfold device_output. destruct (Nat.ltb_spec 0 (length X)) as [Hpos|Hzero].
  - simpl. set (p := beam_search self pow config use_cache (encoder X)).
    assert (Hlen : length p = length X)
      by (unfold p; now rewrite beam_search_length, Henc).
    split; [exact Hlen|].
    assert (Hrows : forall b, b < length p ->
               length (nth b p []) = Z.to_nat (lv_i (final_vars self pow config use_cache (encoder X)))).
    { intros b Hb. apply beam_search_row_shape; auto.
      rewrite Henc. lia. }
    apply (Forall_nth_iff _ _ []). intros b Hb.
    rewrite (Hrows b Hb).
    destruct p as [|r p']; simpl in *; [lia|].
    symmetry. apply (Hrows 0). lia.
  - simpl. split; [lia | constructor].
Qed.

(** X4: the prediction of [build_test_model] is rectangular: it has one row
    for every batch item of every device, all rows have the length of the
    longest device prediction, and every row is a row of a device's prediction
    followed by [EOS] tokens only. *)
Theorem X4_prediction_is_padded_to_one_width feeds :
  let prediction := fst (whole feeds) in
  let max_length :=
    fold_right Nat.max 0 (map (fun XY => shape1 (fst (device (fst XY) (snd XY)))) feeds) in
  length prediction = fold_right Nat.add 0 (map (fun XY => length (fst XY)) feeds) /\
  Forall (fun row => length row = max_length) prediction /\
  Forall (fun row => exists XY row' k,
            In XY feeds /\ In row' (fst (device (fst XY) (snd XY))) /\
            row = row' ++ repeat EOS k) prediction.
Proof.
  intros prediction max_length. unfold prediction, build_test_model. cbn [fst].
  rewrite !map_map. fold max_length.
  assert (Hmax : forall XY, In XY feeds ->
             shape1 (fst (device (fst XY) (snd XY))) <= max_length).
  { intros XY Hin. apply fold_max_ge.
    apply (in_map (fun XY => shape1 (fst (device (fst XY) (snd XY))))), Hin. }
  clearbody max_length.
  induction feeds as [|[X Y] feeds IH]; simpl.
  - repeat split; constructor.
  - destruct IH as (IH1 & IH2 & IH3); [intros; apply Hmax; now right|].
    destruct (device_output_rectangular X Y) as [Hlen Hrect].
    destruct (pad_to_max_length_shape _ max_length Hrect (Hmax (X, Y) (or_introl eq_refl)))
      as [Hplen Hprect].
    split; [|split].
    + rewrite length_app, IH1, Hplen, Hlen. reflexivity.
    + apply Forall_app. split; assumption.
    + apply Forall_app. split.
      * unfold pad_to_max_length. apply Forall_map, Forall_forall. intros row' Hrow'.
        exists (X, Y), row', (max_length - shape1 (fst (device X Y))).
        split; [now left|]. split; [exact Hrow' | reflexivity].
      * eapply Forall_impl; [|exact IH3].
        intros row (XY & row' & k & Hin & Hrow' & ->).
        exists XY, row', k. split; [now right|]. split; [exact Hrow' | reflexivity].
Qed.

End BuildTestModelShape.

(** X5: a device without batch items leaves the prediction as it is without
    that device. *)
Theorem X5_empty_device_adds_nothing
        (E D K : Type) (self : model E D K) (pow : F32.t -> F32.t -> F32.t)
        (config : test_config) (use_cache : bool)
        (encoder : list (list Z) -> encoder_tensor E)
        (test_loss : D -> list (list Z) -> F32.t)
        (shift_right : list (list Z) -> list (list Z))
        (before after : list (list (list Z) * list (list Z))) (X Y : list (list Z)) :
  length X = 0 ->
  fst (build_test_model self (beam_search self pow config use_cache) encoder test_loss
                        shift_right (before ++ (X, Y) :: after))
  = fst (build_test_model self (beam_search self pow config use_cache) encoder test_loss
                          shift_right (before ++ after)).
Proof.
  intros Hzero. unfold build_test_model. cbn [fst].
  rewrite !map_map, !map_app. simpl.
  assert (Hdev : fst (device_output self (beam_search self pow config use_cache) encoder
                        test_loss shift_right X Y) = [])
    by (unfold device_output; rewrite Hzero; reflexivity).
  rewrite Hdev. simpl.
  assert (Hfold : forall l1 l2, fold_right Nat.max 0 (l1 ++ 0 :: l2)
                                = fold_right Nat.max 0 (l1 ++ l2)).
  { intros l1 l2. induction l1 as [|x l1 IH]; simpl; [reflexivity | now rewrite IH]. }
  rewrite Hfold, !concat_app. reflexivity.
Qed.

(** ** The partition of an embedding *)

Lemma part_rows_length pre points : length (part_rows pre points) = length points.
Proof. revert pre; induction points as [|p points IH]; intros pre; simpl; auto. Qed.

Lemma last_cons_default (q : Z) points d d' : last (q :: points) d = last (q :: points) d'.
Proof. revert q; induction points as [|r points IH]; intros q; [reflexivity | apply IH]. Qed.

Lemma part_rows_sum pre points :
  fold_right Z.add 0%Z (part_rows pre points) = (last points pre - pre)%Z.
Proof.
  revert pre; induction points as [|p points IH]; intros pre; cbn [part_rows fold_right].
  - simpl. lia.
  - rewrite IH. destruct points as [|q points].
    + simpl. lia.
    + change (last (p :: q :: points) pre) with (last (q :: points) pre).
      rewrite (last_cons_default q points p pre). lia.
Qed.

Lemma part_rows_nth pre points i :
  i < length points ->
  nth i (part_rows pre points) 0%Z = (nth i points 0 - nth i (pre :: points) 0)%Z.
Proof.
  revert pre i; induction points as [|p points IH]; intros pre i Hi; simpl in *; [lia|].
  destruct i as [|i]; [reflexivity|]. rewrite IH by lia. reflexivity.
Qed.

Lemma inter_points_nth V i :
  i <= partitions ->
  nth i (inter_points V) 0%Z = (Z.of_nat i * V / Z.of_nat partitions)%Z.
Proof.
  intros Hi. unfold inter_points.
  rewrite (nth_indep _ 0%Z ((fun i => Z.of_nat i * V / Z.of_nat partitions)%Z 0))
    by (rewrite length_map, length_seq; lia).
  rewrite (map_nth (fun i => Z.of_nat i * V / Z.of_nat partitions)%Z).
  rewrite seq_nth by lia. reflexivity.
Qed.

(** Consecutive points of the partition are [V / 16] or one more apart. *)
Lemma inter_points_step (V i : Z) :
  (0 <= V -> 0 <= i ->
   V / 16 <= (i + 1) * V / 16 - i * V / 16 <= V / 16 + 1)%Z.
Proof.
  intros HV Hi.
  pose proof (Z.div_mod ((i + 1) * V) 16 ltac:(lia)) as H1.
  pose proof (Z.mod_pos_bound ((i + 1) * V) 16 ltac:(lia)) as H2.
  pose proof (Z.div_mod (i * V) 16 ltac:(lia)) as H3.
  pose proof (Z.mod_pos_bound (i * V) 16 ltac:(lia)) as H4.
  pose proof (Z.div_mod V 16 ltac:(lia)) as H5.
  pose proof (Z.mod_pos_bound V 16 ltac:(lia)) as H6.
  replace ((i + 1) * V)%Z with (i * V + V)%Z in * by ring.
  generalize dependent (i * V)%Z. intros m. intros. lia.
Qed.

(** X6: for a vocabulary of [V] words, [V] below [2 ^ 49], where the
    points of [np.linspace] are exact in double precision, the embedding is
    built from 16 parts whose numbers of rows add up to [V], so that
    [tf.concat] of the parts has one row per word, and every part has [V / 16]
    rows or one more. *)
Theorem X6_embedding_parts_cover_the_vocabulary (V : Z) :
  (0 <= V < 2 ^ 49)%Z ->
  length (get_weights V) = 16 /\
  fold_right Z.add 0%Z (get_weights V) = V /\
  Forall (fun rows => V / 16 <= rows <= V / 16 + 1)%Z (get_weights V).
Proof.
  intros [HV _]. unfold get_weights.
  assert (Hlen : length (tl (inter_points V)) = 16) by reflexivity.
  split; [now rewrite part_rows_length|]. split.
  - rewrite part_rows_sum.
    replace (last (tl (inter_points V)) 0%Z) with (nth 16 (inter_points V) 0%Z)
      by reflexivity.
    rewrite inter_points_nth by (unfold partitions; lia).
    unfold partitions. rewrite Z.mul_comm, Z.div_mul by lia. lia.
  - apply (Forall_nth_iff _ _ 0%Z). rewrite part_rows_length, Hlen. intros i Hi.
    rewrite part_rows_nth by lia.
    replace (nth i (tl (inter_points V)) 0%Z) with (nth (S i) (inter_points V) 0%Z)
      by reflexivity.
    replace (nth i (0%Z :: tl (inter_points V)) 0%Z) with (nth i (inter_points V) 0%Z).
    + rewrite !inter_points_nth by (unfold partitions; lia).
      unfold partitions. rewrite Nat2Z.inj_succ.
      change (Z.of_nat 16) with 16%Z.
      replace (Z.succ (Z.of_nat i)) with (Z.of_nat i + 1)%Z by lia.
      apply inter_points_step; lia.
    + destruct i as [|i]; [|reflexivity].
      rewrite inter_points_nth by (unfold partitions; lia). reflexivity.
Qed.

(** ** The variable getter *)

Lemma daisy_chain_run_app asks1 asks2 st :
  daisy_chain_run (asks1 ++ asks2) st
  = (fst (daisy_chain_run asks1 st)
       ++ fst (daisy_chain_run asks2 (snd (daisy_chain_run asks1 st))),
     snd (daisy_chain_run asks2 (snd (daisy_chain_run asks1 st)))).
Proof.
  revert st; induction asks1 as [|[d n] asks1 IH]; intros st; simpl.
  - now destruct (daisy_chain_run asks2 st).
  - destruct (daisy_chain_getter d n st) as [v st'].
    rewrite IH. destruct (daisy_chain_run asks1 st') as [vs st''].
    simpl. reflexivity.
Qed.

Lemma daisy_chain_run_length asks st : length (fst (daisy_chain_run asks st)) = length asks.
Proof.
  revert st; induction asks as [|[d n] asks IH]; intros st; simpl; [reflexivity|].
  destruct (daisy_chain_getter d n st) as [v st']. specialize (IH st').
  destruct (daisy_chain_run asks st'). simpl in *. now rewrite IH.
Qed.

(** A pair of a device and a name that is in [cache] stays there with its
    tensor, and is answered with it. *)
Lemma daisy_chain_getter_keeps d n v d' n' st :
  cache_get (DeviceVar d n) (gs_cache st) = Some v ->
  cache_get (DeviceVar d n) (gs_cache (snd (daisy_chain_getter d' n' st))) = Some v.
Proof.
  intros H. unfold daisy_chain_getter.
  destruct (cache_get (DeviceVar d' n') (gs_cache st)) eqn:Hhit; [exact H|].
  assert (Hne : (String.eqb d d' && String.eqb n n')%bool = false).
  { destruct (String.eqb_spec d d') as [->|]; [|reflexivity].
    destruct (String.eqb_spec n n') as [->|]; [congruence | reflexivity]. }
  destruct (cache_get (Name n') (gs_cache st)); simpl; rewrite Hne; exact H.
Qed.

Lemma daisy_chain_getter_hit d n v st :
  cache_get (DeviceVar d n) (gs_cache st) = Some v ->
  daisy_chain_getter d n st = (v, st).
Proof. intros H. unfold daisy_chain_getter. now rewrite H. Qed.

Lemma daisy_chain_getter_binds d n st :
  cache_get (DeviceVar d n) (gs_cache (snd (daisy_chain_getter d n st)))
  = Some (fst (daisy_chain_getter d n st)).
Proof.
  unfold daisy_chain_getter.
  destruct (cache_get (DeviceVar d n) (gs_cache st)) eqn:Hhit; [exact Hhit|].
  destruct (cache_get (Name n) (gs_cache st)); simpl; now rewrite !String.eqb_refl.
Qed.

Lemma daisy_chain_run_answers d n v asks st k :
  cache_get (DeviceVar d n) (gs_cache st) = Some v ->
  k < length asks -> nth k asks (d, n) = (d, n) ->
  nth k (fst (daisy_chain_run asks st)) v = v.
Proof.
  revert st k; induction asks as [|[d' n'] asks IH]; intros st k Hv Hk Hnth; simpl in *; [lia|].
  pose proof (daisy_chain_getter_keeps d n v d' n' st Hv) as Hkeep.
  destruct k as [|k].
  - injection Hnth as -> ->. rewrite (daisy_chain_getter_hit _ _ _ _ Hv).
    destruct (daisy_chain_run asks st). reflexivity.
  - destruct (daisy_chain_getter d' n' st) as [v' st']. simpl in Hkeep.
    specialize (IH st' k Hkeep ltac:(lia) Hnth).
    destruct (daisy_chain_run asks st'). exact IH.
Qed.

(** X7: a device gets one tensor for a variable, however often it asks and
    whatever the other devices ask in between: two asks of a run with the same
    device and the same name are answered with the same tensor. *)
Theorem X7_a_device_gets_one_tensor_per_variable asks st i j :
  i < length asks -> j < length asks ->
  nth i asks (""%string, ""%string) = nth j asks (""%string, ""%string) ->
  nth i (fst (daisy_chain_run asks st)) (Ref ""%string)
  = nth j (fst (daisy_chain_run asks st)) (Ref ""%string).
Proof.
  assert (Hle : forall asks st i j, i <= j -> j < length asks ->
            nth i asks (""%string, ""%string) = nth j asks (""%string, ""%string) ->
            nth i (fst (daisy_chain_run asks st)) (Ref ""%string)
            = nth j (fst (daisy_chain_run asks st)) (Ref ""%string)).
  { clear. intros asks. induction asks as [|[d n] asks IH]; intros st i j Hij Hj Heq;
      simpl in *; [lia|].
    pose proof (daisy_chain_getter_binds d n st) as Hb.
    destruct (daisy_chain_getter d n st) as [v st']. simpl in Hb.
    destruct i as [|i], j as [|j]; try lia.
    - destruct (daisy_chain_run asks st'); reflexivity.
    - pose proof (daisy_chain_run_answers d n v asks st' j Hb ltac:(lia)) as Ha.
      pose proof (daisy_chain_run_length asks st') as Hl.
      destruct (daisy_chain_run asks st') as [vs st'']. simpl in *.
      rewrite (nth_indep vs _ v) by lia. symmetry. apply Ha.
      rewrite (nth_indep asks _ (""%string, ""%string)) by lia. now symmetry.
    - specialize (IH st' i j ltac:(lia) ltac:(lia) Heq).
      destruct (daisy_chain_run asks st'). exact IH. }
  intros Hi Hj Heq. destruct (Nat.le_ge_cases i j) as [H|H].
  - now apply Hle.
  - symmetry. apply Hle; auto.
Qed.

Lemma asking_app n asks1 asks2 : asking n (asks1 ++ asks2) = asking n asks1 ++ asking n asks2.
Proof. unfold asking. now rewrite filter_app, map_app. Qed.

Lemma asking_In d n asks : In d (asking n asks) <-> In (d, n) asks.
Proof.
  unfold asking. rewrite in_map_iff. split.
  - intros ([d' n'] & Hd & Hin). apply filter_In in Hin. destruct Hin as [Hin Hn].
    simpl in *. apply String.eqb_eq in Hn. now subst.
  - intros Hin. exists (d, n). split; [reflexivity|].
    apply filter_In. split; [exact Hin | apply String.eqb_refl].
Qed.

Lemma asking_nonempty n asks : asking n asks <> [] <-> In n (map snd asks).
Proof.
  rewrite in_map_iff. split.
  - intros H. destruct (asking n asks) as [|d l] eqn:Hask; [congruence|].
    assert (Hin : In d (asking n asks)) by (rewrite Hask; now left).
    apply asking_In in Hin. now exists (d, n).
  - intros ([d n'] & Hn & Hin) Hnil. simpl in Hn. subst n'.
    apply asking_In in Hin. now rewrite Hnil in Hin.
Qed.

Lemma nodup_snoc_length (l : list String.string) x :
  length (nodup String.string_dec (l ++ [x]))
  = if in_dec String.string_dec x l
    then length (nodup String.string_dec l)
    else S (length (nodup String.string_dec l)).
Proof.
  induction l as [|a l IH]; simpl.
  - reflexivity.
  - destruct (String.string_dec a x) as [->|Hax].
    + destruct (in_dec String.string_dec x (l ++ [x])) as [_|Hn];
        [|exfalso; apply Hn, in_or_app; right; now left].
      rewrite IH.
      destruct (in_dec String.string_dec x l); reflexivity.
    + destruct (in_dec String.string_dec a (l ++ [x])) as [Hin|Hn],
               (in_dec String.string_dec a l) as [Hin'|Hn'].
      * rewrite IH. destruct (in_dec String.string_dec x l); reflexivity.
      * exfalso. apply in_app_or in Hin. destruct Hin as [|[|[]]]; auto.
      * exfalso. apply Hn, in_or_app. now left.
      * simpl. rewrite IH. destruct (in_dec String.string_dec x l); reflexivity.
Qed.

Lemma follows_asks_empty : follows_asks [] empty_getter_state.
Proof.
  repeat split; simpl; auto; try constructor; try tauto.
Qed.

(** One ask more: the state follows the asks, and a device that asks for
    a name for the first time gets the chain that is one identity longer than
    the number of devices that asked before it. *)
Lemma daisy_chain_getter_follows asks st d n :
  follows_asks asks st ->
  follows_asks (asks ++ [(d, n)]) (snd (daisy_chain_getter d n st)) /\
  (~ In d (asking n asks) ->
   fst (daisy_chain_getter d n st)
   = chain (S (length (nodup String.string_dec (asking n asks)))) n).
Proof.
  intros (I1 & I2 & I3 & I4).
  assert (Hask : forall m, asking m (asks ++ [(d, n)])
                           = asking m asks ++ (if String.eqb n m then [d] else [])).
  { intros m. rewrite asking_app. unfold asking at 2. simpl.
    destruct (String.eqb n m); reflexivity. }
  unfold daisy_chain_getter.
  destruct (cache_get (DeviceVar d n) (gs_cache st)) as [v|] eqn:Hhit.
  - (* the device has asked before *)
    assert (Hin : In d (asking n asks)).
    { destruct (in_dec String.string_dec d (asking n asks)) as [H|H]; [exact H|].
      apply I2 in H. congruence. }
    split; [|intros Hn; contradiction]. simpl.
    split; [|split; [|split]].
    + intros m. rewrite I1, Hask.
      destruct (String.eqb_spec n m) as [<-|Hnm]; [|now rewrite app_nil_r].
      rewrite nodup_snoc_length.
      destruct (in_dec String.string_dec d (asking n asks)); [|contradiction].
      destruct (asking n asks); [contradiction | reflexivity].
    + intros d' m. rewrite I2, Hask.
      destruct (String.eqb_spec n m) as [<-|Hnm]; [|now rewrite app_nil_r].
      rewrite in_app_iff. simpl. split; [|tauto].
      intros H [H'|[<-|[]]]; auto.
    + exact I3.
    + intros m. rewrite I4, Hask.
      destruct (String.eqb_spec n m) as [<-|Hnm]; [|now rewrite app_nil_r].
      split; intros _; [|intros H; now rewrite H in Hin].
      destruct (asking n asks); [contradiction | discriminate].
  - (* the first ask of the device for the name *)
    assert (Hnin : ~ In d (asking n asks)) by (now apply I2).
    assert (Hv : (match cache_get (Name n) (gs_cache st) with
                  | Some c => (Identity c, gs_getter_calls st)
                  | None => (Identity (Ref n), gs_getter_calls st ++ [n])
                  end)
                 = (chain (S (length (nodup String.string_dec (asking n asks)))) n,
                    match cache_get (Name n) (gs_cache st) with
                    | Some _ => gs_getter_calls st
                    | None => gs_getter_calls st ++ [n]
                    end)).
    { rewrite I1. destruct (asking n asks); reflexivity. }
    rewrite Hv. cbn [fst snd gs_cache gs_getter_calls].
    split; [|reflexivity].
    split; [|split; [|split]]; cbn [gs_cache gs_getter_calls].
    + intros m. cbn [cache_get cache_key_eqb]. rewrite Hask.
      rewrite (String.eqb_sym m n).
      destruct (String.eqb_spec n m) as [<-|Hnm].
      * rewrite nodup_snoc_length.
        destruct (in_dec String.string_dec d (asking n asks)); [contradiction|].
        destruct (asking n asks); reflexivity.
      * rewrite app_nil_r. apply I1.
    + intros d' m. cbn [cache_get cache_key_eqb]. rewrite Hask.
      rewrite (String.eqb_sym m n), (String.eqb_sym d' d).
      destruct (String.eqb_spec n m) as [<-|Hnm].
      * rewrite in_app_iff. simpl.
        destruct (String.eqb_spec d d') as [<-|Hdd']; simpl.
        -- split; [discriminate | intros H; exfalso; apply H; right; now left].
        -- rewrite I2. split; [|tauto]. intros H [H'|[H'|[]]]; auto.
      * rewrite Bool.andb_false_r, app_nil_r. apply I2.
    + rewrite I1. destruct (asking n asks) eqn:Hnil; [|exact I3].
      apply NoDup_app; [exact I3 | repeat constructor; intros [] |].
      intros x Hx [<-|[]]. apply I4 in Hx. congruence.
    + intros m. rewrite Hask. rewrite I1.
      destruct (String.eqb_spec n m) as [<-|Hnm].
      * split; [intros _ H; now apply app_eq_nil in H|]. intros _.
        destruct (asking n asks) eqn:Hnil; [apply in_or_app; right; now left|].
        apply I4. congruence.
      * rewrite app_nil_r, <- I4.
        destruct (asking n asks); [|reflexivity].
        rewrite in_app_iff. simpl. split; [intros [H|[H|[]]]; auto; congruence | tauto].
Qed.

Lemma daisy_chain_run_follows asks :
  follows_asks asks (snd (daisy_chain_run asks empty_getter_state)).
Proof.
  induction asks as [|[d n] asks IH] using rev_ind.
  - apply follows_asks_empty.
  - rewrite daisy_chain_run_app. cbn [snd].
    pose proof (proj1 (daisy_chain_getter_follows asks _ d n IH)) as H.
    simpl. destruct (daisy_chain_getter d n _). exact H.
Qed.

(** X8: starting from the empty [cache], the wrapped [getter] is called once
    for every name that is asked for, and for no other name: a variable is
    created once, whatever the number of devices. *)
Theorem X8_getter_is_called_once_per_name asks :
  let st := snd (daisy_chain_run asks empty_getter_state) in
  NoDup (gs_getter_calls st) /\
  forall n, In n (gs_getter_calls st) <-> In n (map snd asks).
Proof.
  intros st. destruct (daisy_chain_run_follows asks) as (_ & _ & I3 & I4).
  split; [exact I3|]. intros n. fold st in I4. rewrite I4. apply asking_nonempty.
Qed.

(** X9: the daisy chain: when a device asks for a variable for the first
    time, it gets the identity of the tensor that the device before it got;
    after [k] other devices the tensor is the variable under [k + 1]
    identities, each a copy from the device before. *)
Theorem X9_variables_are_copied_in_a_daisy_chain before device name :
  ~ In (device, name) before ->
  last (fst (daisy_chain_run (before ++ [(device, name)]) empty_getter_state)) (Ref name)
  = chain (S (length (nodup String.string_dec (asking name before)))) name.
Proof.
  intros Hnew. rewrite daisy_chain_run_app. cbn [fst].
  pose proof (daisy_chain_run_follows before) as Hf.
  destruct (daisy_chain_getter_follows before _ device name Hf) as [_ Hv].
  rewrite <- Hv by (now rewrite asking_In).
  simpl. destruct (daisy_chain_getter device name _) as [v st'].
  simpl. now rewrite last_last.
Qed.

(** ** The device setter *)

Lemma fold_min_le x xs : fold_right Nat.min x xs <= x /\ Forall (le (fold_right Nat.min x xs)) xs.
Proof.
  induction xs as [|y xs [IH1 IH2]]; simpl; [split; [lia | constructor]|].
  split; [lia|]. constructor; [lia|].
  eapply Forall_impl; [|exact IH2]. simpl. intros; lia.
Qed.

Lemma fold_min_in x xs : In (fold_right Nat.min x xs) (x :: xs).
Proof.
  induction xs as [|y xs IH]; simpl; [now left|].
  destruct (Nat.min_spec y (fold_right Nat.min x xs)) as [[_ ->]|[_ ->]].
  - right; now left.
  - destruct IH as [IH|IH]; [now left | right; now right].
Qed.

Lemma min_load_spec load m :
  min_load load = Some m ->
  (exists d, In (d, m) load) /\ forall d l, In (d, l) load -> m <= l.
Proof.
  unfold min_load. destruct load as [|[d0 l0] load]; simpl; [discriminate|].
  intros [= <-]. split.
  - pose proof (fold_min_in l0 (map snd load)) as Hin.
    change (l0 :: map snd load) with (map snd ((d0, l0) :: load)) in Hin.
    apply in_map_iff in Hin. destruct Hin as ([d l] & Hl & Hin). simpl in Hl. subst l.
    now exists d.
  - destruct (fold_min_le l0 (map snd load)) as [H1 H2].
    intros d l [[= <- <-]|Hin]; [exact H1|].
    rewrite Forall_forall in H2. apply H2.
    apply in_map_iff. now exists (d, l).
Qed.

Lemma add_load_keys chosen n load : map fst (add_load chosen n load) = map fst load.
Proof.
  unfold add_load. rewrite map_map. apply map_ext. intros [d l]. simpl.
  destruct (String.eqb d chosen); reflexivity.
Qed.

Lemma add_load_In chosen n load d l :
  In (d, l) (add_load chosen n load) <->
  exists l0, In (d, l0) load /\ l = if String.eqb d chosen then l0 + n else l0.
Proof.
  unfold add_load. rewrite in_map_iff. split.
  - intros ([d0 l0] & Heq & Hin). simpl in Heq.
    destruct (String.eqb d0 chosen) eqn:Hd; injection Heq as <- <-;
      exists l0; rewrite Hd; auto.
  - intros (l0 & Hin & ->). exists (d, l0). simpl. split; [|exact Hin].
    destruct (String.eqb d chosen); reflexivity.
Qed.

Lemma NoDup_keys_unique (load : list (String.string * nat)) d l l' :
  NoDup (map fst load) -> In (d, l) load -> In (d, l') load -> l = l'.
Proof.
  induction load as [|[d0 l0] load IH]; simpl; intros Hnd H1 H2; [contradiction|].
  inversion Hnd as [|? ? Hnin Hnd']; subst.
  destruct H1 as [H1|H1], H2 as [H2|H2].
  - congruence.
  - injection H1 as -> ->. exfalso. apply Hnin. apply in_map_iff. now exists (d, l').
  - injection H2 as -> ->. exfalso. apply Hnin. apply in_map_iff. now exists (d, l).
  - now apply IH.
Qed.

Lemma add_load_sum chosen n load l :
  NoDup (map fst load) -> In (chosen, l) load ->
  fold_right Nat.add 0 (map snd (add_load chosen n load))
  = fold_right Nat.add 0 (map snd load) + n.
Proof.
  induction load as [|[d0 l0] load IH]; simpl; intros Hnd Hin; [contradiction|].
  inversion Hnd as [|? ? Hnin Hnd']; subst.
  destruct (String.eqb_spec d0 chosen) as [->|Hne].
  - simpl.
    assert (Hsame : add_load chosen n load = load).
    { unfold add_load. rewrite <- (map_id load) at 2. apply map_ext_in.
      intros [d1 l1] Hin1. simpl.
      destruct (String.eqb_spec d1 chosen) as [->|]; [|reflexivity].
      exfalso. apply Hnin. apply in_map_iff. now exists (chosen, l1). }
    fold (add_load chosen n load). rewrite Hsame. lia.
  - simpl. fold (add_load chosen n load).
    destruct Hin as [[= -> ->]|Hin]; [congruence|].
    rewrite IH by assumption. lia.
Qed.

(** What a call for a variable does. *)
Lemma balanced_device_setter_variable device pick op load chosen load' :
  is_variable op = true ->
  balanced_device_setter device pick op load = Some (chosen, load') ->
  exists m n, min_load load = Some m /\ op_num_elements op = Some n /\
              In (chosen, m) load /\ load' = add_load chosen n load.
Proof.
  unfold balanced_device_setter. intros -> H.
  destruct (min_load load) as [m|] eqn:Hm; [|discriminate].
  destruct (op_num_elements op) as [n|]; [|discriminate].
  injection H as <- <-. exists m, n. repeat split; auto.
  destruct (min_load_spec load m Hm) as [[d Hd] _].
  set (ds := map fst (filter (fun dl => snd dl =? m) load)).
  assert (Hne : ds <> []).
  { intros Hnil.
    assert (Hin : In d ds).
    { apply in_map_iff. exists (d, m). split; [reflexivity|].
      apply filter_In. split; [exact Hd | apply Nat.eqb_refl]. }
    now rewrite Hnil in Hin. }
  assert (Hin : In (nth (pick mod length ds) ds device) ds).
  { apply nth_In. apply Nat.mod_upper_bound. destruct ds; simpl; congruence. }
  apply in_map_iff in Hin. destruct Hin as ([d' l'] & Hd' & Hin). simpl in Hd'.
  apply filter_In in Hin. destruct Hin as [Hin Hl]. simpl in Hl.
  apply Nat.eqb_eq in Hl. subst. exact Hin.
Qed.

(** X10: a variable goes to a device of [load] that has the least load: to no
    device with more elements than another, and never to a device outside
    [load]. *)
Theorem X10_variable_goes_to_a_least_loaded_device device pick op load chosen load' :
  is_variable op = true ->
  balanced_device_setter device pick op load = Some (chosen, load') ->
  exists l, In (chosen, l) load /\ forall d' l', In (d', l') load -> l <= l'.
Proof.
  intros Hvar H.
  destruct (balanced_device_setter_variable _ _ _ _ _ _ Hvar H) as (m & n & Hm & _ & Hin & _).
  exists m. split; [exact Hin|]. apply (min_load_spec load m Hm).
Qed.

(** X11: placing the operations of a graph keeps the devices of [load] and adds
    to the loads the elements of every variable once; the other operations stay
    on the device being built and add nothing. *)
Theorem X11_load_counts_every_variable_once ops load placed load' :
  NoDup (map fst load) ->
  place_all ops load = Some (placed, load') ->
  map fst load' = map fst load /\
  fold_right Nat.add 0 (map snd load')
  = fold_right Nat.add 0 (map snd load) + variable_elements ops /\
  Forall2 (fun dpo d => is_variable (snd dpo) = false -> d = fst (fst dpo)) ops placed.
Proof.
  revert load placed load'.
  induction ops as [|[[device pick] op] ops IH]; intros load placed load' Hnd H; simpl in H.
  - injection H as <- <-. unfold variable_elements. simpl.
    repeat split; auto.
  - destruct (balanced_device_setter device pick op load) as [[d load1]|] eqn:Hset;
      [|discriminate].
    destruct (place_all ops load1) as [[ds load2]|] eqn:Hrest; [|discriminate].
    injection H as <- <-.
    assert (Hstep : map fst load1 = map fst load /\
                    fold_right Nat.add 0 (map snd load1)
                    = fold_right Nat.add 0 (map snd load)
                      + (if is_variable op
                         then match op_num_elements op with Some n => n | None => 0 end
                         else 0) /\
                    (is_variable op = false -> d = device)).
    { destruct (is_variable op) eqn:Hvar.
      - destruct (balanced_device_setter_variable _ _ _ _ _ _ Hvar Hset)
          as (m & n & Hm & Hn & Hin & ->).
        rewrite Hn. split; [apply add_load_keys|]. split; [|discriminate].
        now apply (add_load_sum d n load m).
      - unfold balanced_device_setter in Hset. rewrite Hvar in Hset.
        injection Hset as <- <-. repeat split; auto. }
    destruct Hstep as (Hk1 & Hs1 & Hd1).
    destruct (IH load1 ds load2 ltac:(now rewrite Hk1) Hrest) as (Hk2 & Hs2 & Hp2).
    split; [congruence|]. split.
    + rewrite Hs2, Hs1. unfold variable_elements. simpl. lia.
    + constructor; [exact Hd1 | exact Hp2].
Qed.

(** X12: the loads stay balanced: when no variable has more than [M] elements
    and no two loads differ by more than [M], then after the operations of a
    graph have been placed no two loads differ by more than [M]. *)
Theorem X12_loads_differ_by_one_variable_at_most M ops load placed load' :
  NoDup (map fst load) ->
  (forall dpo n, In dpo ops -> is_variable (snd dpo) = true ->
                 op_num_elements (snd dpo) = Some n -> n <= M) ->
  (forall d1 l1 d2 l2, In (d1, l1) load -> In (d2, l2) load -> l1 <= l2 + M) ->
  place_all ops load = Some (placed, load') ->
  forall d1 l1 d2 l2, In (d1, l1) load' -> In (d2, l2) load' -> l1 <= l2 + M.
Proof.
  revert load placed load'.
  induction ops as [|[[device pick] op] ops IH]; intros load placed load' Hnd Hsize Hbal H;
    simpl in H.
  - injection H as <- <-. exact Hbal.
  - destruct (balanced_device_setter device pick op load) as [[d load1]|] eqn:Hset;
      [|discriminate].
    destruct (place_all ops load1) as [[ds load2]|] eqn:Hrest; [|discriminate].
    injection H as <- <-.
    apply (IH load1 ds load2); auto.
    + destruct (is_variable op) eqn:Hvar.
      * destruct (balanced_device_setter_variable _ _ _ _ _ _ Hvar Hset)
          as (m & n & _ & _ & _ & ->).
        now rewrite add_load_keys.
      * unfold balanced_device_setter in Hset. rewrite Hvar in Hset.
        now injection Hset as <- <-.
    + intros dpo n Hin. apply Hsize. now right.
    + destruct (is_variable op) eqn:Hvar.
      * destruct (balanced_device_setter_variable _ _ _ _ _ _ Hvar Hset)
          as (m & n & Hm & Hn & Hin & ->).
        assert (HnM : n <= M) by (apply (Hsize (device, pick, op) n); simpl; auto).
        destruct (min_load_spec load m Hm) as [_ Hmin].
        intros d1 l1 d2 l2 H1 H2.
        apply add_load_In in H1. destruct H1 as (a1 & Ha1 & ->).
        apply add_load_In in H2. destruct H2 as (a2 & Ha2 & ->).
        pose proof (Hbal _ _ _ _ Ha1 Ha2) as Hb.
        pose proof (Hbal _ _ _ _ Ha1 Hin) as Hb1.
        pose proof (Hmin _ _ Ha2) as Hm2.
        destruct (String.eqb_spec d1 d) as [->|], (String.eqb_spec d2 d) as [->|]; try lia.
        rewrite (NoDup_keys_unique load d a1 m Hnd Ha1 Hin). lia.
      * unfold balanced_device_setter in Hset. rewrite Hvar in Hset.
        injection Hset as <- <-. exact Hbal.
Qed.

(** ** The masked sums of [train_output] and [test_loss] *)

Lemma map2_map2_ext {A B C A'} (f : A -> B -> C) (g : A' -> B -> C) (h : A -> B -> A')
      (xs : list (list A)) (ys : list (list B)) :
  (forall x y, f x y = g (h x y) y) ->
  map2 (map2 f) xs ys = map2 (map2 g) (map2 (map2 h) xs ys) ys.
Proof.
  intros Hfg. revert ys; induction xs as [|x xs IH]; intros [|y ys]; simpl; auto.
  f_equal; [|apply IH].
  clear IH. revert y; induction x as [|a x IH]; intros [|b y]; simpl; auto.
  now rewrite Hfg, IH.
Qed.

(** The summands of the accuracy, from the predictions and the targets. *)
Lemma accuracy_summands preds Y :
  map2 (map2 F32.mul) (map2 (map2 (fun p y => F32.of_bool (Z.eqb p y))) preds Y) (pad_mask Y)
  = map2 (map2 (fun p y => F32.mul (F32.of_bool (Z.eqb p y)) (F32.of_bool (negb (Z.eqb y 0)))))
         preds Y.
Proof.
  unfold pad_mask.
  revert Y; induction preds as [|p preds IH]; intros [|y Y]; simpl; auto.
  f_equal; [|apply IH].
  clear IH. revert y; induction p as [|a p IH]; intros [|b y]; simpl; auto.
  now rewrite IH.
Qed.

(** X13: the accuracy does not depend on what is predicted where the target is
    [PAD]: predictions that agree at all other positions have the same
    accuracy. *)
Theorem X13_accuracy_ignores_padded_positions preds preds' Y :
  off_padding preds Y = off_padding preds' Y ->
  accuracy preds Y = accuracy preds' Y.
Proof.
  intros H. unfold accuracy. cbv zeta. rewrite !accuracy_summands.
  rewrite (map2_map2_ext
             (fun p y => F32.mul (F32.of_bool (Z.eqb p y)) (F32.of_bool (negb (Z.eqb y 0))))
             (fun p y => F32.mul (F32.of_bool (Z.eqb p y)) (F32.of_bool (negb (Z.eqb y 0))))
             (fun p y => if Z.eqb y 0 then 0%Z else p) preds).
  2:{ intros p y. destruct (Z.eqb_spec y 0) as [->|]; [|reflexivity].
      simpl. destruct (Z.eqb p 0); reflexivity. }
  rewrite (map2_map2_ext
             (fun p y => F32.mul (F32.of_bool (Z.eqb p y)) (F32.of_bool (negb (Z.eqb y 0))))
             (fun p y => F32.mul (F32.of_bool (Z.eqb p y)) (F32.of_bool (negb (Z.eqb y 0))))
             (fun p y => if Z.eqb y 0 then 0%Z else p) preds').
  2:{ intros p y. destruct (Z.eqb_spec y 0) as [->|]; [|reflexivity].
      simpl. destruct (Z.eqb p 0); reflexivity. }
  fold (off_padding preds Y). fold (off_padding preds' Y). now rewrite H.
Qed.

Lemma F32_add_zero_or_nan x y :
  zero_or_nan x = true -> zero_or_nan y = true -> zero_or_nan (F32.add x y) = true.
Proof.
  destruct x as [[|]|s| |s m e], y as [[|]|s'| |s' m' e']; simpl; intros;
    try discriminate; reflexivity.
Qed.

Lemma F32_mul_zero_zero_or_nan x : zero_or_nan (F32.mul x F32.zero) = true.
Proof. destruct x as [s|s| |s m e]; reflexivity. Qed.

Lemma F32_div_zero_or_nan x : zero_or_nan x = true -> F32.div x F32.zero = F32.nan.
Proof. destruct x as [s|s| |s m e]; simpl; auto; discriminate. Qed.

Lemma fold_add_zero_or_nan l a :
  Forall (fun x => zero_or_nan x = true) l -> zero_or_nan a = true ->
  zero_or_nan (fold_left F32.add l a) = true.
Proof.
  revert a; induction l as [|x l IH]; intros a Hl Ha; simpl; [exact Ha|].
  inversion Hl; subst. apply IH; auto. now apply F32_add_zero_or_nan.
Qed.

Lemma fold_add_zeros l :
  Forall (fun x => x = F32.zero) l -> fold_left F32.add l F32.zero = F32.zero.
Proof.
  induction l as [|x l IH]; intros Hl; simpl; [reflexivity|].
  inversion Hl; subst. now apply IH.
Qed.

Lemma Forall_concat {A} (P : A -> Prop) (ls : list (list A)) :
  Forall (Forall P) ls -> Forall P (concat ls).
Proof.
  induction 1 as [|l ls Hl _ IH]; simpl; [constructor | now apply Forall_app].
Qed.

Lemma pad_mask_all_padding Y :
  Forall (Forall (fun y => y = PAD)) Y ->
  Forall (Forall (fun x => x = F32.zero)) (pad_mask Y).
Proof.
  intros H. unfold pad_mask. apply Forall_map. eapply Forall_impl; [|exact H].
  intros row Hrow. apply Forall_map. eapply Forall_impl; [|exact Hrow].
  intros y ->. reflexivity.
Qed.

Lemma masked_all_padding (x : list (list F32.t)) mask :
  Forall (Forall (fun m => m = F32.zero)) mask ->
  Forall (Forall (fun s => zero_or_nan s = true)) (map2 (map2 F32.mul) x mask).
Proof.
  intros H. revert x; induction H as [|m mask Hm _ IH]; intros [|r x]; simpl;
    try constructor; [|apply IH].
  clear IH. revert r; induction Hm as [|a m Ha _ IH]; intros [|b r]; simpl;
    constructor; [|apply IH].
  subst a. apply F32_mul_zero_zero_or_nan.
Qed.

(** X14: when every target is [PAD] (and so when the batch of a device has no
    row) the mask adds up to 0 and both the accuracy and the loss of
    [train_output] are [0 / 0]: NaN, whatever the logits are. *)
Theorem X14_only_padding_gives_nan preds loss Y :
  Forall (Forall (fun y => y = PAD)) Y ->
  accuracy preds Y = F32.nan /\ train_loss loss Y = F32.nan.
Proof.
  intros HY. pose proof (pad_mask_all_padding Y HY) as Hmask.
  assert (Hden : reduce_sum (pad_mask Y) = F32.zero)
    by (apply fold_add_zeros, Forall_concat, Hmask).
  unfold accuracy, train_loss. cbv zeta. rewrite Hden.
  split; apply F32_div_zero_or_nan, fold_add_zero_or_nan; try reflexivity;
    apply Forall_concat, masked_all_padding, Hmask.
Qed.

Lemma fold_add_nan l : fold_left F32.add l F32.nan = F32.nan.
Proof. induction l as [|x l IH]; simpl; auto. Qed.

Lemma fold_add_In_nan l a : In F32.nan l -> fold_left F32.add l a = F32.nan.
Proof.
  revert a; induction l as [|x l IH]; intros a; simpl; [contradiction|].
  intros [->|Hin]; [|now apply IH].
  rewrite F32_add_nan_r. apply fold_add_nan.
Qed.

Lemma In_concat_nth {A} (ls : list (list A)) r c d :
  r < length ls -> c < length (nth r ls []) -> In (nth c (nth r ls []) d) (concat ls).
Proof.
  intros Hr Hc. apply in_concat. exists (nth r ls []). split; now apply nth_In.
Qed.

(** X15: the mask does not hide a loss that is not finite: when the cross
    entropy of one position is an infinity or NaN, [loss_sum] is NaN, also
    when the target of the position is [PAD]. *)
Theorem X15_padding_does_not_hide_a_loss_that_is_not_finite loss Y r c :
  r < length loss -> r < length Y ->
  c < length (nth r loss []) -> c < length (nth r Y []) ->
  nth c (nth r Y []) PAD = PAD ->
  F32.is_finite (nth c (nth r loss []) F32.zero) = false ->
  test_loss_sum loss Y = F32.nan.
Proof.
  intros Hr Hr' Hc Hc' Hpad Hinf. unfold test_loss_sum, reduce_sum.
  apply fold_add_In_nan.
  set (prod := map2 (map2 F32.mul) loss (pad_mask Y)).
  assert (Hlen : length (pad_mask Y) = length Y) by apply length_map.
  assert (Hrow : nth r (pad_mask Y) []
                 = map (fun y => F32.of_bool (negb (Z.eqb y 0))) (nth r Y [])).
  { unfold pad_mask. change [] with (map (fun y => F32.of_bool (negb (Z.eqb y 0))) []) at 1.
    apply map_nth. }
  assert (Hprow : nth r prod [] = map2 F32.mul (nth r loss []) (nth r (pad_mask Y) [])).
  { unfold prod. apply (nth_map2 (map2 F32.mul) loss (pad_mask Y) [] [] []); lia. }
  assert (Hcell : nth c (nth r prod []) F32.zero = F32.nan).
  { rewrite Hprow, Hrow.
    rewrite (nth_map2 F32.mul _ _ F32.zero F32.zero F32.zero) by (rewrite ?length_map; lia).
    rewrite (nth_indep (map (fun y => F32.of_bool (negb (Z.eqb y 0))) (nth r Y []))
                       F32.zero ((fun y => F32.of_bool (negb (Z.eqb y 0))) PAD))
      by (rewrite length_map; lia).
    rewrite (map_nth (fun y => F32.of_bool (negb (Z.eqb y 0)))), Hpad. simpl.
    now apply F32_mul_zero_r_not_finite. }
  rewrite <- Hcell. apply In_concat_nth.
  - unfold prod. rewrite map2_length. lia.
  - rewrite Hprow, Hrow, map2_length, length_map. lia.
Qed.

(** ** The vocabulary file *)











(** ** The cached decoders *)

Lemma last_slice_snoc {V} (x : list V) a : last_slice (x ++ [a]) = [a].
Proof.
  unfold last_slice. rewrite length_app. simpl.
  replace (length x + 1 - 1) with (length x + 0) by lia.
  rewrite skipn_app, Nat.add_0_r, skipn_all, Nat.sub_diag. reflexivity.
Qed.

Lemma last_slice_nil {V} : last_slice (@nil V) = [].
Proof. reflexivity. Qed.

Lemma last_slice_idempotent {V} (x : list V) : last_slice (last_slice x) = last_slice x.
Proof.
  destruct x as [|a x] using rev_ind; [reflexivity|].
  now rewrite last_slice_snoc.
Qed.

Lemma length_one_inv {V} (l : list V) : length l = 1 -> exists a, l = [a].
Proof. destruct l as [|a [|b l]]; simpl; intros H; try discriminate. now exists a. Qed.

Section TransformerCache.
Variables E V : Type.
Variable num_blocks : nat.
Variable embed : list Z -> list V.
Variable self_attention : nat -> list V -> list V.
Variable self_attention_last : nat -> list V -> list V.
Variable vanilla_attention : nat -> E -> V -> V.
Variable ff_hidden : nat -> V -> V.
Variable residual : nat -> nat -> V -> V -> V.
Variable output_layer : list (list V) -> list (list Z) * list (list F32.t).

Local Abbreviation block i e x :=
  (@decoder_block E V self_attention vanilla_attention ff_hidden residual i e x).
Local Abbreviation cached i e x :=
  (@cached_block E V self_attention_last vanilla_attention ff_hidden residual i e x).
Local Abbreviation outputs blocks e x :=
  (@block_outputs E V self_attention vanilla_attention ff_hidden residual blocks e x).
Local Abbreviation full p e :=
  (@transformer_decoder_impl E V num_blocks embed self_attention vanilla_attention ff_hidden
                             residual p e).
Local Abbreviation with_cache p c e :=
  (@transformer_decoder_with_caching_impl E V num_blocks embed self_attention_last
                                          vanilla_attention ff_hidden residual p c e).
Local Abbreviation cache_of e p :=
  (@transformer_cache_of E V num_blocks embed self_attention vanilla_attention ff_hidden
                         residual e p).
Local Abbreviation the_model :=
  (@Transformer E V num_blocks embed self_attention self_attention_last vanilla_attention
                ff_hidden residual output_layer).

(** What is assumed of the layers: the embedding of a position and the
    self-attention at a position depend on the tokens up to that position
    only (the timing signal is added per position; the lower-triangle bias
    hides the later positions), and the attention with [reserve_last] is the
    attention at the last position. *)
Hypothesis embed_length : forall p, length (embed p) = length p.
Hypothesis embed_causal : forall p t, removelast (embed (p ++ [t])) = embed p.
Hypothesis attention_length : forall i x, length (self_attention i x) = length x.
Hypothesis attention_causal :
  forall i x a, self_attention i (x ++ [a]) = self_attention i x ++ self_attention_last i (x ++ [a]).

Lemma vanilla_and_ff_app i e (x y : list V) :
  vanilla_and_ff vanilla_attention ff_hidden residual i e (x ++ y)
  = vanilla_and_ff vanilla_attention ff_hidden residual i e x
    ++ vanilla_and_ff vanilla_attention ff_hidden residual i e y.
Proof. unfold vanilla_and_ff. now rewrite !map_app. Qed.

Lemma decoder_block_length i e x : length (block i e x) = length x.
Proof.
  unfold decoder_block, vanilla_and_ff.
  rewrite !length_map, map2_length, attention_length. lia.
Qed.

Lemma decoder_block_causal i e x a :
  block i e (x ++ [a]) = block i e x ++ cached i e (x ++ [a]).
Proof.
  unfold decoder_block, cached_block.
  rewrite attention_causal, last_slice_snoc.
  rewrite map2_app by (now rewrite attention_length).
  apply vanilla_and_ff_app.
Qed.

Lemma cached_block_one i e x a : exists b, cached i e (x ++ [a]) = [b].
Proof.
  apply length_one_inv.
  pose proof (decoder_block_length i e (x ++ [a])) as H.
  rewrite decoder_block_causal, !length_app, decoder_block_length in H. simpl in H. lia.
Qed.

Lemma embed_snoc p t : exists a, embed (p ++ [t]) = embed p ++ [a].
Proof.
  assert (Hne : embed (p ++ [t]) <> []).
  { intros H. pose proof (embed_length (p ++ [t])) as Hl.
    rewrite H, length_app in Hl. simpl in Hl. lia. }
  destruct (exists_last Hne) as (l & a & Hl).
  exists a. rewrite <- (embed_causal p t), Hl, removelast_last. reflexivity.
Qed.

(** The loop over the blocks, from block [k] on: with the cache of the
    prefix without its last token, the cached decoder arrives at the outputs
    of the blocks for the whole prefix. *)
Lemma cached_blocks_follow e n k cache x a acc done :
  cache = done ++ outputs (seq k n) e x -> length done = k ->
  fold_left (fun '(decoder_output, new_cache) i =>
               let decoder_output := nth i cache [] ++ cached i e decoder_output in
               (decoder_output, new_cache ++ [decoder_output]))
            (seq k n) (x ++ [a], acc)
  = (fold_left (fun decoder_output i => block i e decoder_output) (seq k n) (x ++ [a]),
     acc ++ outputs (seq k n) e (x ++ [a])).
Proof.
  match goal with |- _ -> _ -> fold_left ?f _ _ = _ => set (F := f) end.
  revert k x a acc done. induction n as [|n IH]; intros k x a acc done Hcache Hdone.
  - simpl. now rewrite app_nil_r.
  - cbn [seq fold_left block_outputs] in *.
    assert (Hnth : nth k cache [] = block k e x).
    { rewrite Hcache, app_nth2 by lia. rewrite Hdone, Nat.sub_diag. reflexivity. }
    destruct (cached_block_one k e x a) as [b Hb].
    assert (Hnext : block k e (x ++ [a]) = block k e x ++ [b])
      by (now rewrite decoder_block_causal, Hb).
    assert (Hstep : F (x ++ [a], acc) k = (block k e x ++ [b], acc ++ [block k e x ++ [b]])).
    { unfold F. cbv beta iota zeta. now rewrite Hnth, Hb. }
    rewrite Hstep, Hnext.
    rewrite (IH (S k) (block k e x) b (acc ++ [block k e x ++ [b]]) (done ++ [block k e x])).
    + rewrite <- app_assoc. reflexivity.
    + rewrite Hcache, <- app_assoc. reflexivity.
    + rewrite length_app, Hdone. simpl. lia.
Qed.

Lemma transformer_cached_row e p t :
  with_cache (p ++ [t]) (cache_of e p) e = (full (p ++ [t]) e, cache_of e (p ++ [t])).
Proof.
  unfold transformer_decoder_with_caching_impl, transformer_decoder_impl,
    transformer_cache_of.
  destruct (embed_snoc p t) as [a ->].
  now apply (cached_blocks_follow e num_blocks 0 _ (embed p) a [] []).
Qed.

Lemma block_outputs_nil e blocks :
  outputs blocks e [] = repeat [] (length blocks).
Proof.
  induction blocks as [|i blocks IH]; simpl; [reflexivity|].
  assert (H : block i e [] = []).
  { apply length_zero_iff_nil. now rewrite decoder_block_length. }
  now rewrite H, IH.
Qed.

Lemma transformer_cache_of_nil e : cache_of e [] = repeat [] num_blocks.
Proof.
  unfold transformer_cache_of.
  assert (H : embed [] = []) by (apply length_zero_iff_nil; now rewrite embed_length).
  now rewrite H, block_outputs_nil, length_seq.
Qed.

(** X18: the cached decoder of [Transformer] on one hypothesis: from the cache
    that the blocks leave for the prefix without its last token, it returns
    what [decoder_impl] computes from the whole prefix, at all positions, and
    the cache of the whole prefix. *)
Theorem X18_transformer_cache_gives_the_decoder_output e p :
  p <> [] ->
  transformer_decoder_with_caching_impl
    num_blocks embed self_attention_last vanilla_attention ff_hidden residual
    p (cache_of e (removelast p)) e
  = (transformer_decoder_impl
       num_blocks embed self_attention vanilla_attention ff_hidden residual p e,
     transformer_cache_of
       num_blocks embed self_attention vanilla_attention ff_hidden residual e p).
Proof.
  intros Hne. destruct (exists_last Hne) as (p' & t & ->).
  rewrite removelast_last. apply transformer_cached_row.
Qed.

Lemma transformer_cache_follows_prefix config (enc : encoder_tensor E) :
  cache_follows_prefix the_model config enc (fun e p => cache_of e p).
Proof.
  split; [intros e; apply transformer_cache_of_nil|].
  intros preds Hlen Hne. cbv zeta.
  cbn [decoder_with_caching decoder test_output Transformer fst snd].
  assert (H : forall encs,
             map2 (fun pc e => with_cache (fst pc) (snd pc) e)
                  (combine preds (map2 (fun e p => cache_of e (removelast p)) encs preds)) encs
             = map2 (fun p e => (full p e, cache_of e p)) preds encs).
  { clear Hlen. induction Hne as [|p preds Hp _ IH]; intros [|e encs]; simpl; auto.
    destruct (exists_last Hp) as (p' & t & ->).
    rewrite removelast_last, transformer_cached_row, IH. reflexivity. }
  unfold prefix_caches. rewrite H.
  assert (H1 : forall (ps : list (list Z)) (es : list E),
             map fst (map2 (fun p e => (full p e, cache_of e p)) ps es)
             = map2 (fun p e => full p e) ps es).
  { induction ps as [|p ps IH]; intros [|e es]; simpl; auto. now rewrite IH. }
  assert (H2 : forall (ps : list (list Z)) (es : list E),
             map snd (map2 (fun p e => (full p e, cache_of e p)) ps es)
             = map2 (fun e p => cache_of e p) es ps).
  { induction ps as [|p ps IH]; intros [|e es]; simpl; auto. now rewrite IH. }
  rewrite H1, H2. split; reflexivity.
Qed.

(** X19: beam search over [Transformer] returns the same predictions and the
    same scores with and without the cache. *)
Theorem X19_transformer_decodes_the_same_with_cache pow config (enc : encoder_tensor E) :
  1 <= beam_size config ->
  networks_well_shaped the_model config false enc ->
  beam_search the_model pow config true enc = beam_search the_model pow config false enc /\
  lv_scores (final_vars the_model pow config true enc)
  = lv_scores (final_vars the_model pow config false enc).
Proof.
  intros Hbs Hnet.
  pose proof (transformer_cache_follows_prefix config enc) as Hcache.
  assert (H : same_but_cache (final_vars the_model pow config true enc)
                             (final_vars the_model pow config false enc)).
  { unfold final_vars.
    destruct (same_but_cache_init _ _ _ the_model config enc _ Hbs Hcache) as [Hi Hc].
    apply (same_but_cache_run_loop _ _ _ the_model pow config enc _ Hbs Hnet Hcache); auto.
    constructor. }
  destruct H as (_ & _ & Hp & Hs & _).
  split; [|exact Hs]. unfold beam_search. now rewrite Hp, Hs.
Qed.

End TransformerCache.

Section RNNSearchCache.
Variables E V : Type.
Variable embed : Z -> V.
Variable cell : E -> V -> V -> V * V.
Variable zeros : V.
Variable output_layer : list (list V) -> list (list Z) * list (list F32.t).

Local Abbreviation rnn e inputs state := (@dynamic_rnn E V cell e inputs state).
Local Abbreviation full p e := (@rnnsearch_decoder_impl E V embed cell zeros p e).
Local Abbreviation with_cache p c e :=
  (@rnnsearch_decoder_with_caching_impl E V embed cell zeros p c e).
Local Abbreviation cache_of e p := (@rnnsearch_cache_of E V embed cell zeros e p).
Local Abbreviation the_model := (@RNNSearch E V embed cell zeros output_layer).

(** What is assumed of [AttentionGRUCell]: as for a GRU cell, its output
    is its new state. *)
Hypothesis cell_output_is_state : forall e x s, snd (cell e x s) = fst (cell e x s).

Lemma last_cons_from {X} (o : X) l d : last (o :: l) d = last l o.
Proof.
  revert o d; induction l as [|y l IH]; intros o d; [reflexivity|].
  change (last (o :: y :: l) d) with (last (y :: l) d).
  now rewrite (IH y d), (IH y o).
Qed.

Lemma dynamic_rnn_snoc e inputs x state :
  rnn e (inputs ++ [x]) state
  = rnn e inputs state ++ [fst (cell e x (last (rnn e inputs state) state))].
Proof.
  revert state; induction inputs as [|y inputs IH]; intros state.
  - simpl. destruct (cell e x state); reflexivity.
  - pose proof (cell_output_is_state e y state) as Hs.
    cbn [dynamic_rnn app].
    destruct (cell e y state) as [o s']. cbn [fst snd] in Hs. subst s'.
    rewrite IH, (last_cons_from o (rnn e inputs o) state). reflexivity.
Qed.

Lemma rnnsearch_cached_row e p t :
  with_cache (p ++ [t]) (cache_of e p) e
  = (last_slice (full (p ++ [t]) e), cache_of e (p ++ [t])).
Proof.
  unfold rnnsearch_decoder_with_caching_impl, rnnsearch_cache_of, rnnsearch_decoder_impl.
  rewrite last_last, map_app. simpl. rewrite dynamic_rnn_snoc, last_slice_snoc. simpl.
  set (outs := rnn e (map embed p) zeros).
  assert (Hstate : last (last (if length (map (fun output => [output]) (last_slice outs)) =? 0
                               then [[zeros]]
                               else map (fun output => [output]) (last_slice outs)) [])
                        zeros
                   = last outs zeros).
  { destruct outs as [|o l] using rev_ind; [reflexivity|].
    rewrite last_slice_snoc, last_last. reflexivity. }
  rewrite Hstate. destruct (cell e (embed t) (last outs zeros)); reflexivity.
Qed.

(** X20: the cached decoder of [RNNSearch] on one hypothesis: from the cache
    that holds the last output for the prefix without its last token (no step
    at all for the empty prefix) it returns the output of [decoder_impl] at the
    last position of the whole prefix, and the cache of the whole prefix. *)
Theorem X20_rnnsearch_cache_gives_the_last_decoder_output e p :
  p <> [] ->
  rnnsearch_decoder_with_caching_impl embed cell zeros p (cache_of e (removelast p)) e
  = (last_slice (rnnsearch_decoder_impl embed cell zeros p e),
     rnnsearch_cache_of embed cell zeros e p).
Proof.
  intros Hne. destruct (exists_last Hne) as (p' & t & ->).
  rewrite removelast_last. apply rnnsearch_cached_row.
Qed.

Lemma rnnsearch_cache_follows_prefix config (enc : encoder_tensor E) :
  cache_follows_prefix the_model config enc (fun e p => cache_of e p).
Proof.
  split; [reflexivity|].
  intros preds Hlen Hne. cbv zeta.
  cbn [decoder_with_caching decoder test_output RNNSearch fst snd].
  assert (H : forall encs,
             map2 (fun pc e => with_cache (fst pc) (snd pc) e)
                  (combine preds (map2 (fun e p => cache_of e (removelast p)) encs preds)) encs
             = map2 (fun p e => (last_slice (full p e), cache_of e p)) preds encs).
  { clear Hlen. induction Hne as [|p preds Hp _ IH]; intros [|e encs]; simpl; auto.
    destruct (exists_last Hp) as (p' & t & ->).
    rewrite removelast_last, rnnsearch_cached_row, IH. reflexivity. }
  unfold prefix_caches. rewrite H.
  assert (H1 : forall (ps : list (list Z)) (es : list E),
             map last_slice
                 (map fst (map2 (fun p e => (last_slice (full p e), cache_of e p)) ps es))
             = map last_slice (map2 (fun p e => full p e) ps es)).
  { induction ps as [|p ps IH]; intros [|e es]; simpl; auto.
    now rewrite IH, last_slice_idempotent. }
  assert (H2 : forall (ps : list (list Z)) (es : list E),
             map snd (map2 (fun p e => (last_slice (full p e), cache_of e p)) ps es)
             = map2 (fun e p => cache_of e p) es ps).
  { induction ps as [|p ps IH]; intros [|e es]; simpl; auto. now rewrite IH. }
  rewrite H1, H2. split; reflexivity.
Qed.

(** X21: beam search over [RNNSearch] returns the same predictions and the
    same scores with and without the cache. *)
Theorem X21_rnnsearch_decodes_the_same_with_cache pow config (enc : encoder_tensor E) :
  1 <= beam_size config ->
  networks_well_shaped the_model config false enc ->
  beam_search the_model pow config true enc = beam_search the_model pow config false enc /\
  lv_scores (final_vars the_model pow config true enc)
  = lv_scores (final_vars the_model pow config false enc).
Proof.
  intros Hbs Hnet.
  pose proof (rnnsearch_cache_follows_prefix config enc) as Hcache.
  assert (H : same_but_cache (final_vars the_model pow config true enc)
                             (final_vars the_model pow config false enc)).
  { unfold final_vars.
    destruct (same_but_cache_init _ _ _ the_model config enc _ Hbs Hcache) as [Hi Hc].
    apply (same_but_cache_run_loop _ _ _ the_model pow config enc _ Hbs Hnet Hcache); auto.
    constructor. }
  destruct H as (_ & _ & Hp & Hs & _).
  split; [|exact Hs]. unfold beam_search. now rewrite Hp, Hs.
Qed.

End RNNSearchCache.

(** ** The examples satisfy what the theorems assume *)

Lemma table_model_well_shaped (f : scorer) config use_cache (enc : encoder_tensor unit) :
  (forall p, length (fst (f p)) = beam_size config /\ length (snd (f p)) = beam_size config) ->
  networks_well_shaped (table_model f) config use_cache enc.
Proof.
  intros Hf preds cache Hp Hc.
  assert (Hlen : length (fst (decode (table_model f) config use_cache enc preds cache))
                 = batch_size enc * beam_size config).
  { unfold decode. destruct use_cache; simpl; auto.
    rewrite map2_length, Hc, Hp by reflexivity. lia. }
  simpl. unfold rows_of_width. rewrite !length_map, Hlen.
  repeat split; auto; apply Forall_map, Forall_forall; intros p _; apply Hf.
Qed.

Lemma table_model_cache_follows_prefix (f : scorer) config (enc : encoder_tensor unit) :
  cache_follows_prefix (table_model f) config enc (fun _ p => p).
Proof.
  split; [reflexivity|].
  intros preds Hlen Hne. simpl.
  assert (H : map2 (fun c p => c ++ [last p 0%Z])
                   (prefix_caches config enc (fun _ p => p) preds) preds
              = preds /\
              map2 (fun (_ : unit) (p : list Z) => p) (encoder_output config enc) preds
              = preds).
  { unfold prefix_caches.
    assert (Hl : length preds <= length (encoder_output config enc)).
    { unfold encoder_output. rewrite (concat_length_uniform (w := beam_size config)).
      - rewrite length_map. unfold batch_size in Hlen. lia.
      - apply Forall_forall. intros x Hx. apply in_map_iff in Hx.
        destruct Hx as (y & <- & _). apply repeat_length. }
    revert Hl Hne. generalize (encoder_output config enc). clear.
    induction preds as [|p preds IH]; intros [|e es] Hl Hne; simpl in *; auto; try lia.
    inversion Hne as [|? ? Hp Hne']; subst.
    destruct (IH es ltac:(lia) Hne') as [IH1 IH2].
    rewrite IH1, IH2. rewrite <- (app_removelast_last 0%Z Hp). auto. }
  destruct H as [H1 H2]. now rewrite H1, H2.
Qed.

Lemma a_a_eos_shape p :
  length (fst (a_a_eos p)) = beam_size config_beam_2 /\
  length (snd (a_a_eos p)) = beam_size config_beam_2.
Proof. unfold a_a_eos. destruct (length p <=? 2); split; reflexivity. Qed.

Lemma always_a_shape p :
  length (fst (always_a p)) = beam_size config_beam_1 /\
  length (snd (always_a p)) = beam_size config_beam_1.
Proof. split; reflexivity. Qed.

Lemma always_a_never_emits_EOS use_cache :
  never_emits_EOS (table_model always_a) config_beam_1 use_cache one_item.
Proof.
  intros preds cache. simpl. apply Forall_map, Forall_forall. intros p _.
  repeat constructor. discriminate.
Qed.

Lemma eos_then_unlikely_shape p :
  length (fst (eos_then_unlikely p)) = beam_size config_beam_2 /\
  length (snd (eos_then_unlikely p)) = beam_size config_beam_2.
Proof. unfold eos_then_unlikely. destruct (length p <=? 1); split; reflexivity. Qed.

Lemma nan_second_shape p :
  length (fst (nan_second p)) = beam_size config_beam_2 /\
  length (snd (nan_second p)) = beam_size config_beam_2.
Proof. split; reflexivity. Qed.


(** ** The padding of the source *)

Lemma masked_row_zero (vec : list F32.t) :
  Forall (fun x => F32.is_finite x = true) vec ->
  Forall (fun x => x = F32.zero) (map SFabs (map (fun x => F32.mul x F32.zero) vec)).
Proof.
  intros H. rewrite map_map. apply Forall_map. eapply Forall_impl; [|exact H].
  intros x Hx. destruct x as [s|s| |s m e]; simpl in *; try discriminate; reflexivity.
Qed.

Lemma masked_row_nan (vec : list F32.t) :
  Exists (fun x => F32.is_finite x = false) vec ->
  In F32.nan (map SFabs (map (fun x => F32.mul x F32.zero) vec)).
Proof.
  intros H. apply Exists_exists in H. destruct H as (x & Hin & Hx).
  rewrite map_map. apply in_map_iff. exists x. split; [|exact Hin].
  destruct x as [s|s| |s m e]; simpl in *; try discriminate; reflexivity.
Qed.

Lemma mask_padding_row (encoder_input : list Z) (encoder_output : list (list F32.t)) j :
  j < length encoder_input -> j < length encoder_output ->
  nth j encoder_input 1%Z = PAD ->
  nth j (transformer_mask_padding encoder_input encoder_output) []
  = map (fun x => F32.mul x F32.zero) (nth j encoder_output []) /\
  nth j (rnnsearch_mask_padding encoder_input encoder_output) []
  = map (fun x => F32.mul x F32.zero) (nth j encoder_output []).
Proof.
  intros Hi Ho Hpad. unfold transformer_mask_padding, rnnsearch_mask_padding. cbv zeta.
  rewrite (nth_map2 _ _ _ [] false []) by (rewrite ?length_map; lia).
  rewrite (nth_map2 _ _ _ [] false []) by (rewrite ?length_map; lia).
  rewrite (nth_indep (map (fun t => Z.eqb t 0) encoder_input) false
                     ((fun t => Z.eqb t 0) 1%Z)) by (rewrite length_map; lia).
  rewrite (nth_indep (map (fun t => negb (Z.eqb t 0)) encoder_input) false
                     ((fun t => negb (Z.eqb t 0)) 1%Z)) by (rewrite length_map; lia).
  rewrite (map_nth (fun t => Z.eqb t 0)), (map_nth (fun t => negb (Z.eqb t 0))), Hpad.
  split; reflexivity.
Qed.

Lemma encoder_padding_nth (encoder_output : list (list F32.t)) j d :
  j < length encoder_output ->
  nth j (encoder_padding encoder_output) d
  = SFeqb (fold_left F32.add (map SFabs (nth j encoder_output [])) F32.zero) F32.zero.
Proof.
  intros Hj. unfold encoder_padding.
  rewrite (nth_indep _ d ((fun vec => SFeqb (fold_left F32.add (map SFabs vec) F32.zero)
                                            F32.zero) []))
    by (now rewrite length_map).
  apply (map_nth (fun vec => SFeqb (fold_left F32.add (map SFabs vec) F32.zero) F32.zero)).
Qed.

Lemma mask_padding_length encoder_input (encoder_output : list (list F32.t)) :
  length (transformer_mask_padding encoder_input encoder_output)
  = Nat.min (length encoder_output) (length encoder_input) /\
  length (rnnsearch_mask_padding encoder_input encoder_output)
  = Nat.min (length encoder_output) (length encoder_input).
Proof.
  unfold transformer_mask_padding, rnnsearch_mask_padding.
  now rewrite !map2_length, !length_map.
Qed.

(** X22: what the encoders mask, the decoders find again: a source position
    that holds [PAD], and whose encoder output is finite before the mask, is
    taken for padding by the decoders of both models. *)
Theorem X22_decoders_find_the_padded_positions encoder_input encoder_output j :
  j < length encoder_input -> j < length encoder_output ->
  nth j encoder_input 1%Z = PAD ->
  Forall (fun x => F32.is_finite x = true) (nth j encoder_output []) ->
  nth j (encoder_padding (transformer_mask_padding encoder_input encoder_output)) false = true /\
  nth j (encoder_padding (rnnsearch_mask_padding encoder_input encoder_output)) false = true.
Proof.
  intros Hi Ho Hpad Hfin.
  destruct (mask_padding_row encoder_input encoder_output j Hi Ho Hpad) as [Ht Hr].
  destruct (mask_padding_length encoder_input encoder_output) as [Lt Lr].
  rewrite !encoder_padding_nth by lia. rewrite Ht, Hr.
  rewrite (fold_add_zeros _ (masked_row_zero _ Hfin)). split; reflexivity.
Qed.

(** X23: the mask does not remove what is not finite: a padded position whose
    encoder output holds an infinity or NaN stays NaN under the mask, and the
    decoders of both models do not take it for padding. *)
Theorem X23_padding_that_is_not_finite_is_missed encoder_input encoder_output j :
  j < length encoder_input -> j < length encoder_output ->
  nth j encoder_input 1%Z = PAD ->
  Exists (fun x => F32.is_finite x = false) (nth j encoder_output []) ->
  nth j (encoder_padding (transformer_mask_padding encoder_input encoder_output)) true = false /\
  nth j (encoder_padding (rnnsearch_mask_padding encoder_input encoder_output)) true = false.
Proof.
  intros Hi Ho Hpad Hinf.
  destruct (mask_padding_row encoder_input encoder_output j Hi Ho Hpad) as [Ht Hr].
  destruct (mask_padding_length encoder_input encoder_output) as [Lt Lr].
  rewrite !encoder_padding_nth by lia. rewrite Ht, Hr.
  rewrite (fold_add_In_nan _ _ (masked_row_nan _ Hinf)). split; reflexivity.
Qed.

Lemma unmasked_row_zero (vec : list F32.t) :
  Forall (fun x => exists s, x = S754_zero s) vec ->
  Forall (fun x => x = F32.zero) (map SFabs (map (fun x => F32.mul x F32.one) vec)).
Proof.
  intros H. rewrite map_map. apply Forall_map. eapply Forall_impl; [|exact H].
  intros x [s ->]. reflexivity.
Qed.

(** X24: the decoders tell padding by the encoder output alone: a source
    position that does not hold [PAD] but whose encoder output is zero in
    every component is taken for padding as well. *)
Theorem X24_a_zero_encoder_output_counts_as_padding
        encoder_input (encoder_output : list (list F32.t)) j :
  j < length encoder_input -> j < length encoder_output ->
  nth j encoder_input 0%Z <> PAD ->
  Forall (fun x => exists s, x = S754_zero s) (nth j encoder_output []) ->
  nth j (encoder_padding (transformer_mask_padding encoder_input encoder_output)) false = true /\
  nth j (encoder_padding (rnnsearch_mask_padding encoder_input encoder_output)) false = true.
Proof.
  intros Hi Ho Hpad Hzero.
  destruct (mask_padding_length encoder_input encoder_output) as [Lt Lr].
  rewrite !encoder_padding_nth by lia.
  unfold transformer_mask_padding, rnnsearch_mask_padding. cbv zeta.
  rewrite (nth_map2 _ _ _ [] false []) by (rewrite ?length_map; lia).
  rewrite (nth_map2 _ _ _ [] false []) by (rewrite ?length_map; lia).
  rewrite (nth_indep (map (fun t => Z.eqb t 0) encoder_input) false
                     ((fun t => Z.eqb t 0) 0%Z)) by (rewrite length_map; lia).
  rewrite (nth_indep (map (fun t => negb (Z.eqb t 0)) encoder_input) false
                     ((fun t => negb (Z.eqb t 0)) 0%Z)) by (rewrite length_map; lia).
  rewrite (map_nth (fun t => Z.eqb t 0)), (map_nth (fun t => negb (Z.eqb t 0))).
  assert (Hne : Z.eqb (nth j encoder_input 0%Z) 0 = false) by (now apply Z.eqb_neq).
  rewrite Hne. cbn [negb F32.of_bool]. rewrite F32_one_minus_zero.
  rewrite (fold_add_zeros _ (unmasked_row_zero _ Hzero)). split; reflexivity.
Qed.

(** ** The theorems at the examples *)

(** The example of the specification, decoded with and without the cache. *)
Lemma C1_witness :
  1 <= beam_size config_beam_2 /\
  networks_well_shaped (table_model a_a_eos) config_beam_2 false one_item /\
  cache_follows_prefix (table_model a_a_eos) config_beam_2 one_item (fun _ p => p) /\
  beam_search (table_model a_a_eos) pow_example config_beam_2 true one_item
  = beam_search (table_model a_a_eos) pow_example config_beam_2 false one_item.
Proof.
  assert (H1 : 1 <= beam_size config_beam_2) by (simpl; lia).
  pose proof (table_model_well_shaped a_a_eos config_beam_2 false one_item a_a_eos_shape) as H2.
  pose proof (table_model_cache_follows_prefix a_a_eos config_beam_2 one_item) as H3.
  split; [exact H1|]. split; [exact H2|]. split; [exact H3|].
  apply (C1_cache_changes_no_output _ _ _ (table_model a_a_eos) pow_example
           config_beam_2 one_item (fun _ p => p) H1 H2 H3).
Defined.

(** With a limit of 2 and a decoder that never proposes [EOS] the loop
    makes 3 steps: it does not stop after [min(source_length + 50,
    max_target_length)] of them. *)
Lemma C2_counterexample :
  never_emits_EOS (table_model always_a) config_beam_1 false one_item /\
  step_limit config_beam_1 one_item = 2%Z /\
  final_vars (table_model always_a) pow_example config_beam_1 false one_item
  = Nat.iter 3 (step (table_model always_a) pow_example config_beam_1 false one_item)
             (init_vars (table_model always_a) config_beam_1 false one_item) /\
  lv_i (final_vars (table_model always_a) pow_example config_beam_1 false one_item) = 3%Z /\
  ~ (lv_i (final_vars (table_model always_a) pow_example config_beam_1 false one_item)
     <= step_limit config_beam_1 one_item)%Z.
Proof.
  split; [apply always_a_never_emits_EOS|].
  split; [reflexivity|].
  split; [vm_compute; reflexivity|].
  split; [vm_compute; reflexivity|].
  vm_compute. intros H. apply H. reflexivity.
Qed.

Lemma C2_witness :
  1 <= beam_size config_beam_1 /\
  networks_well_shaped (table_model always_a) config_beam_1 false one_item /\
  never_emits_EOS (table_model always_a) config_beam_1 false one_item /\
  0 < batch_size one_item /\
  lv_i (final_vars (table_model always_a) pow_example config_beam_1 false one_item)
  = Z.max 0 (step_limit config_beam_1 one_item + 1).
Proof.
  assert (H1 : 1 <= beam_size config_beam_1) by (simpl; lia).
  pose proof (table_model_well_shaped always_a config_beam_1 false one_item always_a_shape) as H2.
  pose proof (always_a_never_emits_EOS false) as H3.
  assert (H4 : 0 < batch_size one_item) by (unfold batch_size; simpl; lia).
  split; [exact H1|]. split; [exact H2|]. split; [exact H3|]. split; [exact H4|].
  apply (C2_loop_makes_limit_plus_one_steps _ _ _ (table_model always_a) pow_example
           config_beam_1 false one_item H1 H2); assumption.
Defined.

Lemma C3_witness :
  1 <= beam_size config_beam_2 /\
  networks_well_shaped (table_model a_a_eos) config_beam_2 true one_item /\
  reachable (table_model a_a_eos) pow_example config_beam_2 true one_item
            (init_vars (table_model a_a_eos) config_beam_2 true one_item) /\
  length (k_indices_of (table_model a_a_eos) pow_example config_beam_2 true one_item
            (init_vars (table_model a_a_eos) config_beam_2 true one_item))
  = batch_size one_item * beam_size config_beam_2.
Proof.
  assert (H1 : 1 <= beam_size config_beam_2) by (simpl; lia).
  pose proof (table_model_well_shaped a_a_eos config_beam_2 true one_item a_a_eos_shape) as H2.
  pose proof (reachable_init (table_model a_a_eos) pow_example config_beam_2 true one_item) as H3.
  split; [exact H1|]. split; [exact H2|]. split; [exact H3|].
  apply (C3_pruning_is_per_batch_item _ _ _ (table_model a_a_eos) pow_example
           config_beam_2 true one_item _ H1 H2 H3).
Defined.

Lemma C10_witness :
  1 <= beam_size config_beam_2 /\
  networks_well_shaped (table_model a_a_eos) config_beam_2 false one_item /\
  length (beam_search (table_model a_a_eos) pow_example config_beam_2 false one_item)
  = batch_size one_item /\
  beam_search (table_model a_a_eos) pow_example config_beam_2 false one_item
  = [[4; 4; EOS; EOS]%Z].
Proof.
  assert (H1 : 1 <= beam_size config_beam_2) by (simpl; lia).
  pose proof (table_model_well_shaped a_a_eos config_beam_2 false one_item a_a_eos_shape) as H2.
  split; [exact H1|]. split; [exact H2|]. split.
  - apply (C10_output_is_rectangular _ _ _ (table_model a_a_eos) pow_example
             config_beam_2 false one_item H1 H2).
  - vm_compute. reflexivity.
Defined.

(** ** The gradients of all losses *)

Section TrainOpFacts.
Variable G : Type.
Variable add : G -> G -> G.

Lemma sum_gradient_gradient_in g v v' (summed : list (String.string * G)) :
  gradient_in v' (sum_gradient add g v summed)
  = if String.eqb v' v
    then match gradient_in v summed with
         | Some g' => Some (add g' g)
         | None => Some g
         end
    else gradient_in v' summed.
Proof.
  induction summed as [|[v0 g0] rest IH]; simpl.
  - destruct (String.eqb v' v); reflexivity.
  - destruct (String.eqb_spec v v0) as [->|Hne]; simpl.
    + destruct (String.eqb v' v0); reflexivity.
    + destruct (String.eqb_spec v' v0) as [->|Hne'].
      * destruct (String.eqb_spec v0 v); [congruence | reflexivity].
      * apply IH.
Qed.

Lemma sum_gradient_keys g v (summed : list (String.string * G)) k :
  In k (map fst (sum_gradient add g v summed)) <-> k = v \/ In k (map fst summed).
Proof.
  induction summed as [|[v0 g0] rest IH]; simpl.
  - intuition.
  - destruct (String.eqb_spec v v0) as [->|Hne]; simpl; [intuition|].
    rewrite IH. intuition.
Qed.

Lemma sum_gradient_NoDup g v (summed : list (String.string * G)) :
  NoDup (map fst summed) -> NoDup (map fst (sum_gradient add g v summed)).
Proof.
  induction summed as [|[v0 g0] rest IH]; simpl; intros Hnd.
  - repeat constructor. intros [].
  - inversion Hnd as [|? ? Hnin Hnd']; subst.
    destruct (String.eqb_spec v v0) as [->|Hne]; simpl.
    + now constructor.
    + constructor; [|now apply IH].
      rewrite sum_gradient_keys. intros [->|H]; [congruence | contradiction].
Qed.

Lemma gradient_in_In v g (summed : list (String.string * G)) :
  NoDup (map fst summed) -> (In (v, g) summed <-> gradient_in v summed = Some g).
Proof.
  induction summed as [|[v0 g0] rest IH]; simpl; intros Hnd.
  - split; [contradiction | discriminate].
  - inversion Hnd as [|? ? Hnin Hnd']; subst. specialize (IH Hnd').
    destruct (String.eqb_spec v v0) as [->|Hne].
    + split.
      * intros [[= <-]|Hin]; [reflexivity|].
        exfalso. apply Hnin. apply in_map_iff. now exists (v0, g).
      * intros [= <-]. now left.
    + rewrite <- IH. split; [intros [[= -> _]|H]; [congruence | exact H] | now right].
Qed.

(** The dictionary after the pairs [gvs], one after the other. *)
Lemma summed_after (gvs : list (G * String.string)) :
  let summed := fold_left (fun summed gv => sum_gradient add (fst gv) (snd gv) summed) gvs [] in
  NoDup (map fst summed) /\
  forall v, gradient_in v summed
            = match gradients_of v gvs with
              | [] => None
              | g0 :: gs => Some (fold_left add gs g0)
              end.
Proof.
  induction gvs as [|[g v] gvs IH] using rev_ind; [split; [constructor | reflexivity]|].
  cbv zeta in *. rewrite fold_left_app. cbn [fold_left fst snd].
  destruct IH as [Hnd Hget]. split; [now apply sum_gradient_NoDup|].
  intros v'. rewrite sum_gradient_gradient_in.
  unfold gradients_of. rewrite filter_app, map_app. cbn [filter snd].
  rewrite (String.eqb_sym v v').
  destruct (String.eqb_spec v' v) as [->|Hne].
  - rewrite Hget. unfold gradients_of. cbn [map fst].
    destruct (map fst (filter (fun gv => String.eqb (snd gv) v) gvs)) as [|g0 gs].
    + reflexivity.
    + cbn [app]. rewrite fold_left_app. reflexivity.
  - cbn [map]. rewrite app_nil_r. apply Hget.
Qed.

Lemma fold_left_concat {X Y} (f : X -> Y -> X) (ls : list (list Y)) (x : X) :
  fold_left (fun acc l => fold_left f l acc) ls x = fold_left f (concat ls) x.
Proof.
  revert x; induction ls as [|l ls IH]; intros x; simpl; [reflexivity|].
  now rewrite IH, fold_left_app.
Qed.

(** X25: [get_train_op] without a name hands every variable to the optimizer
    once, with the sum of the gradients that the losses have for it, added in
    the order of the losses. *)
Theorem X25_gradients_of_all_losses_are_added_per_variable
        (per_loss : list (list (G * String.string))) :
  NoDup (map snd (summed_grads_and_vars add per_loss)) /\
  forall g v,
    In (g, v) (summed_grads_and_vars add per_loss) <->
    exists g0 gs, gradients_of v (concat per_loss) = g0 :: gs /\ g = fold_left add gs g0.
Proof.
  unfold summed_grads_and_vars. cbv zeta.
  rewrite (fold_left_concat (fun summed gv => sum_gradient add (fst gv) (snd gv) summed)).
  destruct (summed_after (concat per_loss)) as [Hnd Hget].
  set (summed := fold_left _ (concat per_loss) []) in *.
  split.
  - rewrite map_map. exact Hnd.
  - intros g v. rewrite in_map_iff. split.
    + intros ([v' g'] & [= <- <-] & Hin).
      apply (gradient_in_In _ _ _ Hnd) in Hin. rewrite Hget in Hin.
      destruct (gradients_of v' (concat per_loss)) as [|g0 gs]; [discriminate|].
      injection Hin as <-. now exists g0, gs.
    + intros (g0 & gs & Hgs & ->). exists (v, fold_left add gs g0).
      split; [reflexivity|]. apply (gradient_in_In _ _ _ Hnd).
      now rewrite Hget, Hgs.
Qed.

End TrainOpFacts.

(** The state after the first step of [eos_then_unlikely]: hypothesis 0 is
    [[BOS; 4]] with score -1, hypothesis 1 is [[BOS; EOS]] with score -2 and
    is finished. *)
Local Abbreviation after_first_eos :=
  (step (table_model eos_then_unlikely) pow_example config_beam_2 false one_item
        (init_vars (table_model eos_then_unlikely) config_beam_2 false one_item)).

(** In the step after it both survivors continue the finished hypothesis 1:
    the second one with candidate 1, whose log-probability is the sentinel, so
    that its cumulative score is [-1e10] and no longer -2.  And where the
    decoder returns [-infinity] for the candidates of a finished hypothesis,
    the log-probability of its candidate 0 is NaN and not 0. *)
Lemma C4_counterexample :
  (nth 1 (lv_bias after_first_eos) false = true /\
   nth 1 (lv_scores after_first_eos) F32.zero = F32.of_Z (-2) /\
   parent_of (table_model eos_then_unlikely) pow_example config_beam_2 false one_item
             after_first_eos 1 = 1 /\
   nth 1 (lv_scores (step (table_model eos_then_unlikely) pow_example config_beam_2 false
                          one_item after_first_eos)) F32.zero = neg_inf /\
   neg_inf <> F32.of_Z (-2)) /\
  (let v := step (table_model eos_then_impossible) pow_example config_beam_2 false one_item
                 (init_vars (table_model eos_then_impossible) config_beam_2 false one_item) in
   nth 1 (lv_bias v) false = true /\
   candidate_log_prob (table_model eos_then_impossible) config_beam_2 false one_item v 1 0
   = F32.nan).
Proof.
  split.
  - repeat split; try (vm_compute; reflexivity). vm_compute. discriminate.
  - split; vm_compute; reflexivity.
Qed.

Lemma after_first_eos_well_shaped :
  well_shaped config_beam_2 false one_item after_first_eos.
Proof. repeat split; try reflexivity. discriminate. Qed.

Lemma C4_witness :
  networks_well_shaped (table_model eos_then_unlikely) config_beam_2 false one_item /\
  well_shaped config_beam_2 false one_item after_first_eos /\
  1 < batch_size one_item * beam_size config_beam_2 /\
  0 < beam_size config_beam_2 /\
  nth 1 (lv_bias after_first_eos) false = true /\
  candidate_token (table_model eos_then_unlikely) pow_example config_beam_2 false one_item
                  after_first_eos 1 0 = EOS.
Proof.
  pose proof (table_model_well_shaped eos_then_unlikely config_beam_2 false one_item
                eos_then_unlikely_shape) as H1.
  pose proof after_first_eos_well_shaped as H2.
  assert (H3 : 1 < batch_size one_item * beam_size config_beam_2) by (unfold batch_size; simpl; lia).
  assert (H4 : 0 < beam_size config_beam_2) by (simpl; lia).
  assert (H5 : nth 1 (lv_bias after_first_eos) false = true) by reflexivity.
  split; [exact H1|]. split; [exact H2|]. split; [exact H3|]. split; [exact H4|].
  split; [exact H5|].
  apply (C4_finished_hypothesis_is_overridden _ _ _ (table_model eos_then_unlikely) pow_example
           config_beam_2 false one_item after_first_eos 1 0 H1 H2 H3 H4 H5).
Defined.

Lemma C5_witness :
  1 <= beam_size config_beam_2 /\
  networks_well_shaped (table_model a_a_eos) config_beam_2 false one_item /\
  reachable (table_model a_a_eos) pow_example config_beam_2 false one_item
            (init_vars (table_model a_a_eos) config_beam_2 false one_item) /\
  0 < batch_size one_item * beam_size config_beam_2 /\
  0 < beam_size config_beam_2 /\
  lp_alpha config_beam_2 = F32.zero /\
  (forall x, pow_example x F32.zero = F32.one) /\
  candidate_lp_score (table_model a_a_eos) pow_example config_beam_2 false one_item
                     (init_vars (table_model a_a_eos) config_beam_2 false one_item) 0 0
  = candidate_score (table_model a_a_eos) pow_example config_beam_2 false one_item
                    (init_vars (table_model a_a_eos) config_beam_2 false one_item) 0 0.
Proof.
  assert (H1 : 1 <= beam_size config_beam_2) by (simpl; lia).
  pose proof (table_model_well_shaped a_a_eos config_beam_2 false one_item a_a_eos_shape) as H2.
  pose proof (reachable_init (table_model a_a_eos) pow_example config_beam_2 false one_item) as H3.
  assert (H4 : 0 < batch_size one_item * beam_size config_beam_2) by (unfold batch_size; simpl; lia).
  assert (H5 : 0 < beam_size config_beam_2) by (simpl; lia).
  split; [exact H1|]. split; [exact H2|]. split; [exact H3|]. split; [exact H4|].
  split; [exact H5|]. split; [reflexivity|]. split; [reflexivity|].
  apply (C5_length_and_ranking_score _ _ _ (table_model a_a_eos) pow_example
           config_beam_2 false one_item _ 0 0 H1 H2 H3 H4 H5); reflexivity.
Defined.

(** The first step of [nan_second]: the NaN of candidate 1 of hypothesis 0
    is not replaced by the sentinel; it is the candidate's cumulative score and
    stands in the row that [tf.nn.top_k] ranks. *)
Lemma C7_counterexample :
  let v := init_vars (table_model nan_second) config_beam_2 false one_item in
  raw_log_prob (table_model nan_second) config_beam_2 false one_item v 0 1 = F32.nan /\
  candidate_score (table_model nan_second) pow_example config_beam_2 false one_item v 0 1
  = F32.nan /\
  candidate_score (table_model nan_second) pow_example config_beam_2 false one_item v 0 1
  <> F32.add (nth 0 (lv_scores v) F32.zero) neg_inf /\
  c_lp_scores (candidates_of (table_model nan_second) pow_example config_beam_2 false one_item v)
  = [[F32.of_Z (-1); F32.nan; neg_inf; F32.nan]].
Proof.
  repeat split; try (vm_compute; reflexivity). vm_compute. discriminate.
Qed.

Lemma C7_witness :
  networks_well_shaped (table_model nan_second) config_beam_2 false one_item /\
  well_shaped config_beam_2 false one_item
              (init_vars (table_model nan_second) config_beam_2 false one_item) /\
  0 < batch_size one_item * beam_size config_beam_2 /\
  1 < beam_size config_beam_2 /\
  raw_log_prob (table_model nan_second) config_beam_2 false one_item
               (init_vars (table_model nan_second) config_beam_2 false one_item) 0 1 = F32.nan /\
  candidate_lp_score (table_model nan_second) pow_example config_beam_2 false one_item
                     (init_vars (table_model nan_second) config_beam_2 false one_item) 0 1
  = F32.nan.
Proof.
  pose proof (table_model_well_shaped nan_second config_beam_2 false one_item nan_second_shape) as H1.
  assert (H2 : well_shaped config_beam_2 false one_item
                 (init_vars (table_model nan_second) config_beam_2 false one_item))
    by (apply init_vars_well_shaped; simpl; lia).
  assert (H3 : 0 < batch_size one_item * beam_size config_beam_2) by (unfold batch_size; simpl; lia).
  assert (H4 : 1 < beam_size config_beam_2) by (simpl; lia).
  assert (H5 : raw_log_prob (table_model nan_second) config_beam_2 false one_item
                 (init_vars (table_model nan_second) config_beam_2 false one_item) 0 1 = F32.nan)
    by reflexivity.
  split; [exact H1|]. split; [exact H2|]. split; [exact H3|]. split; [exact H4|].
  split; [exact H5|].
  apply (C7_nan_reaches_the_ranking _ _ _ (table_model nan_second) pow_example
           config_beam_2 false one_item _ 0 1 H1 H2 H3 H4 H5).
Defined.


(** A device with one source sentence of length 0: it is not bypassed.
    [beam_search] runs its loop three times and the prediction for the
    sentence has three tokens, not none. *)
Lemma C8_counterexample :
  let X := [[]] : list (list Z) in
  Forall (fun x => length x = 0) X /\
  device_output (table_model always_a)
                (beam_search (table_model always_a) pow_example config_beam_1 false)
                unit_encoder count_loss shift_right_example X [[]]
  = ([[4; 4; 4]%Z], F32.one) /\
  lv_i (final_vars (table_model always_a) pow_example config_beam_1 false (unit_encoder X))
  = 3%Z.
Proof.
  split; [repeat constructor|]. split; vm_compute; reflexivity.
Qed.

Lemma C8_witness :
  length (@nil (list Z)) = 0 /\
  device_output (table_model always_a)
                (beam_search (table_model always_a) pow_example config_beam_1 false)
                unit_encoder count_loss shift_right_example [] []
  = ([], F32.zero).
Proof.
  split; [reflexivity|].
  exact (proj1 (proj1 (C8_device_without_items_is_bypassed _ _ _ (table_model always_a)
                         pow_example config_beam_1 false unit_encoder count_loss
                         shift_right_example [] []) eq_refl)).
Defined.

(** With [max_target_length = 0] nothing is rejected: the loop makes a
    step and [beam_search] returns a prediction of one token. *)
Lemma C9_counterexample :
  (max_target_length config_length_0 < 1)%Z /\
  lv_i (final_vars (table_model always_a) pow_example config_length_0 false one_item) = 1%Z /\
  beam_search (table_model always_a) pow_example config_length_0 false one_item = [[4%Z]].
Proof.
  split; [simpl; lia|]. split; vm_compute; reflexivity.
Qed.

Lemma always_a_shape_length_0 p :
  length (fst (always_a p)) = beam_size config_length_0 /\
  length (snd (always_a p)) = beam_size config_length_0.
Proof. split; reflexivity. Qed.

Lemma C9_witness :
  1 <= beam_size config_length_0 /\
  networks_well_shaped (table_model always_a) config_length_0 false one_item /\
  max_target_length config_length_0 = 0%Z /\
  0 < batch_size one_item /\
  lv_i (final_vars (table_model always_a) pow_example config_length_0 false one_item) = 1%Z.
Proof.
  assert (H1 : 1 <= beam_size config_length_0) by (simpl; lia).
  pose proof (table_model_well_shaped always_a config_length_0 false one_item
                always_a_shape_length_0) as H2.
  assert (H3 : 0 < batch_size one_item) by (unfold batch_size; simpl; lia).
  split; [exact H1|]. split; [exact H2|]. split; [reflexivity|]. split; [exact H3|].
  apply (C9_no_configuration_is_rejected _ _ _ (table_model always_a) pow_example
           config_length_0 false one_item H1 H2); [reflexivity | exact H3].
Defined.

(** ** The further theorems at the examples *)

Lemma X1_witness :
  beam_size config_beam_1 = 1 /\
  networks_well_shaped (table_model always_a) config_beam_1 false one_item /\
  well_shaped config_beam_1 false one_item
              (init_vars (table_model always_a) config_beam_1 false one_item) /\
  0 < batch_size one_item /\
  nth 0 (lv_preds (step (table_model always_a) pow_example config_beam_1 false one_item
                        (init_vars (table_model always_a) config_beam_1 false one_item))) []
  = [BOS; 4%Z].
Proof.
  assert (H1 : beam_size config_beam_1 = 1) by reflexivity.
  pose proof (table_model_well_shaped always_a config_beam_1 false one_item always_a_shape) as H2.
  assert (H3 : well_shaped config_beam_1 false one_item
                 (init_vars (table_model always_a) config_beam_1 false one_item))
    by (apply init_vars_well_shaped; simpl; lia).
  assert (H4 : 0 < batch_size one_item) by (unfold batch_size; simpl; lia).
  split; [exact H1|]. split; [exact H2|]. split; [exact H3|]. split; [exact H4|].
  rewrite (proj1 (X1_beam_of_one_is_greedy _ _ _ (table_model always_a) pow_example
                    config_beam_1 false one_item _ 0 H1 H2 H3 H4)).
  reflexivity.
Defined.

Lemma X2_witness :
  1 <= beam_size config_beam_2 /\
  networks_well_shaped (table_model a_a_eos) config_beam_2 false one_item /\
  0 < batch_size one_item /\
  (Z.of_nat (length (nth 0 (beam_search (table_model a_a_eos) pow_example config_beam_2 false
                                        one_item) []))
   <= Z.max 0 (max_target_length config_beam_2 + 1))%Z.
Proof.
  assert (H1 : 1 <= beam_size config_beam_2) by (simpl; lia).
  pose proof (table_model_well_shaped a_a_eos config_beam_2 false one_item a_a_eos_shape) as H2.
  assert (H3 : 0 < batch_size one_item) by (unfold batch_size; simpl; lia).
  split; [exact H1|]. split; [exact H2|]. split; [exact H3|].
  exact (proj2 (X2_prediction_length_is_bounded _ _ _ (table_model a_a_eos) pow_example
                  config_beam_2 false one_item 0 H1 H2 H3)).
Defined.

Lemma X3_witness :
  networks_well_shaped (table_model a_a_eos) config_beam_2 false one_item /\
  well_shaped config_beam_2 false one_item
              (init_vars (table_model a_a_eos) config_beam_2 false one_item) /\
  0 < batch_size one_item /\ 0 < beam_size config_beam_2 /\
  let v := init_vars (table_model a_a_eos) config_beam_2 false one_item in
  let lp := fun k =>
    nth k (concat (c_lp_scores (candidates_of (table_model a_a_eos) pow_example
                                               config_beam_2 false one_item v))) F32.zero in
  let ks := k_indices_of (table_model a_a_eos) pow_example config_beam_2 false one_item v in
  (forall c, c < beam_size config_beam_2 * beam_size config_beam_2 ->
     F32.is_nan (lp (0 * (beam_size config_beam_2 * beam_size config_beam_2) + c)) = false) /\
  forall j', 0 < j' -> j' < beam_size config_beam_2 ->
    F32.leb (lp (nth (0 * beam_size config_beam_2 + j') ks 0))
            (lp (nth (0 * beam_size config_beam_2 + 0) ks 0)) = true.
Proof.
  pose proof (table_model_well_shaped a_a_eos config_beam_2 false one_item a_a_eos_shape) as H2.
  assert (H3 : well_shaped config_beam_2 false one_item
                 (init_vars (table_model a_a_eos) config_beam_2 false one_item))
    by (apply init_vars_well_shaped; simpl; lia).
  assert (H4 : 0 < batch_size one_item) by (unfold batch_size; simpl; lia).
  assert (H5 : 0 < beam_size config_beam_2) by (simpl; lia).
  assert (H6 : forall c, c < beam_size config_beam_2 * beam_size config_beam_2 ->
             F32.is_nan
               (nth (0 * (beam_size config_beam_2 * beam_size config_beam_2) + c)
                    (concat (c_lp_scores
                               (candidates_of (table_model a_a_eos) pow_example config_beam_2
                                  false one_item
                                  (init_vars (table_model a_a_eos) config_beam_2 false
                                             one_item))))
                    F32.zero) = false).
  { intros c Hc. simpl in Hc.
    destruct c as [|[|[|[|c]]]]; try lia; vm_compute; reflexivity. }
  split; [exact H2|]. split; [exact H3|]. split; [exact H4|]. split; [exact H5|].
  split; [exact H6|].
  exact (proj2 (X3_survivors_are_the_best_candidates _ _ _ (table_model a_a_eos) pow_example
                  config_beam_2 false one_item _ 0 0 H2 H3 H4 H5 H6)).
Defined.

Lemma unit_encoder_batch_size (X : list (list Z)) : batch_size (unit_encoder X) = length X.
Proof. unfold batch_size, unit_encoder. simpl. apply length_map. Qed.

Lemma X4_witness :
  1 <= beam_size config_beam_1 /\
  (forall X, batch_size (unit_encoder X) = length X) /\
  (forall X, networks_well_shaped (table_model always_a) config_beam_1 false (unit_encoder X)) /\
  length (fst (build_test_model (table_model always_a)
                 (beam_search (table_model always_a) pow_example config_beam_1 false)
                 unit_encoder count_loss shift_right_example
                 [([[5; 6]; [7; 0]]%Z, [[4; 3]; [3; 0]]%Z); ([], []); ([[5]]%Z, [[3]]%Z)]))
  = 3.
Proof.
  assert (H1 : 1 <= beam_size config_beam_1) by (simpl; lia).
  pose proof unit_encoder_batch_size as H2.
  assert (H3 : forall X, networks_well_shaped (table_model always_a) config_beam_1 false
                           (unit_encoder X))
    by (intros X; apply table_model_well_shaped, always_a_shape).
  split; [exact H1|]. split; [exact H2|]. split; [exact H3|].
  exact (proj1 (X4_prediction_is_padded_to_one_width _ _ _ (table_model always_a) pow_example
                  config_beam_1 false unit_encoder count_loss shift_right_example H1 H2 H3
                  [([[5; 6]; [7; 0]]%Z, [[4; 3]; [3; 0]]%Z); ([], []); ([[5]]%Z, [[3]]%Z)])).
Defined.

Lemma X5_witness :
  length (@nil (list Z)) = 0 /\
  fst (build_test_model (table_model always_a)
         (beam_search (table_model always_a) pow_example config_beam_1 false)
         unit_encoder count_loss shift_right_example
         ([([[5; 6]]%Z, [[4; 3]]%Z)] ++ ([], []) :: [([[5]]%Z, [[3]]%Z)]))
  = fst (build_test_model (table_model always_a)
           (beam_search (table_model always_a) pow_example config_beam_1 false)
           unit_encoder count_loss shift_right_example
           ([([[5; 6]]%Z, [[4; 3]]%Z)] ++ [([[5]]%Z, [[3]]%Z)])).
Proof.
  split; [reflexivity|].
  exact (X5_empty_device_adds_nothing _ _ _ (table_model always_a) pow_example config_beam_1
           false unit_encoder count_loss shift_right_example
           [([[5; 6]]%Z, [[4; 3]]%Z)] [([[5]]%Z, [[3]]%Z)] [] [] eq_refl).
Defined.

(** ** The graph construction at examples *)

Lemma X6_witness :
  (0 <= 1003 < 2 ^ 49)%Z /\
  length (get_weights 1003) = 16 /\
  fold_right Z.add 0%Z (get_weights 1003) = 1003%Z.
Proof.
  assert (H : (0 <= 1003 < 2 ^ 49)%Z) by lia.
  split; [exact H|].
  destruct (X6_embedding_parts_cover_the_vocabulary 1003 H) as (H1 & H2 & _).
  split; [exact H1 | exact H2].
Defined.

Lemma X7_witness :
  0 < length three_devices /\ 2 < length three_devices /\
  nth 0 three_devices (""%string, ""%string) = nth 2 three_devices (""%string, ""%string) /\
  nth 0 (fst (daisy_chain_run three_devices empty_getter_state)) (Ref ""%string)
  = nth 2 (fst (daisy_chain_run three_devices empty_getter_state)) (Ref ""%string).
Proof.
  assert (H1 : 0 < length three_devices) by (simpl; lia).
  assert (H2 : 2 < length three_devices) by (simpl; lia).
  assert (H3 : nth 0 three_devices (""%string, ""%string)
               = nth 2 three_devices (""%string, ""%string)) by reflexivity.
  split; [exact H1|]. split; [exact H2|]. split; [exact H3|].
  exact (X7_a_device_gets_one_tensor_per_variable three_devices empty_getter_state 0 2
           H1 H2 H3).
Defined.

Lemma X9_witness :
  ~ In ("/gpu:2", "w")%string (firstn 3 three_devices) /\
  last (fst (daisy_chain_run three_devices empty_getter_state)) (Ref "w"%string)
  = Identity (Identity (Identity (Ref "w"%string))).
Proof.
  assert (H : ~ In ("/gpu:2", "w")%string (firstn 3 three_devices))
    by (simpl; intros [H|[H|[H|[]]]]; discriminate).
  split; [exact H|].
  exact (X9_variables_are_copied_in_a_daisy_chain (firstn 3 three_devices)
           "/gpu:2"%string "w"%string H).
Defined.

Lemma X10_witness :
  is_variable variable_of_4 = true /\
  balanced_device_setter "/gpu:0"%string 0 variable_of_4 two_loads
  = Some ("/gpu:1"%string, [("/gpu:0", 5); ("/gpu:1", 7)]%string) /\
  exists l, In ("/gpu:1"%string, l) two_loads /\
            forall d' l', In (d', l') two_loads -> l <= l'.
Proof.
  assert (H1 : is_variable variable_of_4 = true) by reflexivity.
  assert (H2 : balanced_device_setter "/gpu:0"%string 0 variable_of_4 two_loads
               = Some ("/gpu:1"%string, [("/gpu:0", 5); ("/gpu:1", 7)]%string))
    by reflexivity.
  split; [exact H1|]. split; [exact H2|].
  exact (X10_variable_goes_to_a_least_loaded_device _ _ _ _ _ _ H1 H2).
Defined.

Lemma two_loads_NoDup : NoDup (map fst two_loads).
Proof.
  simpl. constructor; [intros [H|[]]; discriminate|].
  constructor; [intros []|]. constructor.
Qed.

Lemma three_ops_placed :
  place_all three_ops two_loads
  = Some (["/gpu:1"; "/gpu:0"; "/gpu:0"]%string, [("/gpu:0", 9); ("/gpu:1", 7)]%string).
Proof. reflexivity. Qed.

Lemma X11_witness :
  NoDup (map fst two_loads) /\
  fold_right Nat.add 0 (map snd [("/gpu:0", 9); ("/gpu:1", 7)]%string)
  = fold_right Nat.add 0 (map snd two_loads) + variable_elements three_ops.
Proof.
  split; [exact two_loads_NoDup|].
  exact (proj1 (proj2 (X11_load_counts_every_variable_once _ _ _ _ two_loads_NoDup
                         three_ops_placed))).
Defined.

Lemma X12_witness :
  NoDup (map fst two_loads) /\
  forall d1 l1 d2 l2,
    In (d1, l1) [("/gpu:0", 9); ("/gpu:1", 7)]%string ->
    In (d2, l2) [("/gpu:0", 9); ("/gpu:1", 7)]%string -> l1 <= l2 + 4.
Proof.
  split; [exact two_loads_NoDup|].
  apply (X12_loads_differ_by_one_variable_at_most 4 three_ops two_loads
           ["/gpu:1"; "/gpu:0"; "/gpu:0"]%string [("/gpu:0", 9); ("/gpu:1", 7)]%string
           two_loads_NoDup).
  - intros dpo n [<-|[<-|[<-|[]]]]; simpl; intros Hv Hn; try discriminate;
      injection Hn as <-; lia.
  - intros d1 l1 d2 l2 [H1|[H1|[]]] [H2|[H2|[]]];
      injection H1 as <- <-; injection H2 as <- <-; lia.
  - exact three_ops_placed.
Defined.

Lemma X13_witness :
  off_padding [[4; 5]; [6; 7]]%Z [[4; 0]; [0; 0]]%Z
  = off_padding [[4; 9]; [8; 3]]%Z [[4; 0]; [0; 0]]%Z /\
  accuracy [[4; 5]; [6; 7]]%Z [[4; 0]; [0; 0]]%Z
  = accuracy [[4; 9]; [8; 3]]%Z [[4; 0]; [0; 0]]%Z.
Proof.
  assert (H : off_padding [[4; 5]; [6; 7]]%Z [[4; 0]; [0; 0]]%Z
              = off_padding [[4; 9]; [8; 3]]%Z [[4; 0]; [0; 0]]%Z) by reflexivity.
  split; [exact H|].
  exact (X13_accuracy_ignores_padded_positions _ _ _ H).
Defined.

Lemma X14_witness :
  Forall (Forall (fun y => y = PAD)) [[0; 0]]%Z /\
  accuracy [[4; 5]]%Z [[0; 0]]%Z = F32.nan /\
  train_loss [[F32.one; F32.one]] [[0; 0]]%Z = F32.nan.
Proof.
  assert (H : Forall (Forall (fun y => y = PAD)) [[0; 0]]%Z)
    by (repeat constructor).
  split; [exact H|].
  exact (X14_only_padding_gives_nan [[4; 5]]%Z [[F32.one; F32.one]] [[0; 0]]%Z H).
Defined.

Lemma X15_witness :
  nth 1 (nth 0 [[4; 0]]%Z []) PAD = PAD /\
  F32.is_finite (nth 1 (nth 0 [[F32.one; S754_infinity false]] []) F32.zero) = false /\
  test_loss_sum [[F32.one; S754_infinity false]] [[4; 0]]%Z = F32.nan.
Proof.
  split; [reflexivity|]. split; [reflexivity|].
  apply (X15_padding_does_not_hide_a_loss_that_is_not_finite
           [[F32.one; S754_infinity false]] [[4; 0]]%Z 0 1); simpl; try lia; reflexivity.
Defined.

(** ** The decoders at the examples *)

Lemma X17_witness :
  1 <= beam_size config_beam_2 /\
  networks_well_shaped (table_model a_a_eos) config_beam_2 false one_item /\
  0 < batch_size one_item /\
  (Z.of_nat (length (nth 0 (beam_search (table_model a_a_eos) pow_example config_beam_2 false
                                        one_item) []))
   <= step_limit config_beam_2 one_item)%Z /\
  last (nth 0 (beam_search (table_model a_a_eos) pow_example config_beam_2 false one_item) [])
       0%Z = EOS.
Proof.
  assert (H1 : 1 <= beam_size config_beam_2) by (simpl; lia).
  pose proof (table_model_well_shaped a_a_eos config_beam_2 false one_item a_a_eos_shape) as H2.
  assert (H3 : 0 < batch_size one_item) by (unfold batch_size; simpl; lia).
  assert (H4 : (Z.of_nat (length (nth 0 (beam_search (table_model a_a_eos) pow_example
                                                     config_beam_2 false one_item) []))
                <= step_limit config_beam_2 one_item)%Z)
    by (vm_compute; discriminate).
  split; [exact H1|]. split; [exact H2|]. split; [exact H3|]. split; [exact H4|].
  exact (proj2 (X17_prediction_below_the_limit_ends_with_EOS _ _ _ (table_model a_a_eos)
                  pow_example config_beam_2 false one_item 0 H1 H2 H3 H4)).
Defined.

Lemma running_sums_length i (x : list Z) : length ((fun _ : nat => running_sums) i x) = length x.
Proof. unfold running_sums. now rewrite length_map, length_seq. Qed.

Lemma running_sums_causal (i : nat) (x : list Z) (a : Z) :
  (fun _ : nat => running_sums) i (x ++ [a])
  = (fun _ : nat => running_sums) i x ++ (fun _ : nat => sum_at_last) i (x ++ [a]).
Proof.
  cbv beta. unfold running_sums.
  rewrite length_app. cbn [length]. rewrite seq_app, map_app. cbn [seq map Nat.add].
  f_equal.
  - apply map_ext_in. intros k Hk. apply in_seq in Hk.
    rewrite firstn_app. replace (S k - length x) with 0 by lia.
    cbn [firstn]. now rewrite app_nil_r.
  - rewrite firstn_all2 by (rewrite length_app; simpl; lia).
    unfold sum_at_last. destruct (x ++ [a]) as [|y l] eqn:Hxa; [now destruct x | reflexivity].
Qed.

Lemma X18_witness :
  [2; 4; 5]%Z <> [] /\
  transformer_decoder_with_caching_impl
    2 (fun p => p) (fun _ => sum_at_last) (fun i (_ : unit) q => 2 * q + Z.of_nat i)%Z
    (fun _ q => q + 1)%Z (fun i j a b => a + b + Z.of_nat (i + j))%Z
    [2; 4; 5]%Z [[29; 65]; [364; 970]]%Z tt
  = ([364; 970; 1792]%Z, [[29; 65; 101]; [364; 970; 1792]]%Z).
Proof.
  assert (H : [2; 4; 5]%Z <> []) by discriminate.
  split; [exact H|].
  exact (eq_trans
           (X18_transformer_cache_gives_the_decoder_output
              unit Z 2 (fun p => p) (fun _ => running_sums) (fun _ => sum_at_last)
              (fun i _ q => 2 * q + Z.of_nat i)%Z (fun _ q => q + 1)%Z
              (fun i j a b => a + b + Z.of_nat (i + j))%Z
              (fun p => eq_refl) (fun p t => removelast_last p t)
              running_sums_length running_sums_causal tt [2; 4; 5]%Z H)
           eq_refl).
Defined.

Lemma first_candidate_well_shaped (self : model unit (list (list Z)) (list (list Z))) enc :
  test_output self = (fun d => first_candidate (map last_slice d)) ->
  (forall preds es, length (decoder self preds es) = Nat.min (length preds) (length es)) ->
  networks_well_shaped self config_beam_1 false enc.
Proof.
  intros Hout Hdec preds cache Hp _. unfold decode. cbn [fst]. rewrite Hout.
  unfold first_candidate, rows_of_width. cbn [fst snd].
  rewrite !length_map, Hdec, Hp, encoder_output_length, Nat.min_id.
  repeat split; auto; apply Forall_map, Forall_forall; intros; reflexivity.
Qed.

Lemma small_transformer_well_shaped enc :
  networks_well_shaped small_transformer config_beam_1 false enc.
Proof.
  apply first_candidate_well_shaped; [reflexivity|].
  intros preds es. apply map2_length.
Qed.

Lemma small_rnnsearch_well_shaped enc :
  networks_well_shaped small_rnnsearch config_beam_1 false enc.
Proof.
  apply first_candidate_well_shaped; [reflexivity|].
  intros preds es. apply map2_length.
Qed.

Lemma X19_witness :
  1 <= beam_size config_beam_1 /\
  networks_well_shaped small_transformer config_beam_1 false one_item /\
  beam_search small_transformer pow_example config_beam_1 true one_item
  = beam_search small_transformer pow_example config_beam_1 false one_item.
Proof.
  assert (H1 : 1 <= beam_size config_beam_1) by (simpl; lia).
  pose proof (small_transformer_well_shaped one_item) as H2.
  split; [exact H1|]. split; [exact H2|].
  exact (proj1 (X19_transformer_decodes_the_same_with_cache
                  unit Z 2 (fun p => p) (fun _ => running_sums) (fun _ => sum_at_last)
                  (fun i _ q => 2 * q + Z.of_nat i)%Z (fun _ q => q + 1)%Z
                  (fun i j a b => a + b + Z.of_nat (i + j))%Z first_candidate
                  (fun p => eq_refl) (fun p t => removelast_last p t)
                  running_sums_length running_sums_causal
                  pow_example config_beam_1 one_item H1 H2)).
Defined.

Lemma X20_witness :
  [2; 4; 5]%Z <> [] /\
  rnnsearch_decoder_with_caching_impl
    (fun t => t) (fun (_ : unit) x s => (x + 2 * s, x + 2 * s)%Z) 0%Z [2; 4; 5]%Z [[8%Z]] tt
  = ([21%Z], [[21%Z]]).
Proof.
  assert (H : [2; 4; 5]%Z <> []) by discriminate.
  split; [exact H|].
  exact (eq_trans
           (X20_rnnsearch_cache_gives_the_last_decoder_output
              unit Z (fun t => t) (fun _ x s => (x + 2 * s, x + 2 * s)%Z) 0%Z
              (fun e x s => eq_refl) tt [2; 4; 5]%Z H)
           eq_refl).
Defined.

Lemma X21_witness :
  1 <= beam_size config_beam_1 /\
  networks_well_shaped small_rnnsearch config_beam_1 false one_item /\
  beam_search small_rnnsearch pow_example config_beam_1 true one_item
  = beam_search small_rnnsearch pow_example config_beam_1 false one_item.
Proof.
  assert (H1 : 1 <= beam_size config_beam_1) by (simpl; lia).
  pose proof (small_rnnsearch_well_shaped one_item) as H2.
  split; [exact H1|]. split; [exact H2|].
  exact (proj1 (X21_rnnsearch_decodes_the_same_with_cache
                  unit Z (fun t => t) (fun _ x s => (x + 2 * s, x + 2 * s)%Z) 0%Z
                  first_candidate (fun e x s => eq_refl)
                  pow_example config_beam_1 one_item H1 H2)).
Defined.

(** ** The padding of the source at examples *)

Lemma X22_witness :
  nth 1 [5; 0]%Z 1%Z = PAD /\
  nth 1 (encoder_padding
           (transformer_mask_padding [5; 0]%Z [[F32.of_Z 1; F32.of_Z 2];
                                               [F32.of_Z 3; F32.of_Z (-4)]])) false = true /\
  nth 1 (encoder_padding
           (rnnsearch_mask_padding [5; 0]%Z [[F32.of_Z 1; F32.of_Z 2];
                                             [F32.of_Z 3; F32.of_Z (-4)]])) false = true.
Proof.
  split; [reflexivity|].
  apply (X22_decoders_find_the_padded_positions
           [5; 0]%Z [[F32.of_Z 1; F32.of_Z 2]; [F32.of_Z 3; F32.of_Z (-4)]] 1);
    simpl; try lia; try reflexivity.
  repeat constructor.
Defined.

Lemma X23_witness :
  nth 1 [5; 0]%Z 1%Z = PAD /\
  nth 1 (encoder_padding
           (transformer_mask_padding [5; 0]%Z [[F32.of_Z 1; F32.of_Z 2];
                                               [S754_infinity false; F32.of_Z 1]])) true
  = false /\
  nth 1 (encoder_padding
           (rnnsearch_mask_padding [5; 0]%Z [[F32.of_Z 1; F32.of_Z 2];
                                             [S754_infinity false; F32.of_Z 1]])) true
  = false.
Proof.
  split; [reflexivity|].
  apply (X23_padding_that_is_not_finite_is_missed
           [5; 0]%Z [[F32.of_Z 1; F32.of_Z 2]; [S754_infinity false; F32.of_Z 1]] 1);
    simpl; try lia; try reflexivity.
  apply Exists_cons_hd. reflexivity.
Defined.

Lemma X24_witness :
  nth 1 [5; 6]%Z 0%Z <> PAD /\
  nth 1 (encoder_padding
           (transformer_mask_padding [5; 6]%Z [[F32.of_Z 1; F32.of_Z 2];
                                               [S754_zero false; S754_zero true]])) false
  = true /\
  nth 1 (encoder_padding
           (rnnsearch_mask_padding [5; 6]%Z [[F32.of_Z 1; F32.of_Z 2];
                                             [S754_zero false; S754_zero true]])) false
  = true.
Proof.
  assert (H : nth 1 [5; 6]%Z 0%Z <> PAD) by discriminate.
  split; [exact H|].
  apply (X24_a_zero_encoder_output_counts_as_padding
           [5; 6]%Z [[F32.of_Z 1; F32.of_Z 2]; [S754_zero false; S754_zero true]] 1);
    simpl; try lia; try exact H.
  repeat constructor; eexists; reflexivity.
Defined.
